(** * TDS SEO keyword tool: content extractor and LLM response parser

    A shallow embedding of the two utility layers of the application and
    the properties checked against them:

    - [src/services/geminiService.ts]: [validateKeywordResult], the JSON
      extraction strategies and the result construction of
      [generateKeywords], [detectLanguage] and [detectContentType];
    - [src/services/openaiService.ts]: the same stages as written in
      [generateKeywordsWithOpenAI];
    - [src/App.tsx]: [calculateScore], [extractCleanText], the fetching
      half of [handleFetchAndGenerate] and the checks of [handleSubmit];
    - [src/components/KeywordCard.tsx]: the text shown by [KeywordPill].

    Modelling conventions.

    - A JavaScript string is the list of its UTF-16 code units, a code
      unit is its number ([N]).
    - A regular expression is run by a backtracking matcher with the
      priorities of the ECMAScript one: ordered alternatives, greedy and
      lazy stars, capture groups. The matcher is proved sound and
      complete for the language of the expression, so the bound on the
      iterations of a star loses no match.
    - [JSON.parse] is a one-pass pushdown recogniser of the JSON grammar
      that builds the value; it is total, without fuel. A number keeps
      its literal.
    - The console is a log that the validator returns with its answer.
    - What the generators throw is a value of an error type.
    - The document is a tree of elements and text nodes.
    - The numbers of [calculateScore] are IEEE 754 binary64 values, with
      the operations of the specification of floating-point arithmetic
      of the Standard Library ([SpecFloat]): every sum, product and
      quotient is rounded as the program rounds it. *)

From Stdlib Require Import Ascii String DecimalString.
From Stdlib Require Import List Bool Arith Lia ZArith QArith.
From Stdlib Require Import Floats.SpecFloat.
Import ListNotations.

Set Implicit Arguments.
#[local] Set Warnings "-register-all".

#[local] Open Scope list_scope.
#[local] Open Scope nat_scope.

(* ================================================================== *)
(** ** Strings *)
(* ================================================================== *)

Module Str.

(** A UTF-16 code unit, by its number. *)
Definition char := N.
Definition str := list char.

Definition cu (c : ascii) : char := N_of_ascii c.

(** Literals are written as Rocq strings and unfolded to code units. *)
Definition lit (s : string) : str := map cu (list_ascii_of_string s).

Definition ch_eqb (a b : char) : bool := N.eqb a b.

Definition between (lo hi : N) (c : char) : bool :=
  (N.leb lo c && N.leb c hi)%bool.

(** ECMAScript [WhiteSpace] and [LineTerminator], as used by
    [String.prototype.trim] and by the class [\s]: TAB, LF, VT, FF, CR,
    SP, NBSP, U+1680, U+2000-200A, LS, PS, U+202F, U+205F, U+3000 and
    U+FEFF. *)
Definition is_space (c : char) : bool :=
  between 9%N 13%N c || ch_eqb c 32%N || ch_eqb c 160%N || ch_eqb c 5760%N ||
  between 8192%N 8202%N c || ch_eqb c 8232%N || ch_eqb c 8233%N ||
  ch_eqb c 8239%N || ch_eqb c 8287%N || ch_eqb c 12288%N || ch_eqb c 65279%N.

Fixpoint drop_while (p : char -> bool) (s : str) : str :=
  match s with
  | [] => []
  | c :: t => if p c then drop_while p t else s
  end.

Fixpoint take_while (p : char -> bool) (s : str) : str :=
  match s with
  | [] => []
  | c :: t => if p c then c :: take_while p t else []
  end.

Definition trimStart (s : str) : str := drop_while is_space s.
Definition trimEnd (s : str) : str := rev (drop_while is_space (rev s)).
Definition trim (s : str) : str := trimEnd (trimStart s).

Fixpoint str_eqb (a b : str) : bool :=
  match a, b with
  | [], [] => true
  | x :: a', y :: b' => ch_eqb x y && str_eqb a' b'
  | _, _ => false
  end.

(** [s.startsWith(p)] *)
Fixpoint startsWith (p s : str) : bool :=
  match p, s with
  | [], _ => true
  | x :: p', y :: s' => ch_eqb x y && startsWith p' s'
  | _ :: _, [] => false
  end.

(** [s.includes(p)] *)
Fixpoint includes (p s : str) : bool :=
  startsWith p s ||
  match s with
  | [] => false
  | _ :: t => includes p t
  end.

(** [s.lastIndexOf(c)] for a one-character needle; [None] is [-1]. *)
Fixpoint lastIndexOf (c : char) (s : str) : option nat :=
  match s with
  | [] => None
  | x :: t =>
      match lastIndexOf c t with
      | Some i => Some (S i)
      | None => if ch_eqb x c then Some 0 else None
      end
  end.

(** [s.substring(0, n)] *)
Definition substring0 (n : nat) (s : str) : str := firstn n s.

(** [toLowerCase], one code unit at a time: the letters of ASCII and
    Latin-1.  Case mappings further up are left out; nothing below
    depends on them. *)
Definition lower (c : char) : char :=
  if between 65%N 90%N c || (between 192%N 222%N c && negb (ch_eqb c 215%N))
  then (c + 32)%N else c.

Definition toLowerCase (s : str) : str := map lower s.

Definition count_char (c : char) (s : str) : nat :=
  length (filter (ch_eqb c) s).

Definition NL : char := 10%N.
Definition DQUOTE : char := 34%N.
Definition CR : char := 13%N.

End Str.
Import Str.

(* ================================================================== *)
(** ** JavaScript values obtained from [JSON.parse] *)
(* ================================================================== *)

Module Js.

(** A number keeps the literal it was read from; no claim depends on
    its numeric value beyond being zero or not. *)
Inductive json : Type :=
| JNull
| JBool (b : bool)
| JNum (lexeme : str)
| JStr (s : str)
| JArr (items : list json)
| JObj (fields : list (str * json)).

(** A property read gives [undefined] ([None]) or a value. *)
Definition jsval := option json.

Inductive jstype := TUndefined | TBoolean | TNumber | TString | TObject.

Definition jstype_eqb (a b : jstype) : bool :=
  match a, b with
  | TUndefined, TUndefined | TBoolean, TBoolean | TNumber, TNumber
  | TString, TString | TObject, TObject => true
  | _, _ => false
  end.

Definition typeof (v : jsval) : jstype :=
  match v with
  | None => TUndefined
  | Some JNull => TObject
  | Some (JBool _) => TBoolean
  | Some (JNum _) => TNumber
  | Some (JStr _) => TString
  | Some (JArr _) => TObject
  | Some (JObj _) => TObject
  end.

Definition is_digit (c : char) : bool := between 48%N 57%N c.

(** The mantissa of a number literal: what precedes the exponent. *)
Definition mantissa (lexeme : str) : str :=
  take_while (fun c => negb (ch_eqb c (cu "e") || ch_eqb c (cu "E")))
             lexeme.

Definition num_nonzero (lexeme : str) : bool :=
  existsb (fun c => is_digit c && negb (ch_eqb c (cu "0")))
          (mantissa lexeme).

(** [ToBoolean] *)
Definition truthy (v : jsval) : bool :=
  match v with
  | None => false
  | Some JNull => false
  | Some (JBool b) => b
  | Some (JNum l) => num_nonzero l
  | Some (JStr s) => negb (Nat.eqb (length s) 0)
  | Some (JArr _) => true
  | Some (JObj _) => true
  end.

Fixpoint lookup (k : str) (fields : list (str * json)) : jsval :=
  match fields with
  | [] => None
  | (k', v) :: rest => if str_eqb k k' then Some v else lookup k rest
  end.

(** [obj[k] = v] on the own properties of a plain object: an existing
    key keeps its place, a new key goes last. *)
Fixpoint obj_set (k : str) (v : json) (fields : list (str * json))
  : list (str * json) :=
  match fields with
  | [] => [(k, v)]
  | (k', v') :: rest =>
      if str_eqb k k' then (k', v) :: rest else (k', v') :: obj_set k v rest
  end.

(** [v.k] for the property names the validator and the callers read:
    none of them is defined on [Object.prototype], [Array.prototype] or
    on the wrappers of primitives, so only own properties of a plain
    object answer. Reading a property of [null] or [undefined] throws
    and is handled where it can happen. *)
Definition prop (v : jsval) (k : string) : jsval :=
  match v with
  | Some (JObj fields) => lookup (lit k) fields
  | _ => None
  end.

End Js.
Import Js.

(* ================================================================== *)
(** ** The validator of [geminiService.ts] *)
(* ================================================================== *)

Module Validator.

(** What the validator writes to the console. *)
Inductive console_msg :=
| ConsoleError (m : string)
| ConsoleWarn (m : string).

(** A computation that logs. *)
Definition logged (A : Type) : Type := A * list console_msg.

Definition ret {A} (a : A) : logged A := (a, []).
Definition tell (m : console_msg) : logged unit := (tt, [m]).
Definition bind {A B} (x : logged A) (f : A -> logged B) : logged B :=
  let '(a, l1) := x in
  let '(b, l2) := f a in
  (b, l1 ++ l2).

#[local] Notation "x <- c ;; k" := (bind c (fun x => k))
  (at level 61, c at next level, right associativity).
#[local] Notation "c ;;; k" := (bind c (fun _ => k))
  (at level 61, right associativity).

(** The [[min, max]] pairs of the three required categories and the
    names under which they are reported.  The repository carries three
    sets of them. *)
Record count_policy := {
  primary_min : nat;   primary_max : nat;   primary_name : string;
  secondary_min : nat; secondary_max : nat; secondary_name : string;
  longtail_min : nat;  longtail_max : nat;  longtail_name : string
}.

(** [geminiService.ts:79-81] *)
Definition policy_flexible : count_policy :=
  {| primary_min := 1;   primary_max := 10;
     primary_name :=
       "Target Focus keywords (1-10, flexible based on article scope)";
     secondary_min := 2; secondary_max := 20;
     secondary_name :=
       "Supporting Topic keywords (2-20, flexible based on complexity)";
     longtail_min := 3;  longtail_max := 30;
     longtail_name :=
       "User Query Variations (3-30, flexible based on content richness)" |}.

(** The revision with 2-5, 5-12, 8-20. *)
Definition policy_modern : count_policy :=
  {| primary_min := 2;   primary_max := 5;
     primary_name :=
       "Target Focus keywords (flexible: 2-5 based on article scope)";
     secondary_min := 5; secondary_max := 12;
     secondary_name :=
       "Supporting Topic keywords (flexible: 5-12 based on complexity)";
     longtail_min := 8;  longtail_max := 20;
     longtail_name :=
       "User Query Variations (flexible: 8-20 based on content richness)" |}.

(** The oldest revision: 3-5, 8-12, 10-15. *)
Definition policy_strict : count_policy :=
  {| primary_min := 3;    primary_max := 5;
     primary_name := "Primary keywords";
     secondary_min := 8;  secondary_max := 12;
     secondary_name := "Secondary keywords";
     longtail_min := 10;  longtail_max := 15;
     longtail_name := "Long-tail keywords" |}.

Definition show_nat (n : nat) : string :=
  NilZero.string_of_uint (Nat.to_uint n).

(** [typeof x === 'string' && x.trim().length > 0] *)
Definition nonblank_string (v : jsval) : bool :=
  match v with
  | Some (JStr s) => 0 <? length (trim s)
  | _ => false
  end.

(** The predicate given to [arr.every]. *)
Definition valid_item (item : json) : bool :=
  truthy (Some item) &&
  jstype_eqb (typeof (Some item)) TObject &&
  nonblank_string (prop (Some item) "term") &&
  nonblank_string (prop (Some item) "rationale").

Definition validateKeywordArray (arr : jsval) (minCount maxCount : nat)
    (arrayName : string) (required : bool) : logged bool :=
  match arr with
  | Some (JArr items) =>
      if (length items <? minCount) || (maxCount <? length items) then
        tell (ConsoleError
                (arrayName ++ " count is " ++ show_nat (length items) ++
                 ", expected " ++ show_nat minCount ++ "-" ++
                 show_nat maxCount)%string) ;;;
        ret false
      else
        let allValid := forallb valid_item items in
        (if negb allValid
         then tell (ConsoleError (arrayName ++ " contains invalid items")%string)
         else ret tt) ;;;
        ret allValid
  | _ =>
      if required then
        tell (ConsoleError (arrayName ++ " is not an array")%string) ;;;
        ret false
      else ret true
  end.

(** [a && b] with a logging right operand that is not run when [a]
    is false. *)
Definition and_then (a : logged bool) (b : logged bool) : logged bool :=
  x <- a ;; if x then b else ret false.

(** [if (data.k && !validateKeywordArray(data.k, lo, hi, name, false))
       console.warn(...)] *)
Definition check_optional (data : jsval) (k : string) (lo hi : nat)
    (name : string) : logged unit :=
  if truthy (prop data k) then
    ok <- validateKeywordArray (prop data k) lo hi name false ;;
    if negb ok
    then tell (ConsoleWarn (name ++ " present but invalid - will be ignored")%string)
    else ret tt
  else ret tt.

Definition validateKeywordResult_run (pol : count_policy) (data : jsval)
  : logged bool :=
  if negb (truthy data) || negb (jstype_eqb (typeof data) TObject) then
    tell (ConsoleError "Data is not an object") ;;; ret false
  else
    coreValid <-
      and_then (validateKeywordArray (prop data "primary")
                  (primary_min pol) (primary_max pol)
                  (primary_name pol) true)
     (and_then (validateKeywordArray (prop data "secondary")
                  (secondary_min pol) (secondary_max pol)
                  (secondary_name pol) true)
     (and_then (validateKeywordArray (prop data "longtail")
                  (longtail_min pol) (longtail_max pol)
                  (longtail_name pol) true)
               (ret (nonblank_string (prop data "competitorInsights"))))) ;;
    if negb coreValid then ret false
    else
      check_optional data "lsiKeywords" 5 8 "LSI keywords" ;;;
      check_optional data "questionKeywords" 5 8 "Question keywords" ;;;
      check_optional data "entities" 1 50 "Entities" ;;;
      ret true.

Definition validateKeywordResultWith (pol : count_policy) (data : json)
  : bool :=
  fst (validateKeywordResult_run pol (Some data)).

(** The validator of the current revision. *)
Definition validateKeywordResult (data : json) : bool :=
  validateKeywordResultWith policy_flexible data.

Definition validation_log (data : json) : list console_msg :=
  snd (validateKeywordResult_run policy_flexible (Some data)).

(** What [validateKeywordArray] answers, the console left aside. *)
Definition array_ok (arr : jsval) (lo hi : nat) (required : bool) : bool :=
  match arr with
  | Some (JArr items) =>
      (lo <=? length items) && (length items <=? hi) &&
      forallb valid_item items
  | _ => negb required
  end.

(** The four required checks. *)
Definition core_ok (pol : count_policy) (data : jsval) : bool :=
  array_ok (prop data "primary") (primary_min pol) (primary_max pol) true &&
  (array_ok (prop data "secondary") (secondary_min pol) (secondary_max pol) true &&
   (array_ok (prop data "longtail") (longtail_min pol) (longtail_max pol) true &&
    nonblank_string (prop data "competitorInsights"))).

End Validator.
Import Validator.

(* ================================================================== *)
(** ** Regular expressions: a backtracking matcher *)
(* ================================================================== *)

Module Regex.

Inductive regex : Type :=
| Eps
| Chr (p : char -> bool)
| Seq (a b : regex)
| Alt (a b : regex)
| Star (greedy : bool) (a : regex)
| Group (n : nat) (a : regex).

(** Captures, most recent first. *)
Definition caps := list (nat * str).

Fixpoint capture (n : nat) (c : caps) : option str :=
  match c with
  | [] => None
  | (i, v) :: rest => if Nat.eqb i n then Some v else capture n rest
  end.

(** [consumed s s'] is what was read of [s] when [s'] is left. *)
Definition consumed (s s' : str) : str := firstn (length s - length s') s.

Section Matcher.
Variable R : Type.

Definition cont := str -> caps -> option R.

Definition orelse (a b : option R) : option R :=
  match a with
  | Some x => Some x
  | None => b
  end.

(** The iterations of a star.  An iteration that reads nothing is
    refused, so [n] iterations at most are possible on [n] characters;
    [n] starts as the length of the text.  A greedy star tries one more
    iteration first, a lazy one tries what follows first. *)
Fixpoint star_loop (greedy : bool) (body : str -> caps -> cont -> option R)
    (k : cont) (n : nat) (s : str) (c : caps) {struct n} : option R :=
  let again :=
    match n with
    | 0 => None
    | S n' =>
        body s c (fun s' c' =>
          if length s' <? length s then star_loop greedy body k n' s' c'
          else None)
    end in
  if greedy then orelse again (k s c) else orelse (k s c) again.

(** The matcher tries the alternatives in the order of the ECMAScript
    one: the left branch of a choice first, then the right one. *)
Fixpoint run (r : regex) (s : str) (c : caps) (k : cont) {struct r}
  : option R :=
  match r with
  | Eps => k s c
  | Chr p =>
      match s with
      | x :: t => if p x then k t c else None
      | [] => None
      end
  | Seq a b => run a s c (fun s' c' => run b s' c' k)
  | Alt a b => orelse (run a s c k) (run b s c k)
  | Star g a => star_loop g (run a) k (length s) s c
  | Group n a =>
      run a s c (fun s' c' => k s' ((n, consumed s s') :: c'))
  end.

End Matcher.

(** Building blocks for the literals of the source. *)
Definition any : regex := Chr (fun _ => true).         (* [\s\S] *)
Definition ws : regex := Chr is_space.                 (* \s *)
Definition chr (c : char) : regex := Chr (ch_eqb c).
Definition opt (a : regex) : regex := Alt a Eps.       (* a? *)
Definition star (a : regex) : regex := Star true a.    (* a* *)
Definition lazy (a : regex) : regex := Star false a.   (* a*? *)
(** [a{3,}] *)
Definition three_or_more (a : regex) : regex :=
  Seq a (Seq a (Seq a (star a))).

(** [Canonicalize] of a case-insensitive match, on one-byte units. *)
Definition upper (c : char) : char :=
  if between 97%N 122%N c || (between 224%N 254%N c && negb (ch_eqb c 247%N))
  then (c - 32)%N else c.

Definition chr_i (c : char) : regex :=
  Chr (fun x => ch_eqb (upper x) (upper c)).

Fixpoint word_of (ci : bool) (l : list ascii) : regex :=
  match l with
  | [] => Eps
  | x :: t => Seq (if ci then chr_i (cu x) else chr (cu x)) (word_of ci t)
  end.

(** A literal; [ci] is the [i] flag. *)
Definition word (ci : bool) (l : string) : regex :=
  word_of ci (list_ascii_of_string l).

Fixpoint alts (l : list regex) : regex :=
  match l with
  | [] => Chr (fun _ => false)
  | [a] => a
  | a :: rest => Alt a (alts rest)
  end.

(** *** Running a regular expression on a string *)

Record match_result := {
  m_index : nat;      (* where the match starts *)
  m_0 : str;          (* the matched text *)
  m_caps : caps       (* the groups *)
}.

Definition accept (s : str) : cont (str * caps) :=
  fun s' c => Some (consumed s s', c).

Definition match_at (r : regex) (s : str) : option (str * caps) :=
  run r s [] (accept s).

(** [s.match(r)] without the [g] flag, [r.test(s)]: the first position
    from the left at which the matcher succeeds. *)
Fixpoint search_from (r : regex) (i : nat) (s : str) : option match_result :=
  match match_at r s with
  | Some (m0, c) => Some {| m_index := i; m_0 := m0; m_caps := c |}
  | None =>
      match s with
      | [] => None
      | _ :: t => search_from r (S i) t
      end
  end.

Definition search (r : regex) (s : str) : option match_result :=
  search_from r 0 s.

Definition test (r : regex) (s : str) : bool :=
  match search r s with
  | Some _ => true
  | None => false
  end.

(** [m[n]] for a successful match: [undefined] when the group took no
    part. *)
Definition group (n : nat) (m : match_result) : option str :=
  capture n (m_caps m).

(** [s.replace(r, rep)] with the [g] flag and a replacement without
    [$]: after a match of [n > 0] characters the next [n - 1] are
    skipped; after an empty match the scan moves by one. *)
Fixpoint replace_go (r : regex) (rep : str) (s : str) (skip : nat)
  {struct s} : str :=
  match skip with
  | S k =>
      match s with
      | [] => []
      | _ :: t => replace_go r rep t k
      end
  | 0 =>
      match match_at r s with
      | Some (_ :: m0, _) =>
          rep ++ match s with
                 | [] => []
                 | _ :: t => replace_go r rep t (length m0)
                 end
      | Some ([], _) =>
          rep ++ match s with
                 | [] => []
                 | x :: t => x :: replace_go r rep t 0
                 end
      | None =>
          match s with
          | [] => []
          | x :: t => x :: replace_go r rep t 0
          end
      end
  end.

Definition replace_all (r : regex) (rep : str) (s : str) : str :=
  replace_go r rep s 0.

(** *** The language of a regular expression *)

(** Concatenations of non-empty words of [P]. *)
Inductive star_lang (P : str -> Prop) : str -> Prop :=
| star_nil : star_lang P []
| star_cons (s1 s2 : str) :
    P s1 -> s1 <> [] -> star_lang P s2 -> star_lang P (s1 ++ s2).

Fixpoint lang (r : regex) : str -> Prop :=
  match r with
  | Eps => fun s => s = []
  | Chr p => fun s => exists x, s = [x] /\ p x = true
  | Seq a b => fun s => exists s1 s2, s = s1 ++ s2 /\ lang a s1 /\ lang b s2
  | Alt a b => fun s => lang a s \/ lang b s
  | Star _ a => star_lang (lang a)
  | Group _ a => lang a
  end.

End Regex.
Import Regex.

(* ================================================================== *)
(** ** [JSON.parse] *)
(* ================================================================== *)

Module Json.

(** The four white space characters of the JSON grammar. *)
Definition is_json_ws (c : char) : bool :=
  ch_eqb c 32%N || ch_eqb c 9%N || ch_eqb c 10%N || ch_eqb c 13%N.

(** A container whose closing bracket has not been read yet. *)
Inductive frame :=
| FArr (items : list json)                   (* in an array *)
| FObj (fields : list (str * json))          (* in an object, between members *)
| FVal (fields : list (str * json)) (key : str).  (* the value of [key] is due *)

Inductive literal := LTrue | LFalse | LNull.

Definition literal_text (l : literal) : str :=
  match l with
  | LTrue => lit "true"
  | LFalse => lit "false"
  | LNull => lit "null"
  end.

Definition literal_value (l : literal) : json :=
  match l with
  | LTrue => JBool true
  | LFalse => JBool false
  | LNull => JNull
  end.

(** Where a number literal stands: after the sign, after a leading
    zero, in the integer digits, after the point, in the fraction,
    after the exponent mark, after its sign, in its digits. *)
Inductive numphase :=
| NMinus | NZero | NInt | NDot | NFrac | NExp | NExpSign | NExpInt.

Definition num_complete (ph : numphase) : bool :=
  match ph with
  | NZero | NInt | NFrac | NExpInt => true
  | _ => false
  end.

Inductive escape :=
| ENone
| EBackslash
| EHex (digits : list char).

Inductive mode :=
| MValue                 (* a value must start *)
| MArrOpen               (* after a left square bracket *)
| MObjOpen               (* after a left brace *)
| MName                  (* after a comma in an object *)
| MColon                 (* after a member name *)
| MNext                  (* after a value inside a container *)
| MDone (v : json)       (* after the value of the text *)
| MStr (name : bool) (acc : str) (e : escape)
| MLit (l : literal) (n : nat)      (* [n] characters of [l] are read *)
| MNum (ph : numphase) (acc : str).

Definition pstate := option (mode * list frame).

Definition initial : pstate := Some (MValue, []).

(** A value is complete: it is the value of the text, the next item of
    the array or the value of the pending member. *)
Definition complete (v : json) (st : list frame) : pstate :=
  match st with
  | [] => Some (MDone v, [])
  | FArr items :: st' => Some (MNext, FArr (items ++ [v]) :: st')
  | FVal fields k :: st' => Some (MNext, FObj (obj_set k v fields) :: st')
  | FObj _ :: _ => None
  end.

Definition is_digit19 (c : char) : bool := between 49%N 57%N c.

Definition is_hex (c : char) : bool :=
  is_digit c || between 97%N 102%N c || between 65%N 70%N c.

Definition hex_value (c : char) : N :=
  if is_digit c then (c - 48)%N
  else if between 97%N 102%N c then (c - 87)%N
  else (c - 55)%N.

Definition hex4 (ds : list char) : char :=
  fold_left (fun acc d => (acc * 16 + hex_value d)%N) ds 0%N.

(** The first character of a value. *)
Definition start_value (st : list frame) (c : char) : pstate :=
  if ch_eqb c (cu "{") then Some (MObjOpen, FObj [] :: st)
  else if ch_eqb c (cu "[") then Some (MArrOpen, FArr [] :: st)
  else if ch_eqb c DQUOTE then Some (MStr false [] ENone, st)
  else if ch_eqb c (cu "t") then Some (MLit LTrue 1, st)
  else if ch_eqb c (cu "f") then Some (MLit LFalse 1, st)
  else if ch_eqb c (cu "n") then Some (MLit LNull 1, st)
  else if ch_eqb c (cu "-") then Some (MNum NMinus [c], st)
  else if ch_eqb c (cu "0") then Some (MNum NZero [c], st)
  else if is_digit19 c then Some (MNum NInt [c], st)
  else None.

(** What may follow a complete value. *)
Definition after_value (m : mode) (st : list frame) (c : char) : pstate :=
  match m with
  | MDone v => if is_json_ws c then Some (MDone v, st) else None
  | MNext =>
      if is_json_ws c then Some (MNext, st)
      else if ch_eqb c (cu ",") then
        match st with
        | FArr _ :: _ => Some (MValue, st)
        | FObj _ :: _ => Some (MName, st)
        | _ => None
        end
      else if ch_eqb c (cu "]") then
        match st with
        | FArr items :: st' => complete (JArr items) st'
        | _ => None
        end
      else if ch_eqb c (cu "}") then
        match st with
        | FObj fields :: st' => complete (JObj fields) st'
        | _ => None
        end
      else None
  | _ => None
  end.

(** A string ends: a member name moves its object to the pending
    member, any other string is a value. *)
Definition end_string (name : bool) (s : str) (st : list frame) : pstate :=
  if name then
    match st with
    | FObj fields :: st' => Some (MColon, FVal fields s :: st')
    | _ => None
    end
  else complete (JStr s) st.

Definition in_string (name : bool) (acc : str) (e : escape)
    (st : list frame) (c : char) : pstate :=
  let put x := Some (MStr name (acc ++ [x]) ENone, st) in
  match e with
  | ENone =>
      if ch_eqb c DQUOTE then end_string name acc st
      else if ch_eqb c (cu "\") then Some (MStr name acc EBackslash, st)
      else if N.ltb c 32%N then None
      else put c
  | EBackslash =>
      if ch_eqb c DQUOTE || ch_eqb c (cu "\") || ch_eqb c (cu "/")
      then put c
      else if ch_eqb c (cu "b") then put 8%N
      else if ch_eqb c (cu "f") then put 12%N
      else if ch_eqb c (cu "n") then put 10%N
      else if ch_eqb c (cu "r") then put 13%N
      else if ch_eqb c (cu "t") then put 9%N
      else if ch_eqb c (cu "u") then Some (MStr name acc (EHex []), st)
      else None
  | EHex ds =>
      if is_hex c then
        if length ds =? 3 then put (hex4 (ds ++ [c]))
        else Some (MStr name acc (EHex (ds ++ [c])), st)
      else None
  end.

(** One more character of a number: the next phase, [None] when the
    character does not belong to the number. *)
Definition num_next (ph : numphase) (c : char) : option numphase :=
  let is_e := ch_eqb c (cu "e") || ch_eqb c (cu "E") in
  let is_dot := ch_eqb c (cu ".") in
  match ph with
  | NMinus => if ch_eqb c (cu "0") then Some NZero
              else if is_digit19 c then Some NInt else None
  | NZero => if is_dot then Some NDot else if is_e then Some NExp else None
  | NInt => if is_digit c then Some NInt
            else if is_dot then Some NDot
            else if is_e then Some NExp else None
  | NDot => if is_digit c then Some NFrac else None
  | NFrac => if is_digit c then Some NFrac
             else if is_e then Some NExp else None
  | NExp => if ch_eqb c (cu "+") || ch_eqb c (cu "-") then Some NExpSign
            else if is_digit c then Some NExpInt else None
  | NExpSign => if is_digit c then Some NExpInt else None
  | NExpInt => if is_digit c then Some NExpInt else None
  end.

Definition step (ps : pstate) (c : char) : pstate :=
  match ps with
  | None => None
  | Some (m, st) =>
      match m with
      | MValue =>
          if is_json_ws c then Some (MValue, st) else start_value st c
      | MArrOpen =>
          if is_json_ws c then Some (MArrOpen, st)
          else if ch_eqb c (cu "]") then
            match st with
            | FArr items :: st' => complete (JArr items) st'
            | _ => None
            end
          else start_value st c
      | MObjOpen =>
          if is_json_ws c then Some (MObjOpen, st)
          else if ch_eqb c (cu "}") then
            match st with
            | FObj fields :: st' => complete (JObj fields) st'
            | _ => None
            end
          else if ch_eqb c DQUOTE then Some (MStr true [] ENone, st)
          else None
      | MName =>
          if is_json_ws c then Some (MName, st)
          else if ch_eqb c DQUOTE then Some (MStr true [] ENone, st)
          else None
      | MColon =>
          if is_json_ws c then Some (MColon, st)
          else if ch_eqb c (cu ":") then Some (MValue, st)
          else None
      | MNext | MDone _ => after_value m st c
      | MStr name acc e => in_string name acc e st c
      | MLit l n =>
          match nth_error (literal_text l) n with
          | Some x =>
              if ch_eqb c x then
                if S n =? length (literal_text l)
                then complete (literal_value l) st
                else Some (MLit l (S n), st)
              else None
          | None => None
          end
      | MNum ph acc =>
          match num_next ph c with
          | Some ph' => Some (MNum ph' (acc ++ [c]), st)
          | None =>
              if num_complete ph then
                match complete (JNum acc) st with
                | Some (m', st') => after_value m' st' c
                | None => None
                end
              else None
          end
      end
  end.

(** The end of the text. *)
Definition finish (ps : pstate) : option json :=
  match ps with
  | Some (MDone v, []) => Some v
  | Some (MNum ph acc, []) => if num_complete ph then Some (JNum acc) else None
  | _ => None
  end.

Definition run_from (ps : pstate) (s : str) : pstate := fold_left step s ps.

(** [JSON.parse(s)]; [None] is the [SyntaxError]. *)
Definition JSON_parse (s : str) : option json := finish (run_from initial s).

(** *** States from which no object can come *)

Fixpoint bottom_is_array (st : list frame) : bool :=
  match st with
  | [] => false
  | f :: t =>
      match t with
      | [] => match f with FArr _ => true | _ => false end
      | _ :: _ => bottom_is_array t
      end
  end.

(** The value of the text is being read and is not an object. *)
Definition scalar_mode (m : mode) : bool :=
  match m with
  | MDone (JObj _) => false
  | MDone _ => true
  | MStr false _ _ => true
  | MLit _ _ => true
  | MNum _ _ => true
  | _ => false
  end.

(** The value of the text is a scalar, or an array that is still open. *)
Definition no_object (ps : pstate) : bool :=
  match ps with
  | None => true
  | Some (m, []) => scalar_mode m
  | Some (_, st) => bottom_is_array st
  end.

End Json.
Import Json.

(* ================================================================== *)
(** ** From the model's answer to a keyword result *)
(* ================================================================== *)

Module Parser.

(** What the two generators throw: the errors raised inside their [try]
    blocks and the two that the [catch] block of [generateKeywords] puts
    in their place. *)
Inductive error :=
| EmptyResponse          (* Error: the answer has no text *)
| NoJsonFound            (* SyntaxError: no strategy finds JSON *)
| JsonParseError         (* SyntaxError: JSON.parse threw *)
| InvalidKeywordCounts   (* Error: the validator said no *)
| TypeErrorThrown        (* TypeError: a property of null, undefined or
                            a primitive *)
| FormatInvalid          (* Error: "Failed to parse the AI's response.
                            The format was invalid. ..." *)
| GenericFailure.        (* Error: "An error occurred while generating
                            keywords. ..." *)

Inductive result (A : Type) :=
| Ok (a : A)
| Err (e : error).
Arguments Ok {A} a.
Arguments Err {A} e.

Definition and_then {A B} (x : result A) (f : A -> result B) : result B :=
  match x with
  | Ok a => f a
  | Err e => Err e
  end.

#[local] Notation "x <- c ;; k" := (and_then c (fun x => k))
  (at level 61, c at next level, right associativity).

(** [/```(?:json)?\s*([\s\S]*?)\s*```/] *)
Definition re_code_block : regex :=
  Seq (word false "```")
 (Seq (opt (word false "json"))
 (Seq (star ws)
 (Seq (Group 1 (lazy any))
 (Seq (star ws)
      (word false "```"))))).

(** [/\{[\s\S]*\}/] *)
Definition re_object : regex :=
  Seq (chr (cu "{")) (Seq (star any) (chr (cu "}"))).

(** [/(?:Here's|Here is|Output:|Result:)?\s*(\{[\s\S]*\})/i] *)
Definition re_after_prefix : regex :=
  Seq (opt (alts [word true "Here's"; word true "Here is";
                  word true "Output:"; word true "Result:"]))
 (Seq (star ws)
      (Group 1 (Seq (chr_i (cu "{")) (Seq (star any) (chr_i (cu "}")))))).

(** [m && m[1]]: the match exists and its first group is a non-empty
    string. *)
Definition match_and_group1 (m : option match_result) : option str :=
  match m with
  | Some r =>
      match group 1 r with
      | Some (x :: t) => Some (x :: t)
      | _ => None
      end
  | None => None
  end.

(** Strategies 3 and 4 and the error, [geminiService.ts:1303-1322] and
    [openaiService.ts:100-114]. *)
Definition strategy_3_4 (jsonText : str) : result str :=
  match search re_object jsonText with
  | Some objectMatch => Ok (m_0 objectMatch)
  | None =>
      match match_and_group1 (search re_after_prefix jsonText) with
      | Some g => Ok g
      | None => Err NoJsonFound
      end
  end.

(** The four strategies, the same text in both services:
    [jsonText] is the trimmed answer. *)
Definition extract (jsonText : str) : result str :=
  if startsWith (lit "{") jsonText then Ok jsonText
  else
    match match_and_group1 (search re_code_block jsonText) with
    | Some g => Ok (trim g)
    | None => strategy_3_4 jsonText
    end.

(** [geminiService.ts:1326-1333]: trim, then cut what follows the last
    closing brace. *)
Definition cleanup (jsonText : str) : str :=
  let jsonText := trim jsonText in
  match lastIndexOf (cu "}") jsonText with
  | Some lastBrace =>
      if lastBrace <? length jsonText - 1
      then substring0 (lastBrace + 1) jsonText
      else jsonText
  | None => jsonText
  end.

Definition parse_json (jsonText : str) : result json :=
  match JSON_parse jsonText with
  | Some v => Ok v
  | None => Err JsonParseError
  end.

(** *** The Gemini service *)

(** The answer's text up to the parsed value, [geminiService.ts:1274-1351]. *)
Definition gemini_parse (responseText : str) : result json :=
  let text := trim responseText in
  match text with
  | [] => Err EmptyResponse
  | _ =>
      jsonText <- extract (trim text) ;;
      parse_json (cleanup jsonText)
  end.

(** What the caller adds to the result. *)
Record provenance := {
  groundingChunks : list json;
  contentType : str;
  detectedLanguage : str
}.

Definition digits_of (n : nat) : str := lit (show_nat n).

Fixpoint indexed {A} (f : A -> json) (i : nat) (l : list A)
  : list (str * json) :=
  match l with
  | [] => []
  | x :: t => (digits_of i, f x) :: indexed f (S i) t
  end.

(** The own enumerable properties that [{...v}] copies. *)
Definition own_props (v : json) : list (str * json) :=
  match v with
  | JObj fields => fields
  | JArr items => indexed (fun x => x) 0 items
  | JStr s => indexed (fun c => JStr [c]) 0 s
  | _ => []
  end.

(** [{ ...parsedResult, searchReferences, contentType, detectedLanguage }] *)
Definition with_provenance (p : provenance) (parsedResult : json) : json :=
  JObj (obj_set (lit "detectedLanguage") (JStr (detectedLanguage p))
       (obj_set (lit "contentType") (JStr (contentType p))
       (obj_set (lit "searchReferences") (JArr (groundingChunks p))
                (own_props parsedResult)))).

(** [geminiService.ts:1353-1379].  When the validator refuses, the
    message is built from [parsedResult.primary?.length], which throws on
    [null]. *)
Definition gemini_validate (p : provenance) (parsedResult : json)
  : result json :=
  if negb (validateKeywordResult parsedResult) then
    match parsedResult with
    | JNull => Err TypeErrorThrown
    | _ => Err InvalidKeywordCounts
    end
  else Ok (with_provenance p parsedResult).

(** The [try] block of [generateKeywords], from the text of the answer
    on, [geminiService.ts:1271-1379]. *)
Definition generateKeywords_try (p : provenance) (responseText : str)
  : result json :=
  parsedResult <- gemini_parse responseText ;;
  gemini_validate p parsedResult.

(** The [catch] block, [geminiService.ts:1381-1397]: a [SyntaxError]
    becomes one fixed error; an error whose message has [API_KEY],
    [response] or [structure] in it is thrown again, and the messages of
    the empty answer, of the keyword counts and of the fixed error above
    all have [response]; anything else, the [TypeError] among it,
    becomes the generic error. *)
Definition gemini_catch (e : error) : error :=
  match e with
  | NoJsonFound | JsonParseError => FormatInvalid
  | EmptyResponse | InvalidKeywordCounts | FormatInvalid => e
  | TypeErrorThrown | GenericFailure => GenericFailure
  end.

(** [generateKeywords], from the text of the answer on: what it returns
    or throws to its caller. *)
Definition generateKeywords (p : provenance) (responseText : str)
  : result json :=
  match generateKeywords_try p responseText with
  | Ok r => Ok r
  | Err e => Err (gemini_catch e)
  end.

(** *** The OpenAI service *)

(** [openaiService.ts:77-127]: the strategies, then [JSON.parse] on what
    they give. *)
Definition openai_parse (content : str) : result json :=
  match content with
  | [] => Err EmptyResponse
  | _ =>
      jsonText <- extract (trim content) ;;
      parse_json jsonText
  end.

(** The answer of the validator that [openaiService.ts:3] imports.
    [geminiService.ts] exports [generateKeywords] only: the
    [validateKeywordResult] that the OpenAI service is written against
    belongs to a revision of that file which is not among the sources.
    It is a parameter of what follows; all that is taken of it is what
    the call site reads, [isValid] and [errors]. *)
Record validation := {
  isValid : bool;
  errors : list str
}.

(** What [generateKeywordsWithOpenAI] returns: the parsed value, or the
    parsed array with the property [detectedLanguage] set on it. *)
Inductive returned :=
| Returned (v : json)
| ArrayWithLanguage (items : list json) (language : str).

Section OpenAI.

Variable importedValidator : json -> validation.

(** [openaiService.ts:129-153].  After the validation the counts are
    logged, which reads [parsedResult.primary] and throws on [null]; then
    [detectedLanguage] is set when the parsed value has none, which
    throws on a boolean, a number or a string, the file being a
    module and so in strict mode. *)
Definition openai_validate (p : provenance) (parsedResult : json)
  : result returned :=
  let validationResult := importedValidator parsedResult in
  if negb (isValid validationResult) then Err InvalidKeywordCounts
  else
    match parsedResult with
    | JNull => Err TypeErrorThrown
    | JObj fields =>
        if negb (truthy (lookup (lit "detectedLanguage") fields))
        then Ok (Returned (JObj (obj_set (lit "detectedLanguage")
                                         (JStr (detectedLanguage p)) fields)))
        else Ok (Returned parsedResult)
    | JArr items => Ok (ArrayWithLanguage items (detectedLanguage p))
    | JBool _ | JNum _ | JStr _ => Err TypeErrorThrown
    end.

(** The [try] block of [generateKeywordsWithOpenAI], from the text of
    the answer on.  Its [catch] block, [openaiService.ts:155-180], throws
    the same error again unless the message has [API key], [quota] or
    [rate limit] in it. *)
Definition generateKeywordsWithOpenAI (p : provenance) (content : str)
  : result returned :=
  parsedResult <- openai_parse content ;;
  openai_validate p parsedResult.

End OpenAI.

End Parser.
Import Parser.

(* ================================================================== *)
(** ** JavaScript numbers *)
(* ================================================================== *)

Module Number.

(** A number is a binary64 value: 53 bits of precision, infinities at
    the exponent 1024.  The operations round to nearest, ties to
    even. *)
Definition number : Type := spec_float.

Definition prec : Z := 53%Z.
Definition emax : Z := 1024%Z.

Definition num_of_Z (z : Z) : number := binary_normalize prec emax z 0%Z false.

(** The number of a length or a count. *)
Definition num_of_nat (n : nat) : number := num_of_Z (Z.of_nat n).

Definition num_add : number -> number -> number := SFadd prec emax.
Definition num_sub : number -> number -> number := SFsub prec emax.
Definition num_mul : number -> number -> number := SFmul prec emax.
Definition num_div : number -> number -> number := SFdiv prec emax.

(** [a > b] and [a >= b]: false when one of the two is NaN. *)
Definition num_gt (a b : number) : bool := SFltb b a.
Definition num_ge (a b : number) : bool := SFleb b a.

(** The literal [0.35]: the binary64 value nearest to 35/100, which is
    what the rounded quotient of 35 and 100 is. *)
Definition literal_0_35 : number := num_div (num_of_nat 35) (num_of_nat 100).

End Number.
Import Number.

(* ================================================================== *)
(** ** The content extractor of [App.tsx] *)
(* ================================================================== *)

Module Dom.

(** A parsed document: text nodes and elements, with lower-case tag
    names. *)
Inductive node : Type :=
| Text (t : str)
| Element (tag : str) (attrs : list (str * str)) (children : list node).

(** The document given by [DOMParser]: its title and its body element.
    The body has the tag [body], which no selector below names. *)
Record document := {
  doc_title : str;
  body_attrs : list (str * str);
  body_children : list node
}.

Definition doc_body (d : document) : node :=
  Element (lit "body") (body_attrs d) (body_children d).

Fixpoint getAttribute (k : str) (attrs : list (str * str)) : option str :=
  match attrs with
  | [] => None
  | (k', v) :: rest => if str_eqb k k' then Some v else getAttribute k rest
  end.

Definition attr_or_empty (k : string) (n : node) : str :=
  match n with
  | Element _ attrs _ =>
      match getAttribute (lit k) attrs with
      | Some v => v
      | None => []
      end
  | Text _ => []
  end.

Definition className (n : node) : str := attr_or_empty "class" n.
Definition id (n : node) : str := attr_or_empty "id" n.

Definition tagName (n : node) : str :=
  match n with
  | Element tag _ _ => tag
  | Text _ => []
  end.

Fixpoint textContent (n : node) : str :=
  match n with
  | Text t => t
  | Element _ _ children => flat_map textContent children
  end.

(** The document is never rendered: it comes from [DOMParser], and for
    an element that is not rendered [innerText] is [textContent]. *)
Definition innerText (n : node) : str := textContent n.

(** The elements of a subtree in document order, the root first. *)
Fixpoint subtree (n : node) : list node :=
  match n with
  | Text _ => []
  | Element _ _ children => n :: flat_map subtree children
  end.

(** The elements below [n], in document order. *)
Definition descendants (n : node) : list node :=
  match n with
  | Text _ => []
  | Element _ _ children => flat_map subtree children
  end.

(** *** Selectors *)

Definition selector := node -> bool.

Definition has_tag (tags : list string) : selector :=
  fun n => existsb (fun t => str_eqb (tagName n) (lit t)) tags.

(** [tag[attr*="v"]] *)
Definition tag_attr_contains (tag attr v : string) : selector :=
  fun n =>
    match n with
    | Element t attrs _ =>
        str_eqb t (lit tag) &&
        match getAttribute (lit attr) attrs with
        | Some x => includes (lit v) x
        | None => false
        end
    | Text _ => false
    end.

(** [[attr="v"]] *)
Definition attr_is (attr v : string) : selector :=
  fun n =>
    match n with
    | Element _ attrs _ =>
        match getAttribute (lit attr) attrs with
        | Some x => str_eqb x (lit v)
        | None => false
        end
    | Text _ => false
    end.

Definition either (a b : selector) : selector := fun n => a n || b n.

(** [element.querySelectorAll(sel)] *)
Definition querySelectorAll (sel : selector) (n : node) : list node :=
  filter sel (descendants n).

(** [doc.querySelectorAll(sel)], on the elements of the body: the
    parser puts every element the selectors below can name there. *)
Definition doc_querySelectorAll (sel : selector) (d : document) : list node :=
  filter sel (subtree (doc_body d)).

(** *** [App.tsx:129]: removing what is not content *)

Definition sel_noise : selector :=
  either (has_tag ["script"; "style"; "nav"; "header"; "footer"; "aside";
                   "form"; "noscript"; "svg"]%string)
         (attr_is "aria-hidden" "true").

(** Every element the selector names is taken out of its parent. *)
Fixpoint prune (sel : selector) (n : node) : node :=
  match n with
  | Text t => Text t
  | Element tag attrs children =>
      Element tag attrs
        ((fix kept (cs : list node) : list node :=
            match cs with
            | [] => []
            | c :: rest =>
                if sel c then kept rest else prune sel c :: kept rest
            end) children)
  end.

(** The document after the removal; [None] when the body itself went
    away and [doc.body] is [null]. *)
Definition stripNoise (d : document) : option document :=
  if sel_noise (doc_body d) then None
  else
    match prune sel_noise (doc_body d) with
    | Element _ attrs children =>
        Some {| doc_title := doc_title d;
                body_attrs := attrs;
                body_children := children |}
    | Text _ => None
    end.

(** *** [calculateScore], [App.tsx:24-50] *)

(** [/comment|share|related|ad|footer|header|menu|nav|sidebar|promo|social|widget/] *)
Definition re_noise : regex :=
  alts (map (word false)
          ["comment"; "share"; "related"; "ad"; "footer"; "header"; "menu";
           "nav"; "sidebar"; "promo"; "social"; "widget"]%string).

Definition classAndIdString (element : node) : str :=
  toLowerCase (className element ++ lit " " ++ id element).

Definition is_noise (element : node) : bool :=
  test re_noise (classAndIdString element).

(** The score after the loop over [p, li, blockquote, pre]: the trimmed
    lengths above 25, added one after the other to 0. *)
Definition paragraph_score (element : node) : number :=
  fold_left
    (fun score p =>
       match textContent p with
       | [] => score
       | t => if 25 <? length (trim t)
              then num_add score (num_of_nat (length (trim t)))
              else score
       end)
    (querySelectorAll (has_tag ["p"; "li"; "blockquote"; "pre"]%string) element)
    (num_of_nat 0).

(** The number of commas, times 10. *)
Definition comma_score (element : node) : number :=
  num_mul (num_of_nat (count_char (cu ",") (textContent element)))
          (num_of_nat 10).

Definition linkTextLength (element : node) : number :=
  fold_left (fun len a => num_add len (num_of_nat (length (textContent a))))
            (querySelectorAll (has_tag ["a"]%string) element)
            (num_of_nat 0).

(** [element.textContent?.length || 1] *)
Definition totalTextLength (element : node) : number :=
  num_of_nat match length (textContent element) with
             | 0 => 1
             | n => n
             end.

Definition linkDensity (element : node) : number :=
  num_div (linkTextLength element) (totalTextLength element).

Definition calculateScore (element : node) : number :=
  if is_noise element then num_of_Z (-100)
  else
    let score := num_add (paragraph_score element) (comma_score element) in
    if num_gt (linkDensity element) literal_0_35
    then num_mul score (num_sub (num_of_nat 1) (linkDensity element))
    else score.

(** *** [extractCleanText], [App.tsx:56-77] *)

Definition block_tags : list string :=
  ["p"; "h1"; "h2"; "h3"; "h4"; "h5"; "h6"; "li"; "blockquote"; "pre"]%string.

(** The pattern of [App.tsx:76]: a group of one newline and any run of
    white space, three times or more, with the flag [g]. *)
Definition re_blank_lines : regex :=
  three_or_more (Group 1 (Seq (chr NL) (star ws))).

Definition two_newlines : str := [NL; NL].

(** The loop over the tree walker: every element below the root, in
    document order. *)
Definition block_texts (element : node) : str :=
  fold_left
    (fun text el =>
       if has_tag block_tags el then
         match trim (innerText el) with
         | [] => text
         | blockText => text ++ blockText ++ two_newlines
         end
       else text)
    (descendants element) [].

Definition extractCleanText (element : node) : str :=
  replace_all re_blank_lines two_newlines (trim (block_texts element)).

(** *** The fetching half of [handleFetchAndGenerate], [App.tsx:129-161] *)

Inductive fetch_error :=
| ContentTooShort      (* "Article content is too short ..." *)
| BodyMissing.         (* TypeError: [doc.body] is [null] *)

(** [(doc.querySelector('h1')?.innerText || doc.title).trim()] *)
Definition extractTitle (d : document) : str :=
  trim
    match doc_querySelectorAll (has_tag ["h1"]%string) d with
    | h1 :: _ =>
        match innerText h1 with
        | [] => doc_title d
        | t => t
        end
    | [] => doc_title d
    end.

Definition sel_candidates : selector :=
  either (has_tag ["article"; "main"]%string)
 (either (tag_attr_contains "div" "class" "content")
 (either (tag_attr_contains "div" "class" "post")
 (either (tag_attr_contains "div" "id" "content")
         (tag_attr_contains "div" "id" "post")))).

Definition elementsToScore (d : document) : list node :=
  match doc_querySelectorAll sel_candidates d with
  | [] => [doc_body d]
  | candidates => candidates
  end.

(** One round of the [forEach]: the pair is [(bestElement, bestScore)]. *)
Definition consider (best : node * number) (element : node)
  : node * number :=
  let score := calculateScore element in
  if num_gt score (snd best) then (element, score) else best.

Definition selectBest (d : document) : node * number :=
  fold_left consider (elementsToScore d) (doc_body d, num_of_Z (-1)).

Definition bestElement (d : document) : node := fst (selectBest d).

(** [/(\r\n|\n|\r){3,}/gm] *)
Definition re_newlines : regex :=
  three_or_more
    (Group 1 (Alt (Seq (chr CR) (chr NL)) (Alt (chr NL) (chr CR)))).

(** The text handed to the length check, built from the document after
    the removal. *)
Definition fetchedContent (d : document) : str :=
  let title := extractTitle d in
  let best := bestElement d in
  let content := extractCleanText best in
  let content :=
    if length content <? 300 then trim (innerText best) else content in
  let cleanedContent := replace_all re_newlines two_newlines content in
  title ++ two_newlines ++ cleanedContent.

(** From the parsed document to the article text given to the
    generator. *)
Definition extractArticle (d : document) : fetch_error + str :=
  match stripNoise d with
  | None => inl BodyMissing
  | Some d' =>
      let fetched := fetchedContent d' in
      if length (trim fetched) <? 500 then inl ContentTooShort
      else inr fetched
  end.

End Dom.
Import Dom.

(* ================================================================== *)
(** ** Sample data *)
(* ================================================================== *)

Module Samples.

(** A text written with apostrophes for the double quotes of JSON. *)
Definition dq (s : string) : str :=
  map (fun c => if ch_eqb c (cu "'") then DQUOTE else c) (lit s).

Definition kw (term rationale : string) : json :=
  JObj [(lit "term", JStr (lit term)); (lit "rationale", JStr (lit rationale))].

(** The least the current policy accepts: 1, 2 and 3 keywords. *)
Definition minimal_fields : list (str * json) :=
  [ (lit "primary", JArr [kw "gold price" "main topic"]);
    (lit "secondary", JArr [kw "bullion" "market"; kw "taka" "currency"]);
    (lit "longtail", JArr [kw "gold price today" "query";
                           kw "gold price in dhaka" "query";
                           kw "why gold is rising" "query"]);
    (lit "competitorInsights", JStr (lit "x")) ].

Definition minimal : json := JObj minimal_fields.

Definition minimal_text : str :=
  dq ("{'primary':[{'term':'gold price','rationale':'main topic'}]," ++
      "'secondary':[{'term':'bullion','rationale':'market'}," ++
                   "{'term':'taka','rationale':'currency'}]," ++
      "'longtail':[{'term':'gold price today','rationale':'query'}," ++
                  "{'term':'gold price in dhaka','rationale':'query'}," ++
                  "{'term':'why gold is rising','rationale':'query'}]," ++
      "'competitorInsights':'x'}")%string.

(** The same with an optional category whose only item has a blank term. *)
Definition blank_item : json := kw " " "why".

Definition bad_lsi : json :=
  JObj (minimal_fields ++ [(lit "lsiKeywords", JArr [blank_item])]).

Definition bad_lsi_text : str :=
  dq ("{'primary':[{'term':'gold price','rationale':'main topic'}]," ++
      "'secondary':[{'term':'bullion','rationale':'market'}," ++
                   "{'term':'taka','rationale':'currency'}]," ++
      "'longtail':[{'term':'gold price today','rationale':'query'}," ++
                  "{'term':'gold price in dhaka','rationale':'query'}," ++
                  "{'term':'why gold is rising','rationale':'query'}]," ++
      "'competitorInsights':'x'," ++
      "'lsiKeywords':[{'term':' ','rationale':'why'}]}")%string.

Definition sample_provenance : provenance :=
  {| groundingChunks := [];
     contentType := lit "News Article";
     detectedLanguage := lit "english" |}.

(** The page of the scenario: a navigation bar and an article with one
    paragraph. *)
Definition gold_paragraph : node :=
  Element (lit "p") []
    [Text (lit "Gold prices in Bangladesh rose 15% this year, according to analysts.")].

Definition gold_article : node := Element (lit "article") [] [gold_paragraph].

Definition gold_page : document :=
  {| doc_title := [];
     body_attrs := [];
     body_children :=
       [ Element (lit "nav") [(lit "class", lit "nav")] [Text (lit "Menu")];
         gold_article ] |}.

Definition gold_page_stripped : document :=
  {| doc_title := []; body_attrs := []; body_children := [gold_article] |}.

(** The same article with the paragraph eight times over. *)
Definition long_page : document :=
  {| doc_title := lit "Gold";
     body_attrs := [];
     body_children :=
       [ Element (lit "article") [] (repeat gold_paragraph 8) ] |}.

End Samples.
Import Samples.

(* ================================================================== *)
(** ** What the statements speak of *)
(* ================================================================== *)

Module Spec.

(** The field [k] of [item] is a string that is not blank. *)
Definition nonblank_field (item : json) (k : string) : Prop :=
  exists s, prop (Some item) k = Some (JStr s) /\ trim s <> [].

Definition item_nonblank (item : json) : Prop :=
  nonblank_field item "term" /\ nonblank_field item "rationale".

Definition required_categories : list string :=
  ["primary"; "secondary"; "longtail"]%string.

Definition optional_categories : list string :=
  ["lsiKeywords"; "questionKeywords"; "entities"]%string.

(** Every item of the category [k] of [data], when it is an array, has
    a term and a rationale. *)
Definition category_nonblank (data : json) (k : string) : Prop :=
  forall items, prop (Some data) k = Some (JArr items) ->
  forall item, In item items -> item_nonblank item.

(** The term of some item of the category [k] is an empty or blank
    string. *)
Definition has_blank_term (data : json) (k : string) : Prop :=
  exists items item s,
    prop (Some data) k = Some (JArr items) /\ In item items /\
    prop (Some item) "term" = Some (JStr s) /\ trim s = [].

Definition well_formed (pol : count_policy) : Prop :=
  primary_min pol <= primary_max pol /\
  secondary_min pol <= secondary_max pol /\
  longtail_min pol <= longtail_max pol.

(** A category of valid items whose count is on one end of its range. *)
Definition on_boundary (v : jsval) (lo hi : nat) : Prop :=
  exists items, v = Some (JArr items) /\
                forallb valid_item items = true /\
                (length items = lo \/ length items = hi).

(** A valid required category: an array of valid items whose count is
    within its range, the ends included. *)
Definition valid_category (v : jsval) (lo hi : nat) : Prop :=
  exists items, v = Some (JArr items) /\
                forallb valid_item items = true /\
                lo <= length items <= hi.

(** The extraction as the specification words it when the fourth
    strategy is left out: the whole text, a fenced block, the span from
    the first opening to the last closing brace, or the error. *)
Definition extract_three_strategies (jsonText : str) : result str :=
  if startsWith (lit "{") jsonText then Ok jsonText
  else
    match match_and_group1 (search re_code_block jsonText) with
    | Some g => Ok (trim g)
    | None =>
        match search re_object jsonText with
        | Some objectMatch => Ok (m_0 objectMatch)
        | None => Err NoJsonFound
        end
    end.

(** A fenced code block around [j]: three backticks, the tag [json] or
    nothing, white space, [j], white space, three backticks. *)
Definition fence : str := lit "```".

Definition fenced (tagged : bool) (w1 j w2 : str) : str :=
  fence ++ (if tagged then lit "json" else []) ++ w1 ++ j ++ w2 ++ fence.

(** White space, then a fence. *)
Definition fence_after_space (s : str) : bool :=
  startsWith fence (drop_while is_space s).

(** Three newlines in a row, and the number of newlines a text starts
    with. *)
Definition triple_newline : str := [NL; NL; NL].

Definition leading_newlines (s : str) : nat :=
  length (take_while (ch_eqb NL) s).

(** The group of the blank-line pattern: a newline and white space. *)
Definition blank_line : regex := Group 1 (Seq (chr NL) (star ws)).

(** The text is empty or starts with something else than white space. *)
Definition head_not_space (s : str) : Prop :=
  match s with
  | [] => True
  | y :: _ => is_space y = false
  end.

(** The result of a continuation in a match of the text [s0] is the
    text up to the end of the white space that starts at the place where
    the continuation is called. *)
Definition ends_after_space (s0 : str) (k : cont (str * caps)) : Prop :=
  forall u c x, k u c = Some x -> fst x = consumed s0 (drop_while is_space u).

(** The number of characters of a text that are not white space. *)
Definition non_space_length (s : str) : nat :=
  length (filter (fun c => negb (is_space c)) s).

(** The element has a paragraph with more than 25 such characters. *)
Definition has_long_paragraph (c : node) : Prop :=
  exists p, In p (querySelectorAll (has_tag ["p"]%string) c) /\
            25 < non_space_length (textContent p).

End Spec.
Import Spec.

(* ================================================================== *)
(** ** Language and content type of the article, [geminiService.ts] *)
(* ================================================================== *)

Module Language.

(** [s.match(r)] with the flag [g]: the matched texts from left to
    right.  After a match of [n > 0] characters the scan goes on behind
    it; after an empty match it moves by one. *)
Fixpoint matches_go (r : regex) (s : str) (skip : nat) {struct s}
  : list str :=
  match skip with
  | S k =>
      match s with
      | [] => []
      | _ :: t => matches_go r t k
      end
  | 0 =>
      match match_at r s with
      | Some (x :: m0, _) =>
          (x :: m0) :: match s with
                       | [] => []
                       | _ :: t => matches_go r t (length m0)
                       end
      | Some ([], _) =>
          [] :: match s with
                | [] => []
                | _ :: t => matches_go r t 0
                end
      | None =>
          match s with
          | [] => []
          | _ :: t => matches_go r t 0
          end
      end
  end.

(** The result is [null] when nothing matches. *)
Definition match_g (r : regex) (s : str) : option (list str) :=
  match matches_go r s 0 with
  | [] => None
  | l => Some l
  end.

Inductive language := English | Bangla | Mixed.

Definition language_name (l : language) : str :=
  match l with
  | English => lit "english"
  | Bangla => lit "bangla"
  | Mixed => lit "mixed"
  end.

(** The class of the code units U+0980 to U+09FF. *)
Definition is_bangla (c : char) : bool := between 2432%N 2559%N c.

(** [[a-zA-Z]] *)
Definition is_latin_letter (c : char) : bool :=
  between 97%N 122%N c || between 65%N 90%N c.

Definition banglaPattern : regex := Chr is_bangla.
Definition englishPattern : regex := Chr is_latin_letter.

(** [(content.match(banglaPattern, g) || []).length] *)
Definition banglaChars (content : str) : nat :=
  length match match_g banglaPattern content with
         | Some l => l
         | None => []
         end.

(** [content.replace(/\s/g, '').length] *)
Definition totalChars (content : str) : nat :=
  length (replace_all ws [] content).

Definition Qgtb (a b : Q) : bool := negb (Qle_bool a b).

(** The percentage as an exact rational.  The source computes it in
    binary floating point and compares it with 60 and 20; the two
    quotients 3/5 and 1/5 give exactly 60 and 20 there, and any other
    quotient of two lengths is further from them than the rounding. *)
Definition banglaPercentage (content : str) : Q :=
  if 0 <? totalChars content
  then Qmult (Qmake (Z.of_nat (banglaChars content))
                    (Pos.of_nat (totalChars content)))
             (inject_Z 100)
  else inject_Z 0.

(** [geminiService.ts:15-35] *)
Definition detectLanguage (content : str) : language :=
  let hasBangla := test banglaPattern content in
  let hasEnglish := test englishPattern content in
  if Qgtb (banglaPercentage content) (inject_Z 60) then Bangla
  else if hasBangla && hasEnglish &&
          Qgtb (banglaPercentage content) (inject_Z 20)
  then Mixed
  else English.

Definition General : str := lit "General".

Definition validTypes : list str :=
  [lit "News Article"; lit "Business Article"; lit "Press Release"; General].

(** [geminiService.ts:106-139], from the answer of the classifier on.
    [None] stands for a call that throws, [Some None] for an answer
    whose [text] is [undefined]. *)
Definition detectContentType (response : option (option str)) : str :=
  match response with
  | Some text =>
      let contentType :=
        match text with
        | Some t =>
            match trim t with
            | [] => General
            | trimmed => trimmed
            end
        | None => General
        end in
      if existsb (str_eqb contentType) validTypes then contentType
      else General
  | None => General
  end.

End Language.
Import Language.

(* ================================================================== *)
(** ** The keyword pill of [components/KeywordCard.tsx] *)
(* ================================================================== *)

Module Card.

Definition MAX_LENGTH : nat := 50.

Definition isTruncated (displayTerm : str) : bool :=
  MAX_LENGTH <? length displayTerm.

(** What the pill shows of a term. *)
Definition displayText (displayTerm : str) : str :=
  if isTruncated displayTerm
  then substring0 MAX_LENGTH displayTerm ++ lit "..."
  else displayTerm.

End Card.
Import Card.

(* ================================================================== *)
(** ** The manual submission of [App.tsx] *)
(* ================================================================== *)

Module Submit.

Inductive submit_error :=
| NoDraft          (* "Please paste or fetch your article draft ..." *)
| DraftTooShort.   (* "Article content is too short ..." *)

(** The two checks of [handleSubmit] before the generator is called,
    [App.tsx:191-201]. *)
Definition submit_check (articleContent : str) : option submit_error :=
  match trim articleContent with
  | [] => Some NoDraft
  | t => if length t <? 500 then Some DraftTooShort else None
  end.

End Submit.
Import Submit.

(* ================================================================== *)
(** ** Further notions for the statements *)
(* ================================================================== *)

Module Measures.

(** Every range of [p] lies within the range of [q]. *)
Definition policy_within (p q : count_policy) : Prop :=
  primary_min q <= primary_min p /\ primary_max p <= primary_max q /\
  secondary_min q <= secondary_min p /\ secondary_max p <= secondary_max q /\
  longtail_min q <= longtail_min p /\ longtail_max p <= longtail_max q.

Definition required_fields : list string :=
  ["primary"; "secondary"; "longtail"; "competitorInsights"]%string.

(** Two objects with the same four required properties. *)
Definition same_required (f g : list (str * json)) : Prop :=
  forall k, In k required_fields -> lookup (lit k) f = lookup (lit k) g.

(** The names that [generateKeywords] sets on its result. *)
Definition provenance_fields : list string :=
  ["searchReferences"; "contentType"; "detectedLanguage"]%string.

(** A carriage return or a line feed, and the number of them a text
    starts with. *)
Definition is_break (c : char) : bool := ch_eqb c CR || ch_eqb c NL.

Definition leading_breaks (s : str) : nat :=
  length (take_while is_break s).

(** Some place of the text starts three line breaks or more. *)
Fixpoint has_three_breaks (s : str) : bool :=
  match s with
  | [] => false
  | _ :: t => (3 <=? leading_breaks s) || has_three_breaks t
  end.

(** The group of the pattern of [App.tsx:154]. *)
Definition break_token : regex :=
  Group 1 (Alt (Seq (chr CR) (chr NL)) (Alt (chr NL) (chr CR))).

(** The result of a continuation in a match of the text [s0] is the
    text up to the end of the line breaks that start at the place where
    the continuation is called. *)
Definition ends_after_breaks (s0 : str) (k : cont (str * caps)) : Prop :=
  forall u c x, k u c = Some x -> fst x = consumed s0 (drop_while is_break u).

(** The text has none of the characters that [p] names. *)
Definition free_of (p : char -> bool) (s : str) : Prop :=
  forallb (fun c => negb (p c)) s = true.

End Measures.
Import Measures.

(* ================================================================== *)
(** ** Further sample data *)
(* ================================================================== *)

Module MoreSamples.

(** An answer within the ranges of the oldest revision: 3, 8 and 10
    keywords. *)
Definition strict_sample : json :=
  JObj [ (lit "primary", JArr (repeat (kw "gold price" "main topic") 3));
         (lit "secondary", JArr (repeat (kw "bullion" "market") 8));
         (lit "longtail", JArr (repeat (kw "gold price today" "query") 10));
         (lit "competitorInsights", JStr (lit "x")) ].

Definition minimal_result : json := with_provenance sample_provenance minimal.

(** A validator for the OpenAI service that says yes to everything. *)
Definition accepting_validator (v : json) : validation :=
  {| isValid := true; errors := [] |}.


(** An answer within the ranges of the current revision, with the
    greatest count of [primary] and counts inside the other two ranges:
    10, 5 and 7 keywords. *)
Definition interior_fields : list (str * json) :=
  [ (lit "primary", JArr (repeat (kw "gold price" "main topic") 10));
    (lit "secondary", JArr (repeat (kw "bullion" "market") 5));
    (lit "longtail", JArr (repeat (kw "gold price today" "query") 7));
    (lit "competitorInsights", JStr (lit "x")) ].

End MoreSamples.
Import MoreSamples.

(* ================================================================== *)
(** ** The noise vocabulary and further documents *)
(* ================================================================== *)

Module Vocabulary.

(** The words of the pattern in [calculateScore]. *)
Definition noise_words : list string :=
  ["comment"; "share"; "related"; "ad"; "footer"; "header"; "menu";
   "nav"; "sidebar"; "promo"; "social"; "widget"]%string.

(** A page whose only candidate has a class with [ad] inside a word. *)
Definition shadow_article : node :=
  Element (lit "article") [(lit "class", lit "Shadow-box")] [gold_paragraph].

Definition shadow_page : document :=
  {| doc_title := []; body_attrs := []; body_children := [shadow_article] |}.

(** A page with two candidates: a block whose class names the content
    and the sidebar, which is noise, and the article of the scenario. *)
Definition sidebar_block : node :=
  Element (lit "div") [(lit "class", lit "content sidebar")]
    (repeat gold_paragraph 3).

Definition mixed_page : document :=
  {| doc_title := [];
     body_attrs := [];
     body_children := [sidebar_block; gold_article] |}.





End Vocabulary.
Import Vocabulary.

(* ================================================================== *)
(** * Properties *)
(* ================================================================== *)

Unset Implicit Arguments.

(** ** The validator *)

Section ValidatorFacts.

Lemma fst_bind {A B} (x : logged A) (f : A -> logged B) :
  fst (Validator.bind x f) = fst (f (fst x)).
Proof.
  unfold Validator.bind. destruct x as [a l1]. simpl.
  destruct (f a) as [b l2]. reflexivity.
Qed.

Lemma validateKeywordArray_answer arr lo hi name required :
  fst (validateKeywordArray arr lo hi name required) =
  array_ok arr lo hi required.
Proof.
  unfold validateKeywordArray, array_ok.
  destruct arr as [[ | | | | items | ] | ]; try (destruct required; reflexivity).
  destruct (Nat.ltb_spec (length items) lo) as [Hlo | Hlo]; simpl.
  - apply Nat.leb_gt in Hlo. rewrite Hlo. reflexivity.
  - apply Nat.leb_le in Hlo. rewrite Hlo. simpl.
    destruct (Nat.ltb_spec hi (length items)) as [Hhi | Hhi]; simpl.
    + apply Nat.leb_gt in Hhi. rewrite Hhi. reflexivity.
    + apply Nat.leb_le in Hhi. rewrite Hhi. simpl.
      destruct (forallb valid_item items); reflexivity.
Qed.

Lemma fst_and_then (a b : logged bool) :
  fst (Validator.and_then a b) = fst a && fst b.
Proof.
  unfold Validator.and_then. rewrite fst_bind.
  destruct (fst a); reflexivity.
Qed.

(** The answer of the validator is the answer of the required checks:
    the optional ones only write to the console. *)
Lemma validateKeywordResultWith_answer pol data :
  validateKeywordResultWith pol data =
  truthy (Some data) && jstype_eqb (typeof (Some data)) TObject &&
  core_ok pol (Some data).
Proof.
  unfold validateKeywordResultWith, validateKeywordResult_run.
  destruct (truthy (Some data)); cbn [negb orb andb]; [ | reflexivity ].
  destruct (jstype_eqb (typeof (Some data)) TObject); cbn [negb orb andb];
    [ | reflexivity ].
  rewrite fst_bind.
  rewrite !fst_and_then, !validateKeywordArray_answer. cbn [fst Validator.ret].
  fold (core_ok pol (Some data)).
  destruct (core_ok pol (Some data)); cbn [negb]; [ | reflexivity ].
  rewrite !fst_bind. reflexivity.
Qed.

Lemma array_ok_required arr lo hi :
  array_ok arr lo hi true = true ->
  exists items, arr = Some (JArr items) /\
                lo <= length items <= hi /\
                forallb valid_item items = true.
Proof.
  unfold array_ok.
  destruct arr as [[ | | | | items | ] | ]; try discriminate.
  intros H. apply andb_prop in H as [H Hall]. apply andb_prop in H as [Hlo Hhi].
  apply Nat.leb_le in Hlo, Hhi. exists items. auto.
Qed.

(** An accepted value is a plain object. *)
Lemma accepted_is_object pol data :
  validateKeywordResultWith pol data = true -> exists fields, data = JObj fields.
Proof.
  rewrite validateKeywordResultWith_answer. intros H.
  apply andb_prop in H as [H Hcore]. apply andb_prop in H as [_ Hty].
  unfold core_ok in Hcore. apply andb_prop in Hcore as [Hp _].
  apply array_ok_required in Hp as (items & Hp & _).
  destruct data; simpl in Hp; try discriminate. eauto.
Qed.

End ValidatorFacts.

Section ValidatorClaims.

Lemma nonblank_string_spec v :
  nonblank_string v = true <-> exists s, v = Some (JStr s) /\ trim s <> [].
Proof.
  unfold nonblank_string. split.
  - destruct v as [[ | | | s | | ] | ]; try discriminate.
    intros H. apply Nat.ltb_lt in H. exists s. split; [ reflexivity | ].
    intros E. rewrite E in H. simpl in H. lia.
  - intros (s & -> & Hs). apply Nat.ltb_lt.
    destruct (trim s); [ congruence | simpl; lia ].
Qed.

Lemma valid_item_nonblank item :
  valid_item item = true -> item_nonblank item.
Proof.
  unfold valid_item. intros H.
  apply andb_prop in H as [H Hr]. apply andb_prop in H as [_ Ht].
  split; apply nonblank_string_spec; assumption.
Qed.

Lemma array_ok_valid_category v lo hi :
  array_ok v lo hi true = true <-> valid_category v lo hi.
Proof.
  split.
  - intros H. apply array_ok_required in H as (items & E & Hlen & Hall).
    exists items. auto.
  - intros (items & -> & Hall & [H1 H2]). unfold array_ok. rewrite Hall.
    apply Nat.leb_le in H1, H2. rewrite H1, H2. reflexivity.
Qed.

Lemma on_boundary_valid v lo hi :
  lo <= hi -> on_boundary v lo hi -> valid_category v lo hi.
Proof.
  intros Hle (items & E & Hall & Hlen). exists items.
  split; [ exact E | split; [ exact Hall | lia ] ].
Qed.

Lemma accepted_iff_valid pol fields :
  validateKeywordResultWith pol (JObj fields) = true <->
  valid_category (prop (Some (JObj fields)) "primary")
                 (primary_min pol) (primary_max pol) /\
  valid_category (prop (Some (JObj fields)) "secondary")
                 (secondary_min pol) (secondary_max pol) /\
  valid_category (prop (Some (JObj fields)) "longtail")
                 (longtail_min pol) (longtail_max pol) /\
  nonblank_string (prop (Some (JObj fields)) "competitorInsights") = true.
Proof.
  rewrite validateKeywordResultWith_answer. unfold core_ok.
  cbn [truthy typeof jstype_eqb andb].
  rewrite !andb_true_iff, !array_ok_valid_category. tauto.
Qed.

(** C6. With a minimum of at least one, an empty [primary] array is
    refused whatever the rest of the object.  An object is accepted
    exactly when its three required categories are arrays of valid
    items with a count within their range and [competitorInsights] is
    not blank.  The ranges include both ends: a category whose count is
    its minimum or its maximum is accepted whenever the other required
    fields are valid, whatever their counts within their ranges. *)
Theorem validate_count_boundaries :
  forall (pol : count_policy) (fields : list (str * json)),
    1 <= primary_min pol ->
    well_formed pol ->
    (forall data, prop (Some data) "primary" = Some (JArr []) ->
                  validateKeywordResultWith pol data = false) /\
    (validateKeywordResultWith pol (JObj fields) = true <->
     valid_category (prop (Some (JObj fields)) "primary")
                    (primary_min pol) (primary_max pol) /\
     valid_category (prop (Some (JObj fields)) "secondary")
                    (secondary_min pol) (secondary_max pol) /\
     valid_category (prop (Some (JObj fields)) "longtail")
                    (longtail_min pol) (longtail_max pol) /\
     nonblank_string (prop (Some (JObj fields)) "competitorInsights") = true) /\
    (nonblank_string (prop (Some (JObj fields)) "competitorInsights") = true ->
     (on_boundary (prop (Some (JObj fields)) "primary")
                  (primary_min pol) (primary_max pol) ->
      valid_category (prop (Some (JObj fields)) "secondary")
                     (secondary_min pol) (secondary_max pol) ->
      valid_category (prop (Some (JObj fields)) "longtail")
                     (longtail_min pol) (longtail_max pol) ->
      validateKeywordResultWith pol (JObj fields) = true) /\
     (valid_category (prop (Some (JObj fields)) "primary")
                     (primary_min pol) (primary_max pol) ->
      on_boundary (prop (Some (JObj fields)) "secondary")
                  (secondary_min pol) (secondary_max pol) ->
      valid_category (prop (Some (JObj fields)) "longtail")
                     (longtail_min pol) (longtail_max pol) ->
      validateKeywordResultWith pol (JObj fields) = true) /\
     (valid_category (prop (Some (JObj fields)) "primary")
                     (primary_min pol) (primary_max pol) ->
      valid_category (prop (Some (JObj fields)) "secondary")
                     (secondary_min pol) (secondary_max pol) ->
      on_boundary (prop (Some (JObj fields)) "longtail")
                  (longtail_min pol) (longtail_max pol) ->
      validateKeywordResultWith pol (JObj fields) = true)).
Proof.
  intros pol fields Hmin (Hp & Hs & Hl). split; [ | split ].
  - intros data Hprim. rewrite validateKeywordResultWith_answer.
    unfold core_ok. rewrite Hprim. unfold array_ok at 1.
    replace (primary_min pol <=? length (@nil json)) with false.
    + cbn [andb]. rewrite !andb_false_r. reflexivity.
    + symmetry. apply Nat.leb_gt. simpl. lia.
  - apply accepted_iff_valid.
  - intros Hci. split; [ | split ]; intros B1 B2 B3;
      apply accepted_iff_valid; auto 6 using on_boundary_valid.
Qed.

Lemma validate_count_boundaries_witness :
  1 <= primary_min policy_flexible /\
  well_formed policy_flexible /\
  validateKeywordResult (JObj [(lit "primary", JArr [])]) = false /\
  validateKeywordResult (JObj interior_fields) = true /\
  validateKeywordResult minimal = true.
Proof.
  assert (H1 : 1 <= primary_min policy_flexible) by (simpl; lia).
  assert (H2 : well_formed policy_flexible) by (unfold well_formed; simpl; lia).
  destruct (validate_count_boundaries policy_flexible interior_fields H1 H2)
    as (Hrej & _ & Hacc).
  destruct (validate_count_boundaries policy_flexible minimal_fields H1 H2)
    as (_ & _ & Hmin).
  split; [ exact H1 | split; [ exact H2 | split; [ | split ] ] ].
  - apply Hrej. reflexivity.
  - apply (proj1 (Hacc eq_refl)).
    + eexists. split; [ reflexivity | split; [ reflexivity | right; reflexivity ] ].
    + eexists. split; [ reflexivity | split; [ reflexivity | simpl; lia ] ].
    + eexists. split; [ reflexivity | split; [ reflexivity | simpl; lia ] ].
  - apply (proj2 (proj2 (Hmin eq_refl))).
    + eexists. split; [ reflexivity | split; [ reflexivity | simpl; lia ] ].
    + eexists. split; [ reflexivity | split; [ reflexivity | simpl; lia ] ].
    + eexists. split; [ reflexivity | split; [ reflexivity | left; reflexivity ] ].
Defined.

(** The three policies of the repository on the least object that the
    current one accepts. *)
Example policies_on_minimal :
  validateKeywordResultWith policy_flexible minimal = true /\
  validateKeywordResultWith policy_modern minimal = false /\
  validateKeywordResultWith policy_strict minimal = false.
Proof. repeat split; reflexivity. Qed.

Lemma accepted_category pol data k :
  In k required_categories ->
  validateKeywordResultWith pol data = true ->
  exists items, prop (Some data) k = Some (JArr items) /\
                forallb valid_item items = true.
Proof.
  intros Hk. rewrite validateKeywordResultWith_answer. intros H.
  apply andb_prop in H as [_ Hcore]. unfold core_ok in Hcore.
  apply andb_prop in Hcore as [Hp Hcore].
  apply andb_prop in Hcore as [Hs Hcore].
  apply andb_prop in Hcore as [Hl _].
  apply array_ok_required in Hp as (ip & Hp & _ & Hpa).
  apply array_ok_required in Hs as (isec & Hs & _ & Hsa).
  apply array_ok_required in Hl as (il & Hl & _ & Hla).
  simpl in Hk. destruct Hk as [<- | [<- | [<- | []]]]; eauto.
Qed.

(** C3, as the code has it. An accepted object has its three required
    categories, and every item of them has a term and a rationale that
    are strings with something other than white space in them; an object
    with a blank term in a required category is refused as a whole. *)
Theorem accepted_required_nonblank :
  forall (pol : count_policy) (data : json) (k : string),
    In k required_categories ->
    (validateKeywordResultWith pol data = true ->
     (exists items, prop (Some data) k = Some (JArr items)) /\
     category_nonblank data k) /\
    (has_blank_term data k -> validateKeywordResultWith pol data = false).
Proof.
  intros pol data k Hk.
  assert (Hacc : validateKeywordResultWith pol data = true ->
                 (exists items, prop (Some data) k = Some (JArr items)) /\
                 category_nonblank data k).
  { intros H. destruct (accepted_category pol data k Hk H) as (items & Hi & Hall).
    split; [ eauto | ].
    intros items' Hi' item Hin. rewrite Hi in Hi'. injection Hi' as <-.
    apply valid_item_nonblank.
    rewrite forallb_forall in Hall. auto. }
  split; [ exact Hacc | ].
  intros (items & item & s & Hi & Hin & Ht & Hblank).
  destruct (validateKeywordResultWith pol data) eqn:E; [ | reflexivity ].
  destruct (Hacc eq_refl) as [_ Hnb].
  destruct (Hnb items Hi item Hin) as [(s' & Ht' & Hs') _].
  rewrite Ht in Ht'. injection Ht' as <-. contradiction.
Qed.

Lemma accepted_required_nonblank_witness :
  In "primary"%string required_categories /\
  validateKeywordResult minimal = true /\
  category_nonblank minimal "primary".
Proof.
  assert (Hk : In "primary"%string required_categories) by (left; reflexivity).
  split; [ exact Hk | split; [ reflexivity | ] ].
  apply (accepted_required_nonblank policy_flexible minimal "primary" Hk).
  reflexivity.
Defined.

(** C3, as stated, fails: an object is accepted although the only item
    of its [lsiKeywords] has a blank term. *)
Lemma accepted_with_blank_optional_term :
  validateKeywordResult bad_lsi = true /\
  has_blank_term bad_lsi "lsiKeywords" /\
  ~ category_nonblank bad_lsi "lsiKeywords".
Proof.
  split; [ reflexivity | ].
  assert (Hb : has_blank_term bad_lsi "lsiKeywords").
  { exists [blank_item], blank_item, (lit " ").
    repeat split; try reflexivity. left; reflexivity. }
  split; [ exact Hb | ].
  intros Hn.
  destruct (Hn [blank_item] eq_refl blank_item (or_introl eq_refl))
    as [(s & Hs & Hne) _].
  injection Hs as <-. apply Hne. reflexivity.
Qed.

End ValidatorClaims.

(** ** What [generateKeywords] returns *)

Section ResultFacts.

Lemma ch_eqb_eq a b : ch_eqb a b = true <-> a = b.
Proof. apply N.eqb_eq. Qed.

Lemma str_eqb_eq a b : str_eqb a b = true <-> a = b.
Proof.
  revert b. induction a as [ | x a IH]; intros [ | y b]; simpl;
    try (split; [ reflexivity || discriminate | reflexivity || discriminate ]).
  rewrite andb_true_iff, ch_eqb_eq, IH. split.
  - intros [-> ->]. reflexivity.
  - intros E. injection E as -> ->. auto.
Qed.

Lemma lookup_obj_set_other k k' v fields :
  str_eqb k k' = false ->
  lookup k (obj_set k' v fields) = lookup k fields.
Proof.
  intros Hne. induction fields as [ | [k0 v0] rest IH]; simpl.
  - rewrite Hne. reflexivity.
  - destruct (str_eqb k' k0) eqn:E; simpl.
    + apply str_eqb_eq in E as <-. rewrite Hne. reflexivity.
    + rewrite IH. reflexivity.
Qed.

(** The three optional categories of the parsed object reach the result
    as they are: nothing on the way from the validator to the [return]
    takes one out. *)
Lemma optional_categories_kept p fields k :
  In k optional_categories ->
  prop (Some (with_provenance p (JObj fields))) k = prop (Some (JObj fields)) k.
Proof.
  intros Hk. unfold with_provenance, prop, own_props.
  simpl in Hk. destruct Hk as [<- | [<- | [<- | []]]];
    rewrite !lookup_obj_set_other; reflexivity.
Qed.

(** C2, on the code. The answer below has valid required categories and
    an [lsiKeywords] array whose only item has a blank term. The
    validator accepts it and writes that the category "will be ignored";
    the object that [generateKeywords] returns still has the category,
    with the blank item in it. *)
Theorem invalid_optional_category_is_returned :
  validateKeywordResult bad_lsi = true /\
  In (ConsoleWarn "LSI keywords present but invalid - will be ignored")
     (validation_log bad_lsi) /\
  exists r,
    generateKeywords sample_provenance bad_lsi_text = Ok r /\
    prop (Some r) "lsiKeywords" = Some (JArr [blank_item]).
Proof.
  split; [ reflexivity | split ].
  - vm_compute. auto.
  - eexists. split; [ vm_compute; reflexivity | vm_compute; reflexivity ].
Qed.

End ResultFacts.

(** ** The matcher and the language of a regular expression *)

Section MatcherFacts.

Variable R : Type.

Lemma orelse_some (a b : option R) x :
  orelse a b = Some x -> a = Some x \/ (a = None /\ b = Some x).
Proof. destruct a; simpl; intros H; [ left | right ]; auto. Qed.

Lemma orelse_left (a b : option R) : a <> None -> orelse a b <> None.
Proof. destruct a; simpl; [ discriminate | congruence ]. Qed.

Lemma orelse_right (a b : option R) : b <> None -> orelse a b <> None.
Proof. destruct a; simpl; [ discriminate | auto ]. Qed.

(** The iterations of a star read a word of the starred language when
    each iteration reads a word of the body's. *)
Lemma star_loop_sound (P : str -> Prop) g
    (body : str -> caps -> cont R -> option R) (k : cont R) :
  (forall s c k' x, body s c k' = Some x ->
     exists s1 s2 c', s = s1 ++ s2 /\ P s1 /\ k' s2 c' = Some x) ->
  forall n s c x,
    star_loop g body k n s c = Some x ->
    exists s1 s2 c', s = s1 ++ s2 /\ star_lang P s1 /\ k s2 c' = Some x.
Proof.
  intros Hbody. induction n as [ | n IH]; intros s c x H.
  - exists [], s, c. simpl in H.
    destruct g; simpl in H; [ | apply orelse_some in H as [H | [_ H]];
                                [ | discriminate ] ];
      repeat split; auto using star_nil.
  - assert (Hagain :
      body s c (fun s' c' =>
        if length s' <? length s then star_loop g body k n s' c' else None)
      = Some x ->
      exists s1 s2 c', s = s1 ++ s2 /\ star_lang P s1 /\ k s2 c' = Some x).
    { intros Hb. apply Hbody in Hb as (s1 & s' & c' & -> & Hs1 & Hk).
      destruct (Nat.ltb_spec (length s') (length (s1 ++ s'))) as [Hlt | Hge];
        [ | discriminate ].
      apply IH in Hk as (s2 & s3 & c'' & -> & Hs2 & Hk).
      exists (s1 ++ s2), s3, c''. rewrite <- app_assoc.
      repeat split; auto.
      apply star_cons; auto.
      intros ->. simpl in Hlt. lia. }
    assert (Hstop : k s c = Some x ->
      exists s1 s2 c', s = s1 ++ s2 /\ star_lang P s1 /\ k s2 c' = Some x).
    { intros Hk. exists [], s, c. repeat split; auto using star_nil. }
    simpl in H. destruct g; apply orelse_some in H as [H | [_ H]]; auto.
Qed.

(** Soundness: a successful run splits the text into a word of the
    language and a rest that the continuation accepts. *)
Lemma run_sound r :
  forall s c (k : cont R) x,
    run r s c k = Some x ->
    exists s1 s2 c', s = s1 ++ s2 /\ lang r s1 /\ k s2 c' = Some x.
Proof.
  induction r as [ | p | a IHa b IHb | a IHa b IHb | g a IHa | n a IHa ];
    intros s c k x H; simpl in H.
  - exists [], s, c. simpl. auto.
  - destruct s as [ | y t]; [ discriminate | ].
    destruct (p y) eqn:Hp; [ | discriminate ].
    exists [y], t, c. simpl. eauto.
  - apply IHa in H as (s1 & s' & c' & -> & H1 & H).
    apply IHb in H as (s2 & s3 & c'' & -> & H2 & H).
    exists (s1 ++ s2), s3, c''. rewrite <- app_assoc.
    repeat split; auto. simpl. eauto.
  - apply orelse_some in H as [H | [_ H]].
    + apply IHa in H as (s1 & s2 & c' & -> & H1 & H).
      exists s1, s2, c'. simpl. auto.
    + apply IHb in H as (s1 & s2 & c' & -> & H1 & H).
      exists s1, s2, c'. simpl. auto.
  - apply (star_loop_sound (lang a)) in H; auto.
  - apply IHa in H as (s1 & s2 & c' & -> & H1 & H).
    exists s1, s2, ((n, consumed (s1 ++ s2) s2) :: c'). simpl. auto.
Qed.

Lemma star_loop_complete (P : str -> Prop) g
    (body : str -> caps -> cont R -> option R) (k : cont R) s2 :
  (forall s1 s' (k' : cont R), P s1 -> (forall c, k' s' c <> None) ->
     forall c, body (s1 ++ s') c k' <> None) ->
  (forall c, k s2 c <> None) ->
  forall s1, star_lang P s1 ->
  forall n c, length (s1 ++ s2) <= n ->
    star_loop g body k n (s1 ++ s2) c <> None.
Proof.
  intros Hbody Hk s1 Hs1.
  induction Hs1 as [ | p rest Hp Hne Hrest IH]; intros n c Hn.
  - simpl app. destruct n; simpl; destruct g;
      auto using orelse_left, orelse_right.
  - destruct n as [ | n].
    { destruct p; [ congruence | simpl in Hn; lia ]. }
    assert (Hagain :
      body ((p ++ rest) ++ s2) c (fun s' c' =>
        if length s' <? length ((p ++ rest) ++ s2)
        then star_loop g body k n s' c' else None) <> None).
    { rewrite <- app_assoc. apply Hbody; auto.
      intros c'.
      assert (Hlt : length (rest ++ s2) < length (p ++ rest ++ s2)).
      { rewrite (length_app p). destruct p; [ congruence | simpl; lia ]. }
      apply Nat.ltb_lt in Hlt. rewrite Hlt.
      apply IH. apply Nat.ltb_lt in Hlt.
      rewrite <- app_assoc in Hn. lia. }
    simpl. destruct g; auto using orelse_left, orelse_right.
Qed.

(** Completeness: the run succeeds on a word of the language followed by
    a rest that the continuation accepts whatever the captures are. *)
Lemma run_complete r :
  forall s1 s2 (k : cont R),
    lang r s1 -> (forall c, k s2 c <> None) ->
    forall c, run r (s1 ++ s2) c k <> None.
Proof.
  induction r as [ | p | a IHa b IHb | a IHa b IHb | g a IHa | n a IHa ];
    intros s1 s2 k H Hk c; simpl in H; simpl run.
  - subst s1. apply Hk.
  - destruct H as (x & -> & Hp). simpl. rewrite Hp. apply Hk.
  - destruct H as (u & v & -> & Hu & Hv). rewrite <- app_assoc.
    apply IHa; [ exact Hu | intros c'; apply IHb; auto ].
  - destruct H as [H | H].
    + apply orelse_left. apply IHa; auto.
    + apply orelse_right. apply IHb; auto.
  - apply (star_loop_complete (lang a)); auto.
  - apply IHa; auto.
Qed.

End MatcherFacts.

Section SearchFacts.

Lemma match_at_some_lang r s m0 c :
  match_at r s = Some (m0, c) ->
  exists rest, s = m0 ++ rest /\ lang r m0.
Proof.
  unfold match_at. intros H.
  apply run_sound in H as (s1 & s2 & c' & -> & Hl & Hacc).
  unfold accept, consumed in Hacc. injection Hacc as <- _.
  rewrite length_app, Nat.add_sub, firstn_app, Nat.sub_diag, firstn_all.
  simpl. rewrite app_nil_r. eauto.
Qed.

Lemma match_at_complete r s1 s2 :
  lang r s1 -> match_at r (s1 ++ s2) <> None.
Proof.
  intros H. unfold match_at. apply run_complete; auto.
  intros c. unfold accept. discriminate.
Qed.

Lemma search_from_some r s :
  forall i m, search_from r i s = Some m ->
  exists a b, s = a ++ m_0 m ++ b /\ lang r (m_0 m) /\
              match_at r (m_0 m ++ b) = Some (m_0 m, m_caps m).
Proof.
  induction s as [ | x t IH]; intros i m H; simpl in H.
  - destruct (match_at r []) as [[m0 c] | ] eqn:E; [ | discriminate ].
    injection H as <-. simpl.
    destruct (match_at_some_lang _ _ _ _ E) as (rest & Hs & Hl).
    exists [], rest. simpl. rewrite <- Hs. auto.
  - destruct (match_at r (x :: t)) as [[m0 c] | ] eqn:E.
    + injection H as <-. simpl.
      destruct (match_at_some_lang _ _ _ _ E) as (rest & Hs & Hl).
      exists [], rest. simpl. rewrite <- Hs. auto.
    + apply IH in H as (a & b & -> & Hl & Hm).
      exists (x :: a), b. auto.
Qed.

Lemma search_from_complete r a b c :
  lang r b -> forall i, search_from r i (a ++ b ++ c) <> None.
Proof.
  intros Hl. induction a as [ | x a IH]; intros i.
  - simpl app.
    pose proof (match_at_complete r b c Hl) as Hm.
    destruct (b ++ c); simpl; destruct (match_at r _) as [[m0 cs] | ];
      congruence.
  - simpl. destruct (match_at r _) as [[m0 cs] | ]; [ discriminate | apply IH ].
Qed.

(** A search finds something exactly when some piece of the text is in
    the language. *)
Theorem search_some_iff r s :
  search r s <> None <-> exists a b c, s = a ++ b ++ c /\ lang r b.
Proof.
  unfold search. split.
  - destruct (search_from r 0 s) as [m | ] eqn:E; [ intros _ | congruence ].
    apply search_from_some in E as (a & b & Hs & Hl & _). eauto.
  - intros (a & b & c & -> & Hl). apply search_from_complete; auto.
Qed.

End SearchFacts.

(** ** The extraction strategies *)

Section StrategyFacts.

Lemma upper_fixes (c : char) x :
  upper c = c -> (c < 65 \/ 90 < c)%N -> (c < 192 \/ 222 < c)%N ->
  ch_eqb (upper x) (upper c) = true -> x = c.
Proof.
  intros Hc H1 H2 H. rewrite Hc in H. apply ch_eqb_eq in H.
  unfold upper, between, ch_eqb in H.
  repeat match type of H with
         | context [N.leb ?a ?b] => destruct (N.leb_spec a b)
         | context [N.eqb ?a ?b] => destruct (N.eqb_spec a b)
         end; simpl in H; lia.
Qed.

Lemma chr_i_brace_open x :
  ch_eqb (upper x) (upper (cu "{")) = true -> x = cu "{".
Proof. apply upper_fixes; vm_compute; auto; right; reflexivity. Qed.

Lemma chr_i_brace_close x :
  ch_eqb (upper x) (upper (cu "}")) = true -> x = cu "}".
Proof. apply upper_fixes; vm_compute; auto; right; reflexivity. Qed.

(** What the fourth pattern matches ends with what the third matches. *)
Lemma after_prefix_has_object b :
  lang re_after_prefix b -> exists b1 g, b = b1 ++ g /\ lang re_object g.
Proof.
  unfold re_after_prefix. simpl.
  intros (b1 & b2 & -> & _ & (w & g & -> & _ & Hg)).
  destruct Hg as (g1 & g2 & -> & (x & -> & Hx) & (g3 & g4 & -> & Hany & (y & -> & Hy))).
  apply chr_i_brace_open in Hx. apply chr_i_brace_close in Hy. subst x y.
  exists (b1 ++ w), ([cu "{"] ++ g3 ++ [cu "}"]). split.
  - rewrite <- app_assoc. reflexivity.
  - unfold re_object. simpl.
    exists [cu "{"], (g3 ++ [cu "}"]). repeat split.
    + exists (cu "{"). split; reflexivity.
    + exists g3, [cu "}"]. repeat split; auto.
      exists (cu "}"). split; reflexivity.
Qed.

Lemma no_object_no_prefix_match s :
  search re_object s = None -> search re_after_prefix s = None.
Proof.
  intros H3.
  destruct (search re_after_prefix s) as [m | ] eqn:E; [ | reflexivity ].
  exfalso.
  assert (Hm : search re_after_prefix s <> None) by congruence.
  apply search_some_iff in Hm as (a & b & c & -> & Hb).
  apply after_prefix_has_object in Hb as (b1 & g & -> & Hg).
  assert (Hs : search re_object (a ++ (b1 ++ g) ++ c) <> None).
  { apply search_some_iff. exists (a ++ b1), g, c.
    rewrite <- !app_assoc. auto. }
  contradiction.
Qed.

(** C10. The fourth strategy never applies: where the greedy object
    pattern of the third finds nothing, the pattern with the optional
    conversational prefix finds nothing either. So the extraction is the
    one with three strategies, and the third and fourth together raise
    the error exactly when the third finds nothing. *)
Theorem fourth_strategy_unreachable :
  forall jsonText : str,
    (search re_object jsonText = None ->
     search re_after_prefix jsonText = None) /\
    extract jsonText = extract_three_strategies jsonText /\
    (strategy_3_4 jsonText = Err NoJsonFound <->
     search re_object jsonText = None).
Proof.
  intros s.
  assert (H34 : strategy_3_4 s =
                match search re_object s with
                | Some objectMatch => Ok (m_0 objectMatch)
                | None => Err NoJsonFound
                end).
  { unfold strategy_3_4.
    destruct (search re_object s) eqn:E; [ reflexivity | ].
    rewrite (no_object_no_prefix_match s E). reflexivity. }
  split; [ apply no_object_no_prefix_match | split ].
  - unfold extract, extract_three_strategies. rewrite H34. reflexivity.
  - rewrite H34. destruct (search re_object s); split; congruence.
Qed.

End StrategyFacts.

(** ** Trimming *)

Section TrimFacts.

Lemma drop_while_all p w s :
  forallb p w = true -> drop_while p (w ++ s) = drop_while p s.
Proof.
  induction w as [ | x w IH]; simpl; [ reflexivity | ].
  intros H. apply andb_prop in H as [Hx Hw]. rewrite Hx. auto.
Qed.

Lemma drop_while_stop p x s :
  p x = false -> drop_while p (x :: s) = x :: s.
Proof. intros H. simpl. rewrite H. reflexivity. Qed.

Lemma drop_while_snoc p l x :
  p x = false -> drop_while p (l ++ [x]) = drop_while p l ++ [x].
Proof.
  intros Hx. induction l as [ | y l IH]; simpl.
  - rewrite Hx. reflexivity.
  - destruct (p y); [ exact IH | reflexivity ].
Qed.

Lemma drop_while_idem p s :
  drop_while p (drop_while p s) = drop_while p s.
Proof.
  induction s as [ | x s IH]; simpl; [ reflexivity | ].
  destruct (p x) eqn:E; [ exact IH | ]. simpl. rewrite E. reflexivity.
Qed.

Lemma trimEnd_cons x s :
  is_space x = false -> trimEnd (x :: s) = x :: trimEnd s.
Proof.
  intros Hx. unfold trimEnd. simpl.
  rewrite drop_while_snoc by assumption.
  rewrite rev_app_distr. reflexivity.
Qed.

Lemma trimEnd_idem s : trimEnd (trimEnd s) = trimEnd s.
Proof.
  unfold trimEnd. rewrite rev_involutive, drop_while_idem. reflexivity.
Qed.

Lemma trimEnd_snoc s z :
  is_space z = false -> trimEnd (s ++ [z]) = s ++ [z].
Proof.
  intros Hz. unfold trimEnd. rewrite rev_app_distr. simpl.
  rewrite Hz. simpl. rewrite rev_involutive. reflexivity.
Qed.

Lemma trimEnd_all s w :
  forallb is_space w = true -> trimEnd (s ++ w) = trimEnd s.
Proof.
  intros Hw. unfold trimEnd. rewrite rev_app_distr.
  rewrite drop_while_all; [ reflexivity | ].
  rewrite forallb_forall in *. intros x Hx. apply Hw.
  apply in_rev. exact Hx.
Qed.

(** What [trim] gives starts with no white space. *)
Lemma trim_shape s :
  trim s = [] \/ exists x t, trim s = x :: trimEnd t /\ is_space x = false.
Proof.
  unfold trim, trimStart.
  induction s as [ | x s IH]; simpl; [ left; reflexivity | ].
  destruct (is_space x) eqn:E; [ exact IH | ].
  right. exists x, s. rewrite trimEnd_cons by assumption. auto.
Qed.

Theorem trim_idem s : trim (trim s) = trim s.
Proof.
  destruct (trim_shape s) as [-> | (x & t & -> & Hx)]; [ reflexivity | ].
  unfold trim, trimStart. rewrite drop_while_stop by assumption.
  rewrite trimEnd_cons by assumption. rewrite trimEnd_idem. reflexivity.
Qed.

(** Trimming takes the white space around a text that starts and ends
    with something else. *)
Lemma trim_core w1 x mid z w2 :
  forallb is_space w1 = true -> forallb is_space w2 = true ->
  is_space x = false -> is_space z = false ->
  trim (w1 ++ (x :: mid ++ [z]) ++ w2) = x :: mid ++ [z].
Proof.
  intros H1 H2 Hx Hz. unfold trim, trimStart.
  rewrite drop_while_all by assumption.
  simpl app. rewrite drop_while_stop by assumption.
  change (x :: (mid ++ [z]) ++ w2) with ((x :: mid ++ [z]) ++ w2).
  rewrite trimEnd_all by assumption.
  change (x :: mid ++ [z]) with ((x :: mid) ++ [z]).
  apply trimEnd_snoc. assumption.
Qed.

Lemma lastIndexOf_snoc c s :
  lastIndexOf c (s ++ [c]) = Some (length s).
Proof.
  induction s as [ | x s IH]; simpl.
  - unfold ch_eqb. rewrite N.eqb_refl. reflexivity.
  - rewrite IH. reflexivity.
Qed.

End TrimFacts.

(** ** The JSON recogniser *)

Section JsonFacts.

Lemma json_ws_cases c :
  is_json_ws c = true -> c = 32%N \/ c = 9%N \/ c = 10%N \/ c = 13%N.
Proof.
  unfold is_json_ws, ch_eqb. rewrite !orb_true_iff, !N.eqb_eq. tauto.
Qed.

Lemma json_ws_is_space c : is_json_ws c = true -> is_space c = true.
Proof.
  intros H. destruct (json_ws_cases c H) as [-> | [-> | [-> | ->]]];
    reflexivity.
Qed.

Lemma all_json_ws_is_space w :
  forallb is_json_ws w = true -> forallb is_space w = true.
Proof.
  rewrite !forallb_forall. intros H x Hx. apply json_ws_is_space. auto.
Qed.

Lemma run_from_app ps a b : run_from ps (a ++ b) = run_from (run_from ps a) b.
Proof. unfold run_from. apply fold_left_app. Qed.

(** White space before the value changes nothing. *)
Lemma run_leading_ws w s :
  forallb is_json_ws w = true ->
  run_from initial (w ++ s) = run_from initial s.
Proof.
  induction w as [ | c w IH]; simpl; [ reflexivity | ].
  intros H. apply andb_prop in H as [Hc Hw].
  unfold run_from in *. simpl. rewrite Hc. fold initial. auto.
Qed.

(** White space at the end changes nothing either. *)
Lemma finish_step_ws ps c :
  is_json_ws c = true -> finish (step ps c) = finish ps.
Proof.
  intros H.
  destruct ps as [[m st] | ]; [ | reflexivity ].
  destruct m as [ | | | | | | v | name acc e | l n | ph acc ];
    try (simpl; rewrite ?H; reflexivity).
  - destruct (json_ws_cases c H) as [-> | [-> | [-> | ->]]];
      destruct e; reflexivity.
  - destruct (json_ws_cases c H) as [-> | [-> | [-> | ->]]];
      destruct l; destruct n as [ | [ | [ | [ | [ | [ | n]]]]]]; reflexivity.
  - destruct (json_ws_cases c H) as [-> | [-> | [-> | ->]]];
      destruct ph; destruct st as [ | [] st]; reflexivity.
Qed.

Lemma finish_run_ws w :
  forallb is_json_ws w = true ->
  forall ps, finish (run_from ps w) = finish ps.
Proof.
  induction w as [ | c w IH]; simpl; [ reflexivity | ].
  intros H ps. apply andb_prop in H as [Hc Hw].
  change (run_from ps (c :: w)) with (run_from (step ps c) w).
  rewrite IH by assumption. apply finish_step_ws. assumption.
Qed.

Lemma parse_core w1 core w2 :
  forallb is_json_ws w1 = true -> forallb is_json_ws w2 = true ->
  JSON_parse (w1 ++ core ++ w2) = JSON_parse core.
Proof.
  intros H1 H2. unfold JSON_parse.
  rewrite run_leading_ws by assumption.
  rewrite run_from_app. apply finish_run_ws. assumption.
Qed.

Lemma finish_object ps o :
  finish ps = Some (JObj o) -> ps = Some (MDone (JObj o), []).
Proof.
  destruct ps as [[m [ | f st]] | ]; try discriminate;
    destruct m; simpl; try discriminate.
  - intros H. injection H as ->. reflexivity.
  - destruct (num_complete ph); discriminate.
Qed.

Lemma complete_done v st v' :
  complete v st = Some (MDone v', []) -> st = [] /\ v = v'.
Proof.
  destruct st as [ | [] st]; simpl; intros H; try discriminate.
  injection H as ->. auto.
Qed.

Ltac split_on H :=
  repeat (match type of H with
          | context [if ?b then _ else _] => destruct b eqn:?
          | context [match ?x with _ => _ end] => destruct x eqn:?
          end; try discriminate H).

(** Closes the cases of the two lemmas below: the state is not the final
    one, or a value other than an object was completed, or the character
    is the closing brace. *)
Ltac not_an_object H :=
  try discriminate H;
  try (apply complete_done in H as [_ H]; discriminate H);
  try (left; apply ch_eqb_eq;
       match goal with E : ch_eqb _ 125%N = true |- _ => exact E end).

Lemma after_value_done m st c o :
  after_value m st c = Some (MDone (JObj o), []) ->
  c = cu "}" \/ (is_json_ws c = true /\ m = MDone (JObj o) /\ st = []).
Proof.
  intros H. destruct m; simpl in H; try discriminate.
  - split_on H; not_an_object H.
  - destruct (is_json_ws c); [ | discriminate ].
    injection H as -> ->. auto.
Qed.

(** The character that completes an object is its closing brace. *)
Lemma step_done ps c o :
  step ps c = Some (MDone (JObj o), []) ->
  c = cu "}" \/ (is_json_ws c = true /\ ps = Some (MDone (JObj o), [])).
Proof.
  intros H. destruct ps as [[m st] | ]; [ | discriminate ].
  destruct m as [ | | | | | | v | name acc e | l n | ph acc ].
  - simpl in H. unfold start_value in H. split_on H.
  - simpl in H. unfold start_value in H. split_on H; not_an_object H.
  - simpl in H. split_on H; not_an_object H.
  - simpl in H. split_on H.
  - simpl in H. split_on H.
  - change (after_value MNext st c = Some (MDone (JObj o), [])) in H.
    apply after_value_done in H as [H | (Hw & Hm & _)]; [ auto | discriminate ].
  - change (after_value (MDone v) st c = Some (MDone (JObj o), [])) in H.
    apply after_value_done in H as [H | (Hw & Hm & ->)]; [ auto | ].
    right. rewrite Hm. auto.
  - simpl in H. unfold in_string, end_string in H.
    destruct e; split_on H; not_an_object H.
  - cbn [step] in H.
    destruct (nth_error (literal_text l) n); [ | discriminate ].
    destruct (ch_eqb c c0); [ | discriminate ].
    destruct (S n =? length (literal_text l)); [ | discriminate ].
    apply complete_done in H as [_ H]. destruct l; discriminate.
  - cbn [step] in H.
    destruct (num_next ph c); [ discriminate | ].
    destruct (num_complete ph); [ | discriminate ].
    destruct (complete (JNum acc) st) as [[m' st'] | ] eqn:E; [ | discriminate ].
    apply after_value_done in H as [H | (_ & -> & ->)]; [ auto | ].
    apply complete_done in E as [_ E]. discriminate.
Qed.

(** A text read as an object from [ps] either is white space after an
    object that [ps] already holds, or has a closing brace followed by
    white space only. *)
Lemma closes_with_brace s :
  forall ps o,
    finish (run_from ps s) = Some (JObj o) ->
    (finish ps = Some (JObj o) /\ forallb is_json_ws s = true) \/
    exists pre w, s = pre ++ cu "}" :: w /\ forallb is_json_ws w = true.
Proof.
  induction s as [ | c s IH] using rev_ind; intros ps o H.
  - left. auto.
  - rewrite run_from_app in H. simpl in H.
    pose proof (finish_object _ _ H) as Hd.
    apply step_done in Hd as [-> | [Hc Hps]].
    + right. exists s, []. auto.
    + assert (Hf : finish (run_from ps s) = Some (JObj o))
        by (rewrite Hps; reflexivity).
      apply IH in Hf as [[Hf Hw] | (pre & w & -> & Hw)].
      * left. rewrite forallb_app, Hw. simpl. rewrite Hc. auto.
      * right. exists pre, (w ++ [c]). rewrite <- app_assoc. simpl.
        rewrite forallb_app, Hw. simpl. rewrite Hc. auto.
Qed.

Ltac split_goal :=
  repeat (match goal with
          | |- context [if ?b then _ else _] => destruct b
          | |- context [match ?x with _ => _ end] => destruct x
          end; simpl; try reflexivity; try assumption; try discriminate).

Lemma bottom_is_array_top f g t :
  match f, g with
  | FArr _, FArr _ => True
  | FArr _, _ | _, FArr _ => False
  | _, _ => True
  end ->
  bottom_is_array (f :: t) = bottom_is_array (g :: t).
Proof. destruct f, g, t; simpl; intros H; auto; contradiction. Qed.

Lemma no_object_complete v st :
  bottom_is_array st = true -> no_object (complete v st) = true.
Proof.
  destruct st as [ | f [ | g t]]; simpl; try discriminate.
  - destruct f; simpl; auto.
  - destruct f; simpl; auto.
Qed.

Lemma no_object_after m st c :
  bottom_is_array st = true -> no_object (after_value m st c) = true.
Proof.
  intros H. destruct st as [ | f t]; [ discriminate | ].
  destruct m; try reflexivity; unfold after_value.
  - destruct (is_json_ws c); [ exact H | ].
    destruct (ch_eqb c (cu ",")); [ destruct f; auto | ].
    destruct (ch_eqb c (cu "]")).
    { destruct f; auto. destruct t as [ | g t]; [ reflexivity | ].
      apply no_object_complete. exact H. }
    destruct (ch_eqb c (cu "}")); [ | reflexivity ].
    destruct f; auto. destruct t as [ | g t]; [ discriminate | ].
    apply no_object_complete. exact H.
  - destruct (is_json_ws c); [ exact H | reflexivity ].
Qed.

Lemma no_object_start st c :
  bottom_is_array st = true -> no_object (start_value st c) = true.
Proof.
  intros H. destruct st as [ | f t]; [ discriminate | ].
  unfold start_value. split_goal.
Qed.

(** A run that is not reading an object never starts one. *)
Lemma no_object_step ps c :
  no_object ps = true -> no_object (step ps c) = true.
Proof.
  intros H. destruct ps as [[m st] | ]; [ | reflexivity ].
  destruct st as [ | f t].
  - (* the value of the text is a scalar *)
    destruct m as [ | | | | | | v | name acc e | l n | ph acc ];
      try discriminate; simpl in H.
    + destruct v; try discriminate; simpl; destruct (is_json_ws c); auto.
    + destruct name; [ discriminate | ].
      simpl. unfold in_string, end_string. destruct e; split_goal.
    + cbn [step].
      destruct (nth_error (literal_text l) n); [ | reflexivity ].
      destruct (ch_eqb c c0); [ | reflexivity ].
      destruct (S n =? length (literal_text l)); [ | reflexivity ].
      destruct l; reflexivity.
    + cbn [step].
      destruct (num_next ph c); [ reflexivity | ].
      destruct (num_complete ph); [ | reflexivity ].
      simpl. destruct (is_json_ws c); reflexivity.
  - (* inside an array *)
    assert (Hb : bottom_is_array (f :: t) = true) by exact H.
    destruct m as [ | | | | | | v | name acc e | l n | ph acc ]; cbn [step].
    + destruct (is_json_ws c); [ exact H | ]. apply no_object_start. exact Hb.
    + destruct (is_json_ws c); [ exact H | ].
      destruct (ch_eqb c (cu "]")); [ | apply no_object_start; exact Hb ].
      destruct f; auto. destruct t as [ | g t]; [ reflexivity | ].
      apply no_object_complete. exact Hb.
    + destruct (is_json_ws c); [ exact H | ].
      destruct (ch_eqb c (cu "}")).
      { destruct f; auto. destruct t as [ | g t]; [ discriminate | ].
        apply no_object_complete. exact Hb. }
      destruct (ch_eqb c DQUOTE); [ exact H | reflexivity ].
    + destruct (is_json_ws c); [ exact H | ].
      destruct (ch_eqb c DQUOTE); [ exact H | reflexivity ].
    + destruct (is_json_ws c); [ exact H | ].
      destruct (ch_eqb c (cu ":")); [ exact H | reflexivity ].
    + apply no_object_after. exact Hb.
    + apply no_object_after. exact Hb.
    + unfold in_string, end_string.
      destruct e;
        repeat match goal with
               | |- context [if ?b then _ else _] => destruct b
               end;
        try exact H; try reflexivity;
        try (apply no_object_complete; exact Hb).
      destruct f; try reflexivity.
      unfold no_object. rewrite <- Hb. apply bottom_is_array_top. exact I.
    + destruct (nth_error (literal_text l) n); [ | reflexivity ].
      destruct (ch_eqb c c0); [ | reflexivity ].
      destruct (S n =? length (literal_text l)); [ | exact H ].
      apply no_object_complete. exact Hb.
    + destruct (num_next ph c); [ exact H | ].
      destruct (num_complete ph); [ | reflexivity ].
      pose proof (no_object_complete (JNum acc) _ Hb) as Hc.
      destruct (complete (JNum acc) (f :: t)) as [[m' st'] | ] eqn:E;
        [ | reflexivity ].
      apply no_object_after.
      destruct st' as [ | g st']; [ | exact Hc ].
      destruct f; destruct t; simpl in E; try discriminate.
Qed.

Lemma no_object_run s :
  forall ps, no_object ps = true -> no_object (run_from ps s) = true.
Proof.
  induction s as [ | c s IH]; intros ps H; [ exact H | ].
  change (run_from ps (c :: s)) with (run_from (step ps c) s).
  apply IH. apply no_object_step. exact H.
Qed.

Lemma no_object_finish ps o :
  no_object ps = true -> finish ps <> Some (JObj o).
Proof.
  intros H E. apply finish_object in E. subst ps. discriminate.
Qed.

(** A value that starts with something else than a brace is no object. *)
Lemma no_object_first c :
  is_json_ws c = false -> c <> cu "{" -> no_object (step initial c) = true.
Proof.
  intros Hw Hc. unfold initial. cbn [step]. rewrite Hw.
  unfold start_value.
  destruct (ch_eqb c (cu "{")) eqn:E.
  { apply ch_eqb_eq in E. contradiction. }
  split_goal.
Qed.

(** A text read as an object has an opening brace after white space. *)
Lemma opens_with_brace s :
  forall o, JSON_parse s = Some (JObj o) ->
  exists w rest,
    s = w ++ cu "{" :: rest /\ forallb is_json_ws w = true /\
    finish (run_from (step initial (cu "{")) rest) = Some (JObj o).
Proof.
  unfold JSON_parse.
  induction s as [ | c s IH]; intros o H; [ discriminate | ].
  change (run_from initial (c :: s)) with (run_from (step initial c) s) in H.
  destruct (is_json_ws c) eqn:Hw.
  - assert (Hi : step initial c = initial)
      by (unfold initial; cbn [step]; rewrite Hw; reflexivity).
    rewrite Hi in H. apply IH in H as (w & rest & -> & Hall & Hf).
    exists (c :: w), rest. simpl. rewrite Hw. auto.
  - destruct (N.eq_dec c (cu "{")) as [-> | Hc].
    + exists [], s. auto.
    + exfalso. apply (no_object_finish _ o (no_object_run s _ (no_object_first c Hw Hc))).
      exact H.
Qed.

(** The shape of a text that [JSON.parse] reads as an object. *)
Theorem object_text_shape s o :
  JSON_parse s = Some (JObj o) ->
  exists w1 mid w2,
    s = w1 ++ (cu "{" :: mid ++ [cu "}"]) ++ w2 /\
    forallb is_json_ws w1 = true /\ forallb is_json_ws w2 = true.
Proof.
  intros H. apply opens_with_brace in H as (w1 & rest & -> & H1 & Hf).
  apply closes_with_brace in Hf as [[Hf _] | (mid & w2 & -> & H2)];
    [ discriminate | ].
  exists w1, mid, w2. split; [ | auto ].
  simpl. rewrite <- app_assoc. reflexivity.
Qed.

(** Trimming such a text leaves the braces and what is between them,
    and [JSON.parse] reads the same object from it. *)
Theorem object_text_trim s o :
  JSON_parse s = Some (JObj o) ->
  (exists mid, trim s = cu "{" :: mid ++ [cu "}"]) /\
  JSON_parse (trim s) = Some (JObj o).
Proof.
  intros H.
  destruct (object_text_shape s o H) as (w1 & mid & w2 & E & H1 & H2).
  assert (Ht : trim s = cu "{" :: mid ++ [cu "}"]).
  { rewrite E. apply trim_core; auto using all_json_ws_is_space. }
  split; [ eauto | ].
  rewrite Ht. rewrite E in H. rewrite parse_core in H by assumption.
  exact H.
Qed.

End JsonFacts.

(** ** The Gemini parser on a text that is a JSON object *)

Section RoundTrip.

Lemma cleanup_braced mid :
  cleanup (cu "{" :: mid ++ [cu "}"]) = cu "{" :: mid ++ [cu "}"].
Proof.
  unfold cleanup.
  assert (Ht : trim (cu "{" :: mid ++ [cu "}"]) = cu "{" :: mid ++ [cu "}"]).
  { pose proof (trim_core [] (cu "{") mid (cu "}") [] eq_refl eq_refl
                          eq_refl eq_refl) as E.
    simpl app in E. rewrite app_nil_r in E. exact E. }
  rewrite Ht.
  change (cu "{" :: mid ++ [cu "}"]) with ((cu "{" :: mid) ++ [cu "}"]).
  rewrite lastIndexOf_snoc, length_app. simpl length.
  replace (S (length mid) + 1 - 1) with (S (length mid)) by lia.
  rewrite Nat.ltb_irrefl. reflexivity.
Qed.

(** The parser on a trimmed text that is an object between its braces. *)
Lemma gemini_parse_braced s mid o :
  trim s = cu "{" :: mid ++ [cu "}"] ->
  JSON_parse (trim s) = Some (JObj o) ->
  extract (trim s) = Ok (trim s) /\
  cleanup (trim s) = trim s /\
  gemini_parse s = Ok (JObj o).
Proof.
  intros Ht Hp.
  assert (He : extract (trim s) = Ok (trim s)) by (rewrite Ht; reflexivity).
  assert (Hc : cleanup (trim s) = trim s) by (rewrite Ht; apply cleanup_braced).
  repeat split; auto.
  unfold gemini_parse. rewrite trim_idem, He.
  destruct (trim s) eqn:E; [ discriminate | ].
  cbn [Parser.and_then]. rewrite Hc. unfold parse_json. rewrite Hp. reflexivity.
Qed.

(** C4. When the trimmed answer is a text that [JSON.parse] reads as an
    object, it starts with a brace, the first strategy takes the whole
    trimmed text, the cut after the last brace changes nothing, and the
    parser returns the object that [JSON.parse] reads from that text. *)
Theorem whole_text_round_trip :
  forall (s : str) (o : list (str * json)),
    JSON_parse (trim s) = Some (JObj o) ->
    startsWith (lit "{") (trim s) = true /\
    extract (trim s) = Ok (trim s) /\
    cleanup (trim s) = trim s /\
    gemini_parse s = Ok (JObj o).
Proof.
  intros s o H.
  destruct (object_text_trim (trim s) o H) as [(mid & Ht) _].
  rewrite trim_idem in Ht.
  split; [ rewrite Ht; reflexivity | ].
  apply (gemini_parse_braced s mid o Ht H).
Qed.

Lemma whole_text_round_trip_witness :
  JSON_parse (trim (dq "  {'a': [1, {'b': null}]}  ")) =
    Some (JObj [(lit "a", JArr [JNum (lit "1"); JObj [(lit "b", JNull)]])]) /\
  gemini_parse (dq "  {'a': [1, {'b': null}]}  ") =
    Ok (JObj [(lit "a", JArr [JNum (lit "1"); JObj [(lit "b", JNull)]])]).
Proof.
  assert (H : JSON_parse (trim (dq "  {'a': [1, {'b': null}]}  ")) =
              Some (JObj [(lit "a", JArr [JNum (lit "1");
                                          JObj [(lit "b", JNull)]])]))
    by (vm_compute; reflexivity).
  split; [ exact H | ].
  apply (whole_text_round_trip _ _ H).
Defined.

(** The same for a text that [JSON.parse] reads as an object before any
    trimming. *)
Lemma valid_text_round_trip s o :
  JSON_parse s = Some (JObj o) -> gemini_parse s = Ok (JObj o).
Proof.
  intros H. destruct (object_text_trim s o H) as [(mid & Ht) Hp].
  apply (gemini_parse_braced s mid o Ht Hp).
Qed.

End RoundTrip.

(** ** The two services *)

Section Providers.

(** The validator that the OpenAI service imports, whatever it is. *)
Variable importedValidator : json -> validation.

(** C1, on the code. The answer is a valid object followed by a
    sentence. The Gemini service cuts the sentence off, parses, validates
    and returns the result; the OpenAI service hands the whole text to
    [JSON.parse] and fails before its validation step is reached. *)
Theorem providers_differ_on_trailing_text :
  generateKeywords sample_provenance
    (minimal_text ++ lit " Hope this helps!") =
    Ok (with_provenance sample_provenance minimal) /\
  openai_parse (minimal_text ++ lit " Hope this helps!") =
    Err JsonParseError /\
  generateKeywordsWithOpenAI importedValidator sample_provenance
    (minimal_text ++ lit " Hope this helps!") =
    Err JsonParseError.
Proof. repeat split; vm_compute; reflexivity. Qed.

Lemma gemini_validate_accepts_minimal :
  gemini_validate sample_provenance minimal =
  Ok (with_provenance sample_provenance minimal).
Proof. reflexivity. Qed.

(** A text that [JSON.parse] reads as an object passes the cleanup of the
    Gemini service unchanged but for the trimming. *)
Lemma cleanup_object_text j o :
  JSON_parse j = Some (JObj o) ->
  cleanup j = trim j /\ JSON_parse (cleanup j) = Some (JObj o).
Proof.
  intros H. destruct (object_text_trim j o H) as [(mid & Ht) Hp].
  assert (Hc : cleanup j = trim j).
  { pose proof (cleanup_braced mid) as Hb. rewrite <- Ht in Hb.
    unfold cleanup in *. rewrite trim_idem in Hb. exact Hb. }
  rewrite Hc. auto.
Qed.

(** What holds between the two services: both run the same four
    strategies on the trimmed answer, and every object that the OpenAI
    service parses, the Gemini service parses to the same object. *)
Lemma openai_parse_included content o :
  openai_parse content = Ok (JObj o) -> gemini_parse content = Ok (JObj o).
Proof.
  unfold openai_parse, gemini_parse. intros H.
  destruct content as [ | x content]; [ discriminate | ].
  rewrite trim_idem.
  destruct (extract (trim (x :: content))) as [j | e] eqn:E;
    [ | discriminate ].
  cbn [Parser.and_then] in *.
  assert (Hj : JSON_parse j = Some (JObj o)).
  { unfold parse_json in H. destruct (JSON_parse j); congruence. }
  destruct (trim (x :: content)) eqn:Et.
  - vm_compute in E. discriminate.
  - unfold parse_json.
    destruct (cleanup_object_text j o Hj) as [_ Hc]. rewrite Hc. reflexivity.
Qed.

(** The scenario of a fenced answer after a conversational prefix. *)
Example prefixed_fenced_answer :
  generateKeywords sample_provenance
    (lit "Here's the result: " ++ fenced true [NL] minimal_text [NL]) =
  Ok (with_provenance sample_provenance minimal).
Proof. vm_compute. reflexivity. Qed.

(** The scenario of an empty [primary] array: the validator refuses and
    the error is the one of the keyword counts. *)
Example empty_primary_answer :
  generateKeywords sample_provenance
    (dq ("{'primary':[]," ++
         "'secondary':[{'term':'bullion','rationale':'market'}," ++
                      "{'term':'taka','rationale':'currency'}]," ++
         "'longtail':[{'term':'gold price today','rationale':'query'}," ++
                     "{'term':'gold price in dhaka','rationale':'query'}," ++
                     "{'term':'why gold is rising','rationale':'query'}]," ++
         "'competitorInsights':'x'}")%string) =
  Err InvalidKeywordCounts.
Proof. vm_compute. reflexivity. Qed.

(** Both kinds of [SyntaxError] leave [generateKeywords] as the same
    message. *)
Lemma syntax_errors_surface_alike :
  gemini_catch NoJsonFound = FormatInvalid /\
  gemini_catch JsonParseError = FormatInvalid.
Proof. split; reflexivity. Qed.

End Providers.

(** ** Priorities of the matcher: greedy white space, lazy anything *)

Section PriorityFacts.

Variable R : Type.

(** A greedy run of white space takes all of it when what follows
    accepts the rest. *)
Lemma star_ws_max (body : str -> caps -> cont R -> option R) (k : cont R) W :
  (forall c k', body [] c k' = None) ->
  (forall y t c k', body (y :: t) c k' = if is_space y then k' t c else None) ->
  forall rest c x n,
    forallb is_space W = true -> head_not_space rest ->
    k rest c = Some x -> length (W ++ rest) <= n ->
    star_loop true body k n (W ++ rest) c = Some x.
Proof.
  intros Hnil Hcons.
  induction W as [ | w W IH]; intros rest c x n HW HS Hk Hn.
  - simpl app. destruct n; simpl; [ exact Hk | ].
    destruct rest as [ | y rest]; [ rewrite Hnil; exact Hk | ].
    simpl in HS. rewrite Hcons, HS. exact Hk.
  - simpl in HW. apply andb_prop in HW as [Hw HW].
    destruct n as [ | n]; [ simpl in Hn; lia | ].
    simpl. rewrite Hcons, Hw.
    assert (Hlt : (length (W ++ rest) <? S (length (W ++ rest))) = true)
      by (apply Nat.ltb_lt; lia).
    rewrite Hlt. rewrite (IH rest c x n); auto. simpl in Hn. lia.
Qed.

Lemma run_star_ws_max (k : cont R) W rest c x :
  forallb is_space W = true -> head_not_space rest -> k rest c = Some x ->
  run (star ws) (W ++ rest) c k = Some x.
Proof.
  intros HW HS Hk. unfold star. cbn [run].
  apply star_ws_max; auto.
Qed.

(** A lazy run of anything stops at the first place where what follows
    accepts the rest. *)
Lemma lazy_any_first (body : str -> caps -> cont R -> option R)
    (k : cont R) B c x :
  (forall y t c k', body (y :: t) c k' = k' t c) ->
  k B c = Some x ->
  forall A n,
    (forall A1 A2, A = A1 ++ A2 -> A2 <> [] -> k (A2 ++ B) c = None) ->
    length (A ++ B) <= n ->
    star_loop false body k n (A ++ B) c = Some x.
Proof.
  intros Hcons Hk. induction A as [ | a A IH]; intros n Hnone Hn.
  - simpl app. destruct n; simpl; rewrite Hk; reflexivity.
  - destruct n as [ | n]; [ simpl in Hn; lia | ].
    assert (H0 : k (a :: A ++ B) c = None)
      by (apply (Hnone [] (a :: A) eq_refl); discriminate).
    simpl. rewrite H0. simpl. rewrite Hcons.
    assert (Hlt : (length (A ++ B) <? S (length (A ++ B))) = true)
      by (apply Nat.ltb_lt; lia).
    rewrite Hlt. apply IH.
    + intros A1 A2 E HA2. apply (Hnone (a :: A1) A2); [ rewrite E | ]; auto.
    + simpl in Hn. lia.
Qed.

Lemma run_lazy_any_first (k : cont R) A B c x :
  k B c = Some x ->
  (forall A1 A2, A = A1 ++ A2 -> A2 <> [] -> k (A2 ++ B) c = None) ->
  run (lazy any) (A ++ B) c k = Some x.
Proof.
  intros Hk Hnone. unfold lazy. cbn [run]. apply lazy_any_first; auto.
Qed.

Lemma run_word_here l :
  forall s c (k : cont R), run (word_of false l) (map cu l ++ s) c k = k s c.
Proof.
  induction l as [ | a l IH]; intros s c k; simpl; [ reflexivity | ].
  unfold ch_eqb. rewrite N.eqb_refl. apply IH.
Qed.

Lemma run_word_mismatch a l x s c (k : cont R) :
  ch_eqb (cu a) x = false -> run (word_of false (a :: l)) (x :: s) c k = None.
Proof. intros H. simpl. rewrite H. reflexivity. Qed.

End PriorityFacts.

Section FenceFacts.

Lemma lang_word l p : lang (word_of false l) p -> p = map cu l.
Proof.
  revert p. induction l as [ | a l IH]; intros p H; simpl in H; [ exact H | ].
  destruct H as (s1 & s2 & -> & (x & -> & Hx) & H2).
  apply ch_eqb_eq in Hx. subst x. apply IH in H2. subst s2. reflexivity.
Qed.

Lemma star_ws_all p : star_lang (lang ws) p -> forallb is_space p = true.
Proof.
  induction 1 as [ | s1 s2 (x & -> & Hx) _ _ IH]; [ reflexivity | ].
  simpl. rewrite Hx. exact IH.
Qed.

Lemma startsWith_app p r : startsWith p (p ++ r) = true.
Proof.
  induction p as [ | x p IH]; simpl; [ reflexivity | ].
  unfold ch_eqb. rewrite N.eqb_refl. exact IH.
Qed.

Lemma startsWith_app_r p t r :
  startsWith p t = true -> startsWith p (t ++ r) = true.
Proof.
  revert t. induction p as [ | x p IH]; intros t H; [ reflexivity | ].
  destruct t as [ | y t]; [ discriminate | ].
  simpl in *. apply andb_prop in H as [H1 H2]. rewrite H1. simpl. auto.
Qed.

Lemma includes_intro p pre t :
  startsWith p t = true -> includes p (pre ++ t) = true.
Proof.
  intros H. induction pre as [ | x pre IH]; simpl.
  - destruct t; simpl; rewrite H; reflexivity.
  - rewrite IH. apply orb_true_r.
Qed.

Lemma includes_elim p s :
  includes p s = true -> exists pre t, s = pre ++ t /\ startsWith p t = true.
Proof.
  induction s as [ | x s IH]; simpl.
  - rewrite orb_false_r. intros H. exists [], []. auto.
  - intros H. apply orb_prop in H as [H | H].
    + exists [], (x :: s). auto.
    + apply IH in H as (pre & t & -> & H). exists (x :: pre), t. auto.
Qed.

(** A text without a fence has none in any of its parts. *)
Lemma includes_part p a s b :
  includes p (a ++ s ++ b) = false -> includes p s = false.
Proof.
  intros H. destruct (includes p s) eqn:E; [ | reflexivity ].
  apply includes_elim in E as (pre & t & -> & Ht).
  rewrite <- H. symmetry.
  replace (a ++ (pre ++ t) ++ b) with ((a ++ pre) ++ (t ++ b))
    by (rewrite <- !app_assoc; reflexivity).
  apply includes_intro. apply startsWith_app_r. exact Ht.
Qed.

Lemma drop_while_suffix p l : exists pre, l = pre ++ drop_while p l.
Proof.
  induction l as [ | x l (pre & IH)]; simpl; [ exists []; reflexivity | ].
  destruct (p x); [ exists (x :: pre); simpl; congruence | exists []; reflexivity ].
Qed.

Lemma drop_while_mid p l x r :
  p x = false -> drop_while p (l ++ x :: r) = drop_while p l ++ x :: r.
Proof.
  intros Hx. induction l as [ | y l IH]; simpl.
  - rewrite Hx. reflexivity.
  - destruct (p y); [ exact IH | reflexivity ].
Qed.

(** What the closing part of the block pattern matches starts, after
    white space, with a fence. *)
Lemma closing_fence_seen (R : Type) s c (k : cont R) x :
  run (Seq (star ws) (word false "```")) s c k = Some x ->
  fence_after_space s = true.
Proof.
  intros H. apply run_sound in H as (p & rest & c' & -> & Hp & _).
  simpl in Hp. destruct Hp as (p1 & p2 & -> & H1 & H2).
  apply star_ws_all in H1.
  apply (lang_word (list_ascii_of_string "```")) in H2. subst p2.
  unfold fence_after_space. rewrite <- app_assoc.
  rewrite drop_while_all by assumption.
  change (map cu (list_ascii_of_string "```")) with fence.
  replace (drop_while is_space (fence ++ rest)) with (fence ++ rest)
    by reflexivity.
  apply startsWith_app.
Qed.

(** Inside an object text without a fence, no fence follows white space
    before the closing brace is passed. *)
Lemma no_fence_inside core A1 A2 B :
  includes fence core = false ->
  core = A1 ++ A2 ++ [cu "}"] ->
  fence_after_space ((A2 ++ [cu "}"]) ++ B) = false.
Proof.
  intros Hno E. unfold fence_after_space.
  rewrite <- app_assoc. simpl app.
  rewrite drop_while_mid by reflexivity.
  destruct (drop_while_suffix is_space A2) as (pre & HA2).
  remember (drop_while is_space A2) as D eqn:HD. clear HD.
  destruct D as [ | d1 [ | d2 [ | d3 D]]].
  - reflexivity.
  - simpl. rewrite ?andb_false_r. reflexivity.
  - simpl. rewrite ?andb_false_r. reflexivity.
  - match goal with |- ?X = false => destruct X eqn:Hs end; [ | reflexivity ].
    assert (S' : startsWith fence (d1 :: d2 :: d3 :: D) = true).
    { simpl in *. exact Hs. }
    rewrite <- Hno. symmetry. rewrite E, HA2.
    replace (A1 ++ (pre ++ d1 :: d2 :: d3 :: D) ++ [cu "}"])
      with ((A1 ++ pre) ++ ((d1 :: d2 :: d3 :: D) ++ [cu "}"]))
      by (rewrite <- !app_assoc; reflexivity).
    apply includes_intro. apply startsWith_app_r. exact S'.
Qed.

Lemma consumed_app a b : consumed (a ++ b) b = a.
Proof.
  unfold consumed. rewrite length_app, Nat.add_sub.
  rewrite firstn_app, Nat.sub_diag, firstn_all. simpl. apply app_nil_r.
Qed.

Lemma consumed_all a : consumed a [] = a.
Proof. unfold consumed. simpl. rewrite Nat.sub_0_r. apply firstn_all. Qed.

Lemma space_not_j (x : char) : is_space x = true -> ch_eqb (cu "j") x = false.
Proof.
  intros H. destruct (ch_eqb (cu "j") x) eqn:E; [ | reflexivity ].
  apply ch_eqb_eq in E. subst x. discriminate.
Qed.

(** The block pattern on a fenced object text: the whole text matches
    and the group is the text between its braces. *)
Lemma code_block_match (tagged : bool) W1 mid W2 :
  forallb is_space W1 = true -> forallb is_space W2 = true ->
  includes fence (cu "{" :: mid ++ [cu "}"]) = false ->
  match_at re_code_block
    (fenced tagged W1 (cu "{" :: mid ++ [cu "}"]) W2) =
  Some (fenced tagged W1 (cu "{" :: mid ++ [cu "}"]) W2,
        [(1, cu "{" :: mid ++ [cu "}"])]).
Proof.
  intros H1 H2 Hno.
  set (core := cu "{" :: mid ++ [cu "}"]) in *.
  set (T := fenced tagged W1 core W2).
  unfold match_at.
  set (K := accept T).
  (* the rest of the pattern after the tag *)
  set (REST4 := Seq (star ws) (word false "```")).
  set (REST3 := Seq (Group 1 (lazy any)) REST4).
  set (REST2 := Seq (star ws) REST3).
  assert (Hend : forall c, run REST4 (W2 ++ fence) c K = Some (T, c)).
  { intros c. unfold REST4. cbn [run].
    apply run_star_ws_max; [ exact H2 | reflexivity | ].
    unfold word. rewrite <- (app_nil_r fence). unfold fence, lit.
    rewrite run_word_here. unfold K, accept. rewrite consumed_all.
    reflexivity. }
  assert (Hgroup : run REST3 (core ++ W2 ++ fence) [] K = Some (T, [(1, core)])).
  { unfold REST3. cbn [run].
    apply run_lazy_any_first.
    - rewrite consumed_app. apply Hend.
    - intros A1 A2 E HA2.
      destruct (run REST4 (A2 ++ W2 ++ fence)
                  [(1, consumed (core ++ W2 ++ fence) (A2 ++ W2 ++ fence))] K)
        as [x | ] eqn:Hrun; [ | reflexivity ].
      exfalso. apply closing_fence_seen in Hrun.
      destruct (exists_last HA2) as (A2' & z & ->).
      assert (Hz : z = cu "}").
      { unfold core in E.
        change (cu "{" :: mid ++ [cu "}"]) with ((cu "{" :: mid) ++ [cu "}"]) in E.
        rewrite app_assoc in E. apply app_inj_tail in E as [_ E]. auto. }
      subst z.
      rewrite (no_fence_inside core A1 A2' (W2 ++ fence) Hno E) in Hrun.
      discriminate. }
  assert (Hrest : run REST2 (W1 ++ core ++ W2 ++ fence) [] K
                  = Some (T, [(1, core)])).
  { unfold REST2. cbn [run].
    apply run_star_ws_max; [ exact H1 | reflexivity | exact Hgroup ]. }
  unfold re_code_block. fold REST4. fold REST3. fold REST2.
  cbn [run].
  unfold T at 1, fenced, fence, lit, word.
  rewrite run_word_here. unfold opt. cbn [run].
  fold (lit "```") (lit "json"). fold fence.
  destruct tagged.
  - unfold lit at 1. rewrite run_word_here. rewrite Hrest. reflexivity.
  - simpl app.
    assert (Hmis : forall k : cont (str * caps),
              run (word_of false (list_ascii_of_string "json"))
                  (W1 ++ core ++ W2 ++ fence) [] k = None).
    { intros k. destruct W1 as [ | w W1].
      - reflexivity.
      - simpl in H1. apply andb_prop in H1 as [Hw _].
        apply run_word_mismatch. apply space_not_j. exact Hw. }
    rewrite Hmis. simpl orelse. exact Hrest.
Qed.

Lemma search_here r s m0 c :
  match_at r s = Some (m0, c) ->
  search r s = Some {| m_index := 0; m_0 := m0; m_caps := c |}.
Proof.
  intros H. unfold search. destruct s; simpl; rewrite H; reflexivity.
Qed.

End FenceFacts.

(** ** The Gemini parser on a fenced code block *)

Section FencedBlock.

Lemma trim_fixed x s z :
  is_space x = false -> is_space z = false ->
  trim (x :: s ++ [z]) = x :: s ++ [z].
Proof.
  intros Hx Hz.
  pose proof (trim_core [] x s z [] eq_refl eq_refl Hx Hz) as E.
  simpl app in E. rewrite app_nil_r in E. exact E.
Qed.

Lemma fenced_ends tagged W1 j W2 :
  exists inner, fenced tagged W1 j W2 = cu "`" :: inner ++ [cu "`"].
Proof.
  exists ([cu "`"; cu "`"] ++ (if tagged then lit "json" else []) ++
          W1 ++ j ++ W2 ++ [cu "`"; cu "`"]).
  unfold fenced.
  change fence with ([cu "`"] ++ [cu "`"; cu "`"]) at 1.
  change fence with ([cu "`"; cu "`"] ++ [cu "`"]).
  rewrite <- !app_assoc. reflexivity.
Qed.

(** The parser on a fenced object text between its braces. *)
Lemma gemini_parse_fenced tagged W1 mid W2 o :
  forallb is_space W1 = true -> forallb is_space W2 = true ->
  includes fence (cu "{" :: mid ++ [cu "}"]) = false ->
  JSON_parse (cu "{" :: mid ++ [cu "}"]) = Some (JObj o) ->
  gemini_parse (fenced tagged W1 (cu "{" :: mid ++ [cu "}"]) W2) = Ok (JObj o).
Proof.
  intros H1 H2 Hno Hp.
  pose proof (code_block_match tagged W1 mid W2 H1 H2 Hno) as Hm.
  apply search_here in Hm.
  destruct (fenced_ends tagged W1 (cu "{" :: mid ++ [cu "}"]) W2) as (inner & E).
  assert (Ht : trim (fenced tagged W1 (cu "{" :: mid ++ [cu "}"]) W2) =
               fenced tagged W1 (cu "{" :: mid ++ [cu "}"]) W2).
  { rewrite E. apply trim_fixed; reflexivity. }
  unfold gemini_parse. rewrite !Ht.
  assert (Hx : extract (fenced tagged W1 (cu "{" :: mid ++ [cu "}"]) W2) =
               Ok (cu "{" :: mid ++ [cu "}"])).
  { unfold extract. rewrite Hm.
    replace (startsWith (lit "{")
               (fenced tagged W1 (cu "{" :: mid ++ [cu "}"]) W2)) with false
      by (rewrite E; reflexivity).
    unfold match_and_group1, group. cbn [m_caps capture Nat.eqb].
    rewrite trim_fixed by reflexivity. reflexivity. }
  rewrite Hx. rewrite E at 1. cbn [Parser.and_then].
  rewrite cleanup_braced. unfold parse_json. rewrite Hp. reflexivity.
Qed.

(** C5, as the code has it. For a text [j] that [JSON.parse] reads as an
    object and that holds no run of three backticks, the parser returns
    the same object for [j] inside a fenced block, with the tag [json]
    or without it and with any white space next to the fences, as for
    [j] itself. *)
Theorem fenced_block_round_trip :
  forall (tagged : bool) (w1 j w2 : str) (o : list (str * json)),
    JSON_parse j = Some (JObj o) ->
    includes fence j = false ->
    forallb is_space w1 = true ->
    forallb is_space w2 = true ->
    gemini_parse (fenced tagged w1 j w2) = Ok (JObj o) /\
    gemini_parse j = Ok (JObj o).
Proof.
  intros tagged w1 j w2 o Hp Hno H1 H2.
  split; [ | apply valid_text_round_trip; exact Hp ].
  destruct (object_text_shape j o Hp) as (a & mid & b & E & Ha & Hb).
  assert (Hcore : JSON_parse (cu "{" :: mid ++ [cu "}"]) = Some (JObj o)).
  { rewrite E in Hp. rewrite parse_core in Hp by assumption. exact Hp. }
  assert (Hno' : includes fence (cu "{" :: mid ++ [cu "}"]) = false).
  { rewrite E in Hno. apply (includes_part _ _ _ _ Hno). }
  assert (Ef : fenced tagged w1 j w2 =
               fenced tagged (w1 ++ a) (cu "{" :: mid ++ [cu "}"]) (b ++ w2)).
  { unfold fenced. rewrite E. rewrite <- !app_assoc. reflexivity. }
  rewrite Ef. apply gemini_parse_fenced; auto.
  - rewrite forallb_app, H1. apply all_json_ws_is_space. exact Ha.
  - rewrite forallb_app, H2, (all_json_ws_is_space _ Hb). reflexivity.
Qed.

Lemma fenced_block_round_trip_witness :
  JSON_parse (dq " {'a': 1} ") = Some (JObj [(lit "a", JNum (lit "1"))]) /\
  includes fence (dq " {'a': 1} ") = false /\
  gemini_parse (fenced true [NL] (dq " {'a': 1} ") [NL]) =
    Ok (JObj [(lit "a", JNum (lit "1"))]) /\
  gemini_parse (fenced false [] (dq " {'a': 1} ") []) =
    Ok (JObj [(lit "a", JNum (lit "1"))]).
Proof.
  assert (Hp : JSON_parse (dq " {'a': 1} ") =
               Some (JObj [(lit "a", JNum (lit "1"))]))
    by (vm_compute; reflexivity).
  assert (Hno : includes fence (dq " {'a': 1} ") = false)
    by (vm_compute; reflexivity).
  split; [ exact Hp | split; [ exact Hno | split ] ].
  - apply (fenced_block_round_trip true [NL] _ [NL] _ Hp Hno);
      reflexivity.
  - apply (fenced_block_round_trip false [] _ [] _ Hp Hno);
      reflexivity.
Defined.

(** C5, as stated, fails: the object below has three backticks in a
    string. The parser reads it when it is given as it is, and fails on
    the same text inside a fenced block, where the lazy group stops at
    the backticks inside the string. *)
Lemma fenced_block_with_backticks_fails :
  JSON_parse (dq "{'a':'```'}") = Some (JObj [(lit "a", JStr fence)]) /\
  gemini_parse (dq "{'a':'```'}") = Ok (JObj [(lit "a", JStr fence)]) /\
  extract (fenced true [NL] (dq "{'a':'```'}") [NL]) = Ok (dq "{'a':'") /\
  gemini_parse (fenced true [NL] (dq "{'a':'```'}") [NL]) = Err JsonParseError.
Proof. repeat split; vm_compute; reflexivity. Qed.

End FencedBlock.

(** ** The blank-line pattern of [extractCleanText] *)

Section BlankLines.

Lemma take_drop_while p s : take_while p s ++ drop_while p s = s.
Proof.
  induction s as [ | x s IH]; simpl; [ reflexivity | ].
  destruct (p x); simpl; [ rewrite IH | ]; reflexivity.
Qed.

Lemma take_while_all p s : forallb p (take_while p s) = true.
Proof.
  induction s as [ | x s IH]; simpl; [ reflexivity | ].
  destruct (p x) eqn:E; simpl; [ rewrite E; exact IH | reflexivity ].
Qed.

Lemma drop_while_head s : head_not_space (drop_while is_space s).
Proof.
  induction s as [ | x s IH]; simpl; [ exact I | ].
  destruct (is_space x) eqn:E; [ exact IH | exact E ].
Qed.

Lemma head_not_space_not_newline u :
  head_not_space u ->
  match u with
  | [] => True
  | x :: _ => ch_eqb NL x = false
  end.
Proof.
  destruct u as [ | x u]; [ auto | ].
  intros H. change (is_space x = false) in H.
  destruct (ch_eqb NL x) eqn:E; [ | reflexivity ].
  apply ch_eqb_eq in E. subst x. discriminate.
Qed.

(** How the matcher runs one group. *)
Lemma run_blank_line (R : Type) u c (k : cont R) :
  run blank_line u c k =
  match u with
  | [] => None
  | x :: t =>
      if ch_eqb NL x
      then run (star ws) t c (fun s' c' => k s' ((1, consumed u s') :: c'))
      else None
  end.
Proof. destruct u; reflexivity. Qed.

(** The words of one group. *)
Lemma lang_blank_line p :
  lang blank_line p <-> exists q, p = NL :: q /\ forallb is_space q = true.
Proof.
  unfold blank_line, chr, star, ws. cbn [lang]. split.
  - intros (p1 & p2 & -> & (y & -> & Hy) & Hw).
    apply ch_eqb_eq in Hy. subst y. apply star_ws_all in Hw.
    exists p2. auto.
  - intros (q & -> & Hq). exists [NL], q. repeat split.
    + exists NL. split; reflexivity.
    + clear - Hq. induction q as [ | x q IH]; [ apply star_nil | ].
      simpl in Hq. apply andb_prop in Hq as [Hx Hq].
      apply (@star_cons _ [x] q); [ exists x; auto | discriminate | auto ].
Qed.

Lemma star_loop_greedy_stop (R : Type)
    (body : str -> caps -> cont R -> option R) (k : cont R) n u c :
  (forall k', body u c k' = None) -> star_loop true body k n u c = k u c.
Proof. intros H. destruct n; simpl; [ | rewrite H ]; reflexivity. Qed.

Variable s0 : str.

(** No further group starts where the white space has ended. *)
Lemma star_blank_line_stops u c :
  head_not_space u -> run (star blank_line) u c (accept s0) = Some (consumed s0 u, c).
Proof.
  intros H. apply head_not_space_not_newline in H.
  unfold star. cbn [run]. rewrite star_loop_greedy_stop; [ reflexivity | ].
  intros k'. rewrite run_blank_line.
  destruct u as [ | x u]; [ reflexivity | ]. rewrite H. reflexivity.
Qed.

(** The third group takes all the white space there is. *)
Lemma third_group_ends u c x :
  run blank_line u c
    (fun s' c' => run (star blank_line) s' c' (accept s0)) = Some x ->
  fst x = consumed s0 (drop_while is_space u).
Proof.
  rewrite run_blank_line. destruct u as [ | y t]; [ discriminate | ].
  destruct (ch_eqb NL y) eqn:Ey; [ | discriminate ].
  apply ch_eqb_eq in Ey. subst y.
  rewrite <- (take_drop_while is_space t) at 1.
  rewrite (run_star_ws_max _ _ (take_while is_space t) (drop_while is_space t)
             c (consumed s0 (drop_while is_space t),
                (1, consumed (NL :: t) (drop_while is_space t)) :: c)).
  - intros E. injection E as <-. reflexivity.
  - apply take_while_all.
  - apply drop_while_head.
  - apply star_blank_line_stops. apply drop_while_head.
Qed.

(** A group before a continuation that ends after the white space ends
    after the white space too. *)
Lemma group_ends_after_space (k : cont (str * caps)) :
  ends_after_space s0 k ->
  ends_after_space s0 (fun u c => run blank_line u c k).
Proof.
  intros Hk u c x H. apply run_sound in H as (p & u' & c' & -> & Hp & H).
  apply Hk in H. rewrite H. f_equal.
  apply lang_blank_line in Hp as (q & -> & Hq).
  symmetry. apply (drop_while_all is_space (NL :: q)).
  simpl. exact Hq.
Qed.

End BlankLines.

Section BlankLineReplace.

Lemma lang_re_blank_lines m :
  lang re_blank_lines m <->
  exists x1 x2 x3 x4,
    m = x1 ++ x2 ++ x3 ++ x4 /\
    lang blank_line x1 /\ lang blank_line x2 /\ lang blank_line x3 /\
    star_lang (lang blank_line) x4.
Proof.
  change re_blank_lines with (three_or_more blank_line).
  unfold three_or_more, star. cbn [lang]. split.
  - intros (x1 & r1 & -> & H1 & (x2 & r2 & -> & H2 & (x3 & x4 & -> & H3 & H4))).
    exists x1, x2, x3, x4. auto.
  - intros (x1 & x2 & x3 & x4 & -> & H1 & H2 & H3 & H4).
    exists x1, (x2 ++ x3 ++ x4). repeat split; auto.
    exists x2, (x3 ++ x4). repeat split; auto.
    exists x3, x4. auto.
Qed.

Lemma blank_line_single : lang blank_line [NL].
Proof. apply lang_blank_line. exists []. auto. Qed.

(** Three newlines in a row start a match. *)
Lemma blank_lines_triple t :
  match_at re_blank_lines (NL :: NL :: NL :: t) <> None.
Proof.
  apply (match_at_complete re_blank_lines [NL; NL; NL] t).
  apply lang_re_blank_lines. exists [NL], [NL], [NL], [].
  repeat split; auto using blank_line_single, star_nil.
Qed.

(** A newline before a match starts a match. *)
Lemma blank_lines_extend s :
  match_at re_blank_lines s <> None ->
  match_at re_blank_lines (NL :: s) <> None.
Proof.
  intros H. destruct (match_at re_blank_lines s) as [[m0 c] | ] eqn:E;
    [ clear H | congruence ].
  apply match_at_some_lang in E as (rest & -> & Hl).
  apply lang_re_blank_lines in Hl as (x1 & x2 & x3 & x4 & -> & H1 & H2 & H3 & H4).
  replace (NL :: (x1 ++ x2 ++ x3 ++ x4) ++ rest)
    with (([NL] ++ x1 ++ x2 ++ (x3 ++ x4)) ++ rest)
    by (simpl; rewrite <- !app_assoc; reflexivity).
  apply match_at_complete. apply lang_re_blank_lines.
  exists [NL], x1, x2, (x3 ++ x4). repeat split; auto using blank_line_single.
  apply star_cons; auto.
  apply lang_blank_line in H3 as (q & -> & _). discriminate.
Qed.

(** A match starts with a newline and is the white space that starts
    there, all of it. *)
Lemma blank_lines_match s m0 c :
  match_at re_blank_lines s = Some (m0, c) ->
  m0 = take_while is_space s /\ exists t, s = NL :: t.
Proof.
  intros H. split.
  - change re_blank_lines with (three_or_more blank_line) in H.
    unfold match_at, three_or_more in H. cbn [run] in H.
    pose proof (group_ends_after_space s _
                  (group_ends_after_space s _ (third_group_ends s))) as He.
    apply He in H. simpl fst in H. rewrite H.
    rewrite <- (take_drop_while is_space s) at 1. apply consumed_app.
  - apply match_at_some_lang in H as (rest & -> & Hl).
    apply lang_re_blank_lines in Hl as (x1 & x2 & x3 & x4 & -> & H1 & _).
    apply lang_blank_line in H1 as (q & -> & _).
    simpl. eauto.
Qed.

Lemma head_not_space_no_match u :
  head_not_space u -> match_at re_blank_lines u = None.
Proof.
  intros H. destruct (match_at re_blank_lines u) as [[m0 c] | ] eqn:E;
    [ | reflexivity ].
  apply blank_lines_match in E as [_ (t & ->)]. discriminate.
Qed.

Lemma replace_go_skip r rep m rest :
  replace_go r rep (m ++ rest) (length m) = replace_go r rep rest 0.
Proof. induction m as [ | x m IH]; simpl; auto. Qed.

Lemma replace_unmatched r rep x t :
  match_at r (x :: t) = None ->
  replace_all r rep (x :: t) = x :: replace_all r rep t.
Proof. intros H. unfold replace_all. simpl. rewrite H. reflexivity. Qed.

(** After a match the scan goes on where the white space ends. *)
Lemma replace_matched s m0 c :
  match_at re_blank_lines s = Some (m0, c) ->
  replace_all re_blank_lines two_newlines s =
  two_newlines ++
  replace_all re_blank_lines two_newlines (drop_while is_space s).
Proof.
  intros H. pose proof (blank_lines_match s m0 c H) as [Hm (t & ->)].
  unfold replace_all. cbn [replace_go]. rewrite H.
  assert (E : m0 = NL :: take_while is_space t) by (rewrite Hm; reflexivity).
  rewrite E. f_equal.
  rewrite <- (take_drop_while is_space t) at 1.
  rewrite replace_go_skip. reflexivity.
Qed.

Lemma leading_newlines_cons out : leading_newlines (NL :: out) = S (leading_newlines out).
Proof. reflexivity. Qed.

Lemma leading_newlines_other x out :
  ch_eqb NL x = false -> leading_newlines (x :: out) = 0.
Proof.
  intros H. unfold leading_newlines. cbn [take_while]. rewrite H. reflexivity.
Qed.

Lemma triple_after_other x out :
  ch_eqb NL x = false ->
  includes triple_newline (x :: out) = includes triple_newline out.
Proof.
  intros H. unfold triple_newline. cbn [includes startsWith]. rewrite H.
  reflexivity.
Qed.

Lemma triple_after_newline out :
  leading_newlines out <= 1 ->
  includes triple_newline (NL :: out) = includes triple_newline out.
Proof.
  intros H. unfold triple_newline at 1. cbn [includes].
  replace (startsWith [NL; NL; NL] (NL :: out)) with false; [ reflexivity | ].
  symmetry. cbn [startsWith]. change (ch_eqb NL NL) with true. cbn [andb].
  destruct out as [ | a [ | b out]]; try reflexivity.
  - cbn [startsWith]. rewrite andb_false_r. reflexivity.
  - destruct (ch_eqb NL a) eqn:Ea; [ | reflexivity ].
    destruct (ch_eqb NL b) eqn:Eb; [ | reflexivity ].
    apply ch_eqb_eq in Ea, Eb. subst a b.
    rewrite !leading_newlines_cons in H. lia.
Qed.

Lemma one_leading_newline s :
  1 <= leading_newlines s ->
  exists t, s = NL :: t /\ leading_newlines s = S (leading_newlines t).
Proof.
  destruct s as [ | a s]; [ unfold leading_newlines; simpl; lia | ].
  destruct (ch_eqb NL a) eqn:Ea.
  - apply ch_eqb_eq in Ea. subst a. eauto using leading_newlines_cons.
  - rewrite leading_newlines_other by assumption. lia.
Qed.

Lemma three_leading_newlines s :
  3 <= leading_newlines s -> exists t, s = NL :: NL :: NL :: t.
Proof.
  intros H.
  destruct (one_leading_newline s) as (t1 & -> & E1); [ lia | ].
  destruct (one_leading_newline t1) as (t2 & -> & E2); [ lia | ].
  destruct (one_leading_newline t2) as (t3 & -> & E3); [ lia | ].
  eauto.
Qed.

(** The replacement leaves no three newlines in a row; after a match it
    starts with exactly two, and where nothing matches it starts with
    the newlines of the text. *)
Lemma replace_blank_lines_invariant n :
  forall s, length s <= n ->
    includes triple_newline (replace_all re_blank_lines two_newlines s) = false /\
    (match_at re_blank_lines s = None ->
     leading_newlines (replace_all re_blank_lines two_newlines s) =
     leading_newlines s) /\
    (match_at re_blank_lines s <> None ->
     leading_newlines (replace_all re_blank_lines two_newlines s) = 2).
Proof.
  induction n as [ | n IH]; intros s Hn.
  - destruct s; [ | simpl in Hn; lia ].
    repeat split; auto. intros H. exfalso. apply H.
    apply head_not_space_no_match. exact I.
  - destruct (match_at re_blank_lines s) as [[m0 c] | ] eqn:E.
    + (* a match starts here *)
      pose proof (blank_lines_match s m0 c E) as [Hm (t & Hs)].
      rewrite (replace_matched s m0 c E).
      set (D := drop_while is_space s).
      assert (HD : head_not_space D) by apply drop_while_head.
      assert (Hlen : length D <= n).
      { pose proof (take_drop_while is_space s) as Hsplit.
        fold D in Hsplit. rewrite <- Hm in Hsplit.
        assert (length s = length m0 + length D)
          by (rewrite <- Hsplit at 1; apply length_app).
        assert (m0 <> []) by (rewrite Hm, Hs; discriminate).
        destruct m0; [ congruence | simpl in *; lia ]. }
      destruct (IH D Hlen) as (Hno & Hlead & _).
      specialize (Hlead (head_not_space_no_match D HD)).
      assert (H0 : leading_newlines D = 0).
      { destruct D as [ | x D']; [ reflexivity | ].
        apply leading_newlines_other.
        apply (head_not_space_not_newline (x :: D') HD). }
      rewrite H0 in Hlead.
      change (two_newlines ++ replace_all re_blank_lines two_newlines D)
        with (NL :: NL :: replace_all re_blank_lines two_newlines D).
      repeat split.
      * rewrite triple_after_newline
          by (rewrite leading_newlines_cons, Hlead; lia).
        rewrite triple_after_newline by (rewrite Hlead; lia).
        exact Hno.
      * intros Habs. discriminate.
      * intros _. rewrite !leading_newlines_cons, Hlead. reflexivity.
    + (* nothing matches here *)
      destruct s as [ | x t]; [ repeat split; auto; congruence | ].
      rewrite (replace_unmatched _ _ x t E).
      assert (Ht : length t <= n) by (simpl in Hn; lia).
      destruct (IH t Ht) as (Hno & Hlead & _).
      destruct (ch_eqb NL x) eqn:Ex.
      * apply ch_eqb_eq in Ex. subst x.
        assert (Et : match_at re_blank_lines t = None).
        { destruct (match_at re_blank_lines t) eqn:Et; [ | reflexivity ].
          exfalso. apply (blank_lines_extend t); congruence. }
        specialize (Hlead Et).
        assert (Hle : leading_newlines t <= 1).
        { destruct (Nat.le_gt_cases (leading_newlines t) 1) as [H | H]; [ exact H | ].
          exfalso.
          destruct (three_leading_newlines (NL :: t)) as (t' & Ht').
          - rewrite leading_newlines_cons. lia.
          - rewrite Ht' in E. apply (blank_lines_triple t'). exact E. }
        repeat split.
        -- rewrite triple_after_newline by lia. exact Hno.
        -- intros _. rewrite !leading_newlines_cons. congruence.
        -- congruence.
      * repeat split.
        -- rewrite triple_after_other by assumption. exact Hno.
        -- intros _. rewrite !leading_newlines_other by assumption. reflexivity.
        -- congruence.
Qed.

(** C9. Whatever the element, the text that [extractCleanText] returns
    has no three newline characters in a row. *)
Theorem extractCleanText_no_triple_newline :
  forall element : node,
    includes triple_newline (extractCleanText element) = false.
Proof.
  intros element. unfold extractCleanText.
  apply (replace_blank_lines_invariant
           (length (trim (block_texts element))) _ (Nat.le_refl _)).
Qed.

End BlankLineReplace.

(** ** The content extractor *)

Section ExtractorClaims.

(** C7. [extractArticle] fails with the error of a too short text exactly
    when the combined text, which is the title, two newlines and the
    body after the collapsing of newlines, has fewer than 500 characters
    once trimmed; with 500 or more that text, untrimmed, is what goes on
    to the generation. *)
Theorem content_too_short_iff :
  forall d : document,
    (extractArticle d = inl ContentTooShort <->
     exists d', stripNoise d = Some d' /\
                length (trim (fetchedContent d')) < 500) /\
    (forall d', stripNoise d = Some d' ->
       fetchedContent d' =
         extractTitle d' ++ two_newlines ++
         replace_all re_newlines two_newlines
           (if length (extractCleanText (bestElement d')) <? 300
            then trim (innerText (bestElement d'))
            else extractCleanText (bestElement d')) /\
       (500 <= length (trim (fetchedContent d')) ->
        extractArticle d = inr (fetchedContent d'))).
Proof.
  intros d. unfold extractArticle.
  destruct (stripNoise d) as [d' | ].
  - split.
    + destruct (Nat.ltb_spec (length (trim (fetchedContent d'))) 500) as [H | H].
      * split; [ intros _; exists d'; auto | reflexivity ].
      * split; [ discriminate | ].
        intros (d'' & E & Hlt). injection E as <-. lia.
    + intros d'' E. injection E as <-. split; [ reflexivity | ].
      intros H. apply Nat.ltb_ge in H. rewrite H. reflexivity.
  - split.
    + split; [ discriminate | intros (d' & E & _); discriminate ].
    + intros d' E. discriminate.
Qed.

Example gold_page_strip : stripNoise gold_page = Some gold_page_stripped.
Proof. reflexivity. Qed.

Example gold_page_too_short : extractArticle gold_page = inl ContentTooShort.
Proof. vm_compute. reflexivity. Qed.

Example long_page_passes :
  exists text, extractArticle long_page = inr text /\ length text = 564.
Proof. eexists. split; vm_compute; reflexivity. Qed.

Lemma Qgtb_lt a b : Qgtb a b = true <-> (b < a)%Q.
Proof.
  unfold Qgtb. rewrite negb_true_iff. split.
  - intros H. apply Qnot_le_lt. intros Hle.
    apply Qle_bool_iff in Hle. congruence.
  - intros H. destruct (Qle_bool a b) eqn:E; [ | reflexivity ].
    apply Qle_bool_iff in E. exfalso. apply (Qlt_not_le _ _ H E).
Qed.

(** The order of binary64 values.  The comparison looks at the sign,
    then at the exponent, then at the mantissa; the cases are gone
    through one by one. *)
Ltac compare_cases :=
  repeat match goal with
  | H : context [Z.compare ?a ?b] |- _ => destruct (Z.compare_spec a b)
  | |- context [Z.compare ?a ?b] => destruct (Z.compare_spec a b)
  | H : context [Pos.compare_cont Eq ?a ?b] |- _ =>
      change (Pos.compare_cont Eq a b) with (Pos.compare a b) in *;
      destruct (Pos.compare_spec a b)
  | |- context [Pos.compare_cont Eq ?a ?b] =>
      change (Pos.compare_cont Eq a b) with (Pos.compare a b) in *;
      destruct (Pos.compare_spec a b)
  end.

Ltac order_by_cases :=
  unfold num_gt, num_ge, SFltb, SFleb, SFcompare in *;
  try discriminate; try reflexivity;
  compare_cases; cbn in *; try discriminate; try reflexivity; try lia.

Lemma num_gt_trans (a b c : number) :
  num_gt a b = true -> num_gt b c = true -> num_gt a c = true.
Proof.
  intros H1 H2.
  destruct a as [[ | ] | [ | ] | | [ | ] ma ea],
           b as [[ | ] | [ | ] | | [ | ] mb eb],
           c as [[ | ] | [ | ] | | [ | ] mc ec]; order_by_cases.
Qed.

Lemma num_gt_ge_trans (a b c : number) :
  num_gt a b = true -> num_ge b c = true -> num_gt a c = true.
Proof.
  intros H1 H2.
  destruct a as [[ | ] | [ | ] | | [ | ] ma ea],
           b as [[ | ] | [ | ] | | [ | ] mb eb],
           c as [[ | ] | [ | ] | | [ | ] mc ec]; order_by_cases.
Qed.

Lemma num_ge_gt_trans (a b c : number) :
  num_ge a b = true -> num_gt b c = true -> num_gt a c = true.
Proof.
  intros H1 H2.
  destruct a as [[ | ] | [ | ] | | [ | ] ma ea],
           b as [[ | ] | [ | ] | | [ | ] mb eb],
           c as [[ | ] | [ | ] | | [ | ] mc ec]; order_by_cases.
Qed.

Lemma num_gt_ge (a b : number) : num_gt a b = true -> num_ge a b = true.
Proof.
  intros H1.
  destruct a as [[ | ] | [ | ] | | [ | ] ma ea],
           b as [[ | ] | [ | ] | | [ | ] mb eb]; order_by_cases.
Qed.

Lemma num_gt_not_ge (a b : number) : num_gt a b = true -> num_ge b a = false.
Proof.
  intros H1.
  destruct a as [[ | ] | [ | ] | | [ | ] ma ea],
           b as [[ | ] | [ | ] | | [ | ] mb eb]; order_by_cases.
Qed.

Lemma num_gt_asym (a b : number) : num_gt a b = true -> num_gt b a = false.
Proof.
  intros H. destruct (num_gt b a) eqn:E; [ | reflexivity ].
  apply num_gt_ge in E. rewrite (num_gt_not_ge a b H) in E. discriminate.
Qed.

Lemma num_gt_irrefl (a : number) : num_gt a a = false.
Proof.
  destruct (num_gt a a) eqn:E; [ | reflexivity ].
  pose proof (num_gt_asym a a E). congruence.
Qed.

Lemma noise_scores_sentinel e :
  is_noise e = true -> calculateScore e = num_of_Z (-100).
Proof. intros H. unfold calculateScore. rewrite H. reflexivity. Qed.

Lemma sentinel_below_start : num_gt (num_of_Z (-1)) (num_of_Z (-100)) = true.
Proof. vm_compute. reflexivity. Qed.

(** One round of the selection: the best score never goes below -1 and
    the best element changes only to a candidate that is not noise. *)
Lemma consider_keeps best e :
  num_ge (snd best) (num_of_Z (-1)) = true ->
  num_ge (snd (consider best e)) (num_of_Z (-1)) = true /\
  (consider best e = best \/
   (fst (consider best e) = e /\ is_noise e = false)).
Proof.
  intros Hb. unfold consider.
  destruct (num_gt (calculateScore e) (snd best)) eqn:G.
  - pose proof (num_gt_ge_trans _ _ _ G Hb) as Hgt.
    cbn [fst snd]. split; [ apply num_gt_ge; exact Hgt | ].
    right. split; [ reflexivity | ].
    destruct (is_noise e) eqn:N; [ | reflexivity ].
    rewrite (noise_scores_sentinel e N) in Hgt.
    rewrite (num_gt_asym _ _ sentinel_below_start) in Hgt. discriminate.
  - auto.
Qed.

Lemma selection_keeps l :
  forall best,
    num_ge (snd best) (num_of_Z (-1)) = true ->
    fold_left consider l best = best \/
    (In (fst (fold_left consider l best)) l /\
     is_noise (fst (fold_left consider l best)) = false).
Proof.
  induction l as [ | e l IH]; intros best Hb; [ left; reflexivity | ].
  simpl fold_left.
  destruct (consider_keeps best e Hb) as [Hb' Hstep].
  destruct (IH (consider best e) Hb') as [E | [Hin Hn]].
  - rewrite E. destruct Hstep as [E' | [E' Hn]].
    + left. exact E'.
    + right. rewrite E'. split; [ left; reflexivity | exact Hn ].
  - right. split; [ right; exact Hin | exact Hn ].
Qed.

(** The selection returns the body it started with, or a candidate whose
    class and id do not match the noise vocabulary. *)
Lemma bestElement_cases d :
  bestElement d = doc_body d \/
  (In (bestElement d) (elementsToScore d) /\ is_noise (bestElement d) = false).
Proof.
  unfold bestElement, selectBest.
  destruct (selection_keeps (elementsToScore d) (doc_body d, num_of_Z (-1)))
    as [E | H].
  - vm_compute. reflexivity.
  - left. rewrite E. reflexivity.
  - right. exact H.
Qed.

(** The body is no result of the candidate query: its tag is [body]. *)
Lemma body_is_no_candidate d :
  ~ In (doc_body d) (doc_querySelectorAll sel_candidates d).
Proof.
  unfold doc_querySelectorAll. intros H.
  apply filter_In in H as [_ H]. discriminate.
Qed.

Lemma elementsToScore_cases d :
  elementsToScore d = [doc_body d] \/
  elementsToScore d = doc_querySelectorAll sel_candidates d.
Proof.
  unfold elementsToScore.
  destruct (doc_querySelectorAll sel_candidates d); auto.
Qed.

(** Whenever some candidate is not noise, the selection returns no
    candidate that is. *)
Lemma selection_skips_noise d :
  (exists c, In c (elementsToScore d) /\ is_noise c = false) ->
  In (bestElement d) (elementsToScore d) ->
  is_noise (bestElement d) = false.
Proof.
  intros (c & Hc & Hn) Hin.
  destruct (bestElement_cases d) as [E | [_ H]]; [ | exact H ].
  rewrite E in *.
  destruct (elementsToScore_cases d) as [Hl | Hl]; rewrite Hl in *.
  - destruct Hc as [<- | []]. exact Hn.
  - exfalso. apply (body_is_no_candidate d Hin).
Qed.

(** C8. In a document where some candidate does not match the noise
    vocabulary and has a paragraph with more than 25 characters that are
    not white space, the selection never returns a candidate that
    matches the vocabulary: such a candidate scores -100, which is not
    above a best score that starts at -1 and only grows. *)
Theorem noise_candidate_never_selected :
  forall d : document,
    (exists c, In c (elementsToScore d) /\ is_noise c = false /\
               has_long_paragraph c) ->
    ~ (In (bestElement d) (elementsToScore d) /\
       is_noise (bestElement d) = true).
Proof.
  intros d (c & Hc & Hn & _) [Hin Hnoise].
  rewrite (selection_skips_noise d) in Hnoise; [ discriminate | | exact Hin ].
  exists c. auto.
Qed.

Lemma noise_candidate_never_selected_witness :
  (exists c, In c (elementsToScore mixed_page) /\ is_noise c = false /\
             has_long_paragraph c) /\
  In sidebar_block (elementsToScore mixed_page) /\
  is_noise sidebar_block = true /\
  bestElement mixed_page = gold_article /\
  ~ (In (bestElement mixed_page) (elementsToScore mixed_page) /\
     is_noise (bestElement mixed_page) = true).
Proof.
  assert (H : exists c, In c (elementsToScore mixed_page) /\
                        is_noise c = false /\ has_long_paragraph c).
  { exists gold_article.
    split; [ right; left; reflexivity | split; [ reflexivity | ] ].
    exists gold_paragraph. split; [ left; reflexivity | ].
    vm_compute. lia. }
  split; [ exact H | ].
  split; [ left; reflexivity | ].
  split; [ reflexivity | ].
  split; [ vm_compute; reflexivity | ].
  apply (noise_candidate_never_selected mixed_page H).
Defined.

End ExtractorClaims.

(* ================================================================== *)
(** * Further properties of the code *)
(* ================================================================== *)

(** ** The validator: ranges, fields, values that are no objects *)

Section ValidatorMore.

Lemma array_ok_within arr lo hi lo' hi' :
  lo' <= lo -> hi <= hi' ->
  array_ok arr lo hi true = true -> array_ok arr lo' hi' true = true.
Proof.
  intros Hlo Hhi H.
  apply array_ok_required in H as (items & -> & [H1 H2] & Hall).
  unfold array_ok. rewrite Hall.
  assert (E1 : (lo' <=? length items) = true) by (apply Nat.leb_le; lia).
  assert (E2 : (length items <=? hi') = true) by (apply Nat.leb_le; lia).
  rewrite E1, E2. reflexivity.
Qed.

Lemma core_ok_within p q data :
  policy_within p q -> core_ok p data = true -> core_ok q data = true.
Proof.
  intros (H1 & H2 & H3 & H4 & H5 & H6). unfold core_ok.
  rewrite !andb_true_iff. intros (Hp & Hs & Hl & Hc).
  repeat split; eauto using array_ok_within.
Qed.

(** X1. Widening the ranges of the three required categories never
    turns an accepted answer into a refused one: what a policy accepts,
    every policy whose ranges contain its ranges accepts. The three
    revisions of the ranges are nested in this way. *)
Theorem wider_policy_accepts_more p q data :
  policy_within p q ->
  validateKeywordResultWith p data = true ->
  validateKeywordResultWith q data = true.
Proof.
  intros Hpq. rewrite !validateKeywordResultWith_answer.
  rewrite !andb_true_iff. intros [Hobj Hcore].
  split; [ exact Hobj | ]. exact (core_ok_within p q _ Hpq Hcore).
Qed.

Lemma wider_policy_accepts_more_witness :
  policy_within policy_strict policy_modern /\
  policy_within policy_modern policy_flexible /\
  validateKeywordResultWith policy_strict strict_sample = true /\
  validateKeywordResultWith policy_flexible strict_sample = true.
Proof.
  assert (H1 : policy_within policy_strict policy_modern)
    by (unfold policy_within; simpl; lia).
  assert (H2 : policy_within policy_modern policy_flexible)
    by (unfold policy_within; simpl; lia).
  assert (H3 : validateKeywordResultWith policy_strict strict_sample = true)
    by (vm_compute; reflexivity).
  split; [ exact H1 | split; [ exact H2 | split; [ exact H3 | ] ] ].
  apply (wider_policy_accepts_more policy_modern policy_flexible);
    [ exact H2 | ].
  apply (wider_policy_accepts_more policy_strict policy_modern);
    [ exact H1 | exact H3 ].
Defined.

Lemma core_ok_same_required pol f g :
  same_required f g ->
  core_ok pol (Some (JObj f)) = core_ok pol (Some (JObj g)).
Proof.
  intros H. unfold core_ok, prop.
  rewrite (H "primary"%string), (H "secondary"%string),
          (H "longtail"%string), (H "competitorInsights"%string)
    by (simpl; auto).
  reflexivity.
Qed.

Lemma answer_same_required pol f g :
  same_required f g ->
  validateKeywordResultWith pol (JObj f) = validateKeywordResultWith pol (JObj g).
Proof.
  intros H. rewrite !validateKeywordResultWith_answer.
  rewrite (core_ok_same_required pol f g H). reflexivity.
Qed.

(** X2. The answer of the validator depends on four properties of the
    object only: [primary], [secondary], [longtail] and
    [competitorInsights]. Two objects that agree on them get the same
    answer, whatever else they hold. *)
Theorem validator_reads_required_fields_only pol f g :
  same_required f g ->
  validateKeywordResultWith pol (JObj f) = validateKeywordResultWith pol (JObj g).
Proof. apply answer_same_required. Qed.

Lemma validator_reads_required_fields_only_witness :
  same_required minimal_fields
    (minimal_fields ++ [(lit "lsiKeywords", JArr [blank_item])]) /\
  validateKeywordResultWith policy_flexible minimal =
  validateKeywordResultWith policy_flexible bad_lsi.
Proof.
  assert (H : same_required minimal_fields
                (minimal_fields ++ [(lit "lsiKeywords", JArr [blank_item])])).
  { intros k Hk. simpl in Hk.
    destruct Hk as [<- | [<- | [<- | [<- | []]]]]; reflexivity. }
  split; [ exact H | ].
  exact (validator_reads_required_fields_only policy_flexible _ _ H).
Defined.

(** X3. An answer whose parsed value is not a plain object (null, a
    boolean, a number, a string or an array) is refused under every
    policy, and [generateKeywords] throws on it.  For [null] the message
    of the refusal cannot be built, [primary] being read from it: the
    [TypeError] of the [try] block leaves the [catch] block as the
    generic error.  For the rest the error about the keyword counts is
    thrown again as it is. *)
Theorem non_object_is_refused pol p responseText data :
  gemini_parse responseText = Ok data ->
  (forall fields, data <> JObj fields) ->
  validateKeywordResultWith pol data = false /\
  generateKeywords_try p responseText =
    match data with
    | JNull => Err TypeErrorThrown
    | _ => Err InvalidKeywordCounts
    end /\
  generateKeywords p responseText =
    match data with
    | JNull => Err GenericFailure
    | _ => Err InvalidKeywordCounts
    end.
Proof.
  intros Hp Hno.
  assert (H : forall pol', validateKeywordResultWith pol' data = false).
  { intros pol'.
    destruct (validateKeywordResultWith pol' data) eqn:E; [ | reflexivity ].
    apply accepted_is_object in E as [fields ->].
    exfalso. apply (Hno fields). reflexivity. }
  split; [ apply H | ].
  unfold generateKeywords, generateKeywords_try. rewrite Hp.
  cbn [Parser.and_then]. unfold gemini_validate, validateKeywordResult.
  rewrite H. cbn [negb].
  destruct data; split; reflexivity.
Qed.

Lemma non_object_is_refused_witness :
  validateKeywordResultWith policy_flexible JNull = false /\
  generateKeywords_try sample_provenance (fenced true [NL] (lit "null") [NL]) =
    Err TypeErrorThrown /\
  generateKeywords sample_provenance (fenced true [NL] (lit "null") [NL]) =
    Err GenericFailure.
Proof.
  apply (non_object_is_refused policy_flexible sample_provenance
           (fenced true [NL] (lit "null") [NL]) JNull).
  - vm_compute. reflexivity.
  - intros fields. discriminate.
Defined.

End ValidatorMore.

(** ** The result of [generateKeywords] *)

Section ResultMore.

Lemma str_eqb_refl k : str_eqb k k = true.
Proof. apply str_eqb_eq. reflexivity. Qed.

Lemma str_eqb_neq a b : a <> b -> str_eqb a b = false.
Proof.
  intros H. destruct (str_eqb a b) eqn:E; [ | reflexivity ].
  apply str_eqb_eq in E. contradiction.
Qed.

Lemma lookup_obj_set_same k v fields :
  lookup k (obj_set k v fields) = Some v.
Proof.
  induction fields as [ | [k0 v0] rest IH]; simpl.
  - rewrite str_eqb_refl. reflexivity.
  - destruct (str_eqb k k0) eqn:E; simpl; rewrite E; [ reflexivity | exact IH ].
Qed.

Lemma with_provenance_same_required p fields rf :
  with_provenance p (JObj fields) = JObj rf -> same_required rf fields.
Proof.
  unfold with_provenance, own_props. intros E. injection E as <-.
  intros k Hk. simpl in Hk.
  destruct Hk as [<- | [<- | [<- | [<- | []]]]];
    rewrite !lookup_obj_set_other; reflexivity.
Qed.

(** X4. What [generateKeywords] returns. The parsed answer is a plain
    object that the validator accepted; the result holds the caller's
    [searchReferences], [contentType] and [detectedLanguage], also when
    the model sent properties of these names; every other property is
    the model's, unchanged; and the result passes the validator again. *)
Theorem generateKeywords_result p responseText r :
  generateKeywords p responseText = Ok r ->
  exists fields rf,
    gemini_parse responseText = Ok (JObj fields) /\
    validateKeywordResult (JObj fields) = true /\
    r = JObj rf /\
    lookup (lit "searchReferences") rf = Some (JArr (groundingChunks p)) /\
    lookup (lit "contentType") rf = Some (JStr (contentType p)) /\
    lookup (lit "detectedLanguage") rf = Some (JStr (detectedLanguage p)) /\
    (forall k, ~ In k (map lit provenance_fields) ->
               lookup k rf = lookup k fields) /\
    validateKeywordResult r = true.
Proof.
  unfold generateKeywords, generateKeywords_try. intros H.
  destruct (gemini_parse responseText) as [parsed | e] eqn:Hp;
    cbn [Parser.and_then] in H; [ | discriminate ].
  unfold gemini_validate in H.
  destruct (validateKeywordResult parsed) eqn:Hv; cbn [negb] in H.
  2: { destruct parsed; discriminate. }
  injection H as <-.
  destruct (accepted_is_object _ _ Hv) as [fields ->].
  exists fields. eexists. split; [ reflexivity | ].
  split; [ exact Hv | ]. split; [ reflexivity | ].
  cbn [own_props].
  split; [ | split; [ | split; [ | split ] ] ].
  - rewrite !lookup_obj_set_other by reflexivity.
    apply lookup_obj_set_same.
  - rewrite lookup_obj_set_other by reflexivity.
    apply lookup_obj_set_same.
  - apply lookup_obj_set_same.
  - intros k Hk. simpl in Hk.
    rewrite !lookup_obj_set_other; [ reflexivity | | | ];
      apply str_eqb_neq; intros ->; apply Hk; auto.
  - unfold validateKeywordResult in *. rewrite <- Hv.
    apply answer_same_required.
    apply (with_provenance_same_required p). reflexivity.
Qed.

Lemma generateKeywords_result_witness :
  exists fields rf,
    gemini_parse minimal_text = Ok (JObj fields) /\
    validateKeywordResult (JObj fields) = true /\
    minimal_result = JObj rf /\
    lookup (lit "searchReferences") rf =
      Some (JArr (groundingChunks sample_provenance)) /\
    lookup (lit "contentType") rf =
      Some (JStr (contentType sample_provenance)) /\
    lookup (lit "detectedLanguage") rf =
      Some (JStr (detectedLanguage sample_provenance)) /\
    (forall k, ~ In k (map lit provenance_fields) ->
               lookup k rf = lookup k fields) /\
    validateKeywordResult minimal_result = true.
Proof.
  apply (generateKeywords_result sample_provenance minimal_text minimal_result).
  vm_compute. reflexivity.
Defined.

End ResultMore.

(** ** [cleanup]: what follows the last closing brace *)

Section CleanupMore.

Lemma lastIndexOf_none c s :
  lastIndexOf c s = None <-> free_of (ch_eqb c) s.
Proof.
  unfold free_of. induction s as [ | x s IH]; simpl; [ tauto | ].
  destruct (lastIndexOf c s) as [i | ].
  - split; [ discriminate | ]. intros H. apply andb_prop in H as [_ H].
    apply IH in H. discriminate.
  - unfold ch_eqb at 2. rewrite (N.eqb_sym c x). fold (ch_eqb x c).
    destruct (ch_eqb x c); simpl; [ split; discriminate | ].
    split; intros _; [ apply IH; reflexivity | reflexivity ].
Qed.

Lemma lastIndexOf_last c u v :
  free_of (ch_eqb c) v -> lastIndexOf c (u ++ c :: v) = Some (length u).
Proof.
  intros Hv. apply lastIndexOf_none in Hv.
  induction u as [ | x u IH]; simpl.
  - rewrite Hv. unfold ch_eqb. rewrite N.eqb_refl. reflexivity.
  - rewrite IH. reflexivity.
Qed.

(** A text with the character [c] splits at its last [c]. *)
Lemma split_at_last c s :
  In c s -> exists u v, s = u ++ c :: v /\ free_of (ch_eqb c) v.
Proof.
  induction s as [ | x s IH]; intros Hin; [ destruct Hin | ].
  destruct (lastIndexOf c s) as [i | ] eqn:E.
  - assert (Hs : In c s).
    { clear IH Hin. revert i E. induction s as [ | y s IH]; intros i E;
        [ discriminate | ].
      simpl in E. destruct (lastIndexOf c s) as [j | ] eqn:Ej.
      - right. eapply IH. reflexivity.
      - destruct (ch_eqb y c) eqn:Ey; [ | discriminate ].
        apply ch_eqb_eq in Ey. left. exact Ey. }
    destruct (IH Hs) as (u & v & -> & Hv).
    exists (x :: u), v. auto.
  - apply lastIndexOf_none in E. destruct Hin as [-> | Hin].
    + exists [], s. auto.
    + exfalso. unfold free_of in E. rewrite forallb_forall in E.
      specialize (E c Hin). unfold ch_eqb in E. rewrite N.eqb_refl in E.
      discriminate.
Qed.

(** A text is its trimmed part between two runs of white space. *)
Lemma trimEnd_decompose s :
  exists w, s = trimEnd s ++ w /\ forallb is_space w = true.
Proof.
  unfold trimEnd. exists (rev (take_while is_space (rev s))). split.
  - rewrite <- rev_app_distr, take_drop_while, rev_involutive. reflexivity.
  - rewrite forallb_forall. intros x Hx. apply in_rev in Hx.
    pose proof (take_while_all is_space (rev s)) as H.
    rewrite forallb_forall in H. auto.
Qed.

Lemma trim_decompose s :
  exists w1 w2, s = w1 ++ trim s ++ w2 /\
                forallb is_space w1 = true /\ forallb is_space w2 = true.
Proof.
  unfold trim, trimStart.
  destruct (trimEnd_decompose (drop_while is_space s)) as (w2 & E & H2).
  exists (take_while is_space s), w2. split; [ | split ].
  - rewrite <- E. symmetry. apply take_drop_while.
  - apply take_while_all.
  - exact H2.
Qed.

Lemma trimmed_head x t : trim (x :: t) = x :: t -> is_space x = false.
Proof.
  intros E. destruct (trim_shape (x :: t)) as [H | (y & t' & H & Hy)];
    rewrite E in H; [ discriminate | ].
  injection H as -> _. exact Hy.
Qed.

Lemma trimmed_prefix c u v :
  is_space c = false ->
  trim (u ++ c :: v) = u ++ c :: v -> trim (u ++ [c]) = u ++ [c].
Proof.
  intros Hc E. destruct u as [ | x u].
  - simpl. unfold trim, trimStart.
    rewrite drop_while_stop by assumption.
    apply (trimEnd_snoc [] c Hc).
  - apply trimmed_head in E. apply trim_fixed; assumption.
Qed.

Lemma cleanup_split u v :
  trim (u ++ cu "}" :: v) = u ++ cu "}" :: v ->
  free_of (ch_eqb (cu "}")) v ->
  cleanup (u ++ cu "}" :: v) = u ++ [cu "}"].
Proof.
  intros Ht Hv. unfold cleanup. rewrite Ht.
  rewrite (lastIndexOf_last _ u v Hv).
  rewrite length_app. cbn [length].
  destruct v as [ | y v].
  - assert (E : (length u <? length u + 1 - 1) = false)
      by (apply Nat.ltb_ge; lia).
    cbn [length]. rewrite E. reflexivity.
  - assert (E : (length u <? length u + S (length (y :: v)) - 1) = true)
      by (apply Nat.ltb_lt; cbn [length]; lia).
    rewrite E. unfold substring0.
    change (u ++ cu "}" :: y :: v) with (u ++ [cu "}"] ++ y :: v).
    rewrite app_assoc.
    replace (length u + 1) with (length (u ++ [cu "}"]))
      by (rewrite length_app; reflexivity).
    rewrite firstn_app, firstn_all, Nat.sub_diag. simpl.
    apply app_nil_r.
Qed.

Lemma cleanup_trim s : cleanup s = cleanup (trim s).
Proof. unfold cleanup. rewrite trim_idem. reflexivity. Qed.

Lemma cleanup_without_brace s :
  free_of (ch_eqb (cu "}")) (trim s) -> cleanup s = trim s.
Proof.
  intros H. apply lastIndexOf_none in H. unfold cleanup. rewrite H.
  reflexivity.
Qed.

Lemma cleanup_cases s :
  (free_of (ch_eqb (cu "}")) (trim s) /\ cleanup s = trim s) \/
  exists u v, trim s = u ++ cu "}" :: v /\ free_of (ch_eqb (cu "}")) v /\
              cleanup s = u ++ [cu "}"].
Proof.
  destruct (lastIndexOf (cu "}") (trim s)) as [i | ] eqn:E.
  - right.
    assert (Hin : In (cu "}") (trim s)).
    { destruct (in_dec N.eq_dec (cu "}") (trim s)) as [Hin | Hno];
        [ exact Hin | exfalso ].
      assert (Hf : free_of (ch_eqb (cu "}")) (trim s)).
      { unfold free_of. rewrite forallb_forall. intros x Hx.
        destruct (ch_eqb (cu "}") x) eqn:Ex; [ | reflexivity ].
        apply ch_eqb_eq in Ex. subst x. contradiction. }
      apply lastIndexOf_none in Hf. congruence. }
    destruct (split_at_last _ _ Hin) as (u & v & Hs & Hv).
    exists u, v. split; [ exact Hs | split; [ exact Hv | ] ].
    rewrite cleanup_trim, Hs. apply cleanup_split; [ | exact Hv ].
    rewrite <- Hs. apply trim_idem.
  - left. apply lastIndexOf_none in E. split; [ exact E | ].
    apply cleanup_without_brace. exact E.
Qed.

(** X5. [cleanup] is idempotent: cleaning a cleaned text changes
    nothing. *)
Theorem cleanup_idempotent s : cleanup (cleanup s) = cleanup s.
Proof.
  destruct (cleanup_cases s) as [[Hf ->] | (u & v & Hs & Hv & ->)].
  - rewrite <- cleanup_trim. apply cleanup_without_brace. exact Hf.
  - apply (cleanup_split u []); [ | reflexivity ].
    apply (trimmed_prefix (cu "}") u v); [ reflexivity | ].
    rewrite <- Hs. apply trim_idem.
Qed.

(** X6. When the text has a closing brace, [cleanup] gives the trimmed
    text up to its last closing brace, this brace included: the result
    ends with a brace and nothing but text without a brace is cut. *)
Theorem cleanup_cuts_after_last_brace s :
  In (cu "}") s ->
  exists u v,
    trim s = u ++ cu "}" :: v /\ ~ In (cu "}") v /\
    cleanup s = u ++ [cu "}"].
Proof.
  intros Hin.
  destruct (cleanup_cases s) as [[Hf _] | (u & v & Hs & Hv & Hc)].
  - exfalso. destruct (trim_decompose s) as (w1 & w2 & E & H1 & H2).
    rewrite E in Hin. rewrite !in_app_iff in Hin.
    unfold free_of in Hf. rewrite forallb_forall in H1, H2, Hf.
    destruct Hin as [Hin | [Hin | Hin]].
    + apply H1 in Hin. discriminate.
    + apply Hf in Hin. unfold ch_eqb in Hin. rewrite N.eqb_refl in Hin.
      discriminate.
    + apply H2 in Hin. discriminate.
  - exists u, v. split; [ exact Hs | split; [ | exact Hc ] ].
    intros Hv'. unfold free_of in Hv. rewrite forallb_forall in Hv.
    apply Hv in Hv'. unfold ch_eqb in Hv'. rewrite N.eqb_refl in Hv'.
    discriminate.
Qed.

Lemma cleanup_cuts_after_last_brace_witness :
  exists u v,
    trim (lit " {} thanks ") = u ++ cu "}" :: v /\ ~ In (cu "}") v /\
    cleanup (lit " {} thanks ") = u ++ [cu "}"].
Proof.
  apply (cleanup_cuts_after_last_brace (lit " {} thanks ")).
  simpl. auto.
Defined.

End CleanupMore.

(** ** A JSON object inside prose *)

Section GreedyFacts.

Variable R : Type.

Lemma greedy_any_none (body : str -> caps -> cont R -> option R)
    (k : cont R) c :
  (forall c k', body [] c k' = None) ->
  (forall y t c k', body (y :: t) c k' = k' t c) ->
  forall n t,
    (forall t1 t2, t = t1 ++ t2 -> k t2 c = None) ->
    star_loop true body k n t c = None.
Proof.
  intros Hnil Hcons. induction n as [ | n IH]; intros t Hnone.
  - simpl. apply (Hnone [] t). reflexivity.
  - assert (H0 : k t c = None) by (apply (Hnone [] t); reflexivity).
    destruct t as [ | y t]; simpl.
    + rewrite Hnil. exact H0.
    + rewrite Hcons.
      assert (Hlt : (length t <? S (length t)) = true)
        by (apply Nat.ltb_lt; lia).
      rewrite Hlt. rewrite IH; [ exact H0 | ].
      intros t1 t2 E. apply (Hnone (y :: t1) t2). rewrite E. reflexivity.
Qed.

(** A greedy run of any characters stops at the last place where what
    follows accepts. *)
Lemma greedy_any_last (body : str -> caps -> cont R -> option R)
    (k : cont R) B c x :
  (forall c k', body [] c k' = None) ->
  (forall y t c k', body (y :: t) c k' = k' t c) ->
  k B c = Some x ->
  (forall B1 B2, B = B1 ++ B2 -> B1 <> [] -> k B2 c = None) ->
  forall A n, length (A ++ B) <= n ->
              star_loop true body k n (A ++ B) c = Some x.
Proof.
  intros Hnil Hcons Hk Hnone. induction A as [ | a A IH]; intros n Hn.
  - simpl app. destruct n as [ | n]; simpl; [ exact Hk | ].
    destruct B as [ | y B].
    + rewrite Hnil. exact Hk.
    + rewrite Hcons. cbn [length].
      assert (Hlt : (length B <? S (length B)) = true)
        by (apply Nat.ltb_lt; lia).
      rewrite Hlt. rewrite (greedy_any_none body k c Hnil Hcons);
        [ exact Hk | ].
      intros t1 t2 E. apply (Hnone (y :: t1) t2);
        [ rewrite E; reflexivity | discriminate ].
  - destruct n as [ | n]; [ simpl in Hn; lia | ].
    simpl. rewrite Hcons.
    assert (Hlt : (length (A ++ B) <? S (length (A ++ B))) = true)
      by (apply Nat.ltb_lt; lia).
    rewrite Hlt. rewrite IH; [ reflexivity | simpl in Hn; lia ].
Qed.

Lemma run_greedy_any_last (k : cont R) A B c x :
  k B c = Some x ->
  (forall B1 B2, B = B1 ++ B2 -> B1 <> [] -> k B2 c = None) ->
  run (star any) (A ++ B) c k = Some x.
Proof.
  intros Hk Hnone. unfold star. cbn [run].
  apply greedy_any_last; auto.
Qed.

End GreedyFacts.

Section ProseMore.

Lemma free_of_app p a b :
  free_of p (a ++ b) <-> free_of p a /\ free_of p b.
Proof. unfold free_of. rewrite forallb_app, andb_true_iff. tauto. Qed.

Lemma free_of_In p s c : free_of p s -> In c s -> p c = false.
Proof.
  unfold free_of. rewrite forallb_forall. intros H Hc.
  apply H in Hc. destruct (p c); [ discriminate | reflexivity ].
Qed.

Lemma space_free_of c w :
  is_space c = false -> forallb is_space w = true -> free_of (ch_eqb c) w.
Proof.
  intros Hc Hw. unfold free_of. rewrite forallb_forall in *.
  intros x Hx. destruct (ch_eqb c x) eqn:E; [ | reflexivity ].
  apply ch_eqb_eq in E. subst x. apply Hw in Hx. congruence.
Qed.

Lemma trimEnd_mid l z r :
  is_space z = false -> trimEnd (l ++ z :: r) = l ++ z :: trimEnd r.
Proof.
  intros Hz. unfold trimEnd.
  rewrite rev_app_distr. simpl rev. rewrite <- app_assoc. simpl app.
  rewrite drop_while_mid by assumption.
  rewrite rev_app_distr. simpl rev. rewrite rev_involutive.
  rewrite <- app_assoc. reflexivity.
Qed.

Lemma drop_while_nil p l : drop_while p l = [] -> forallb p l = true.
Proof.
  induction l as [ | x l IH]; simpl; [ reflexivity | ].
  destruct (p x); [ exact IH | discriminate ].
Qed.

(** Trimming a text around a part that starts and ends with something
    else than white space. *)
Lemma trim_around P x mid z Q :
  is_space x = false -> is_space z = false ->
  trim (P ++ (x :: mid ++ [z]) ++ Q) =
  drop_while is_space P ++ (x :: mid ++ [z]) ++ trimEnd Q.
Proof.
  intros Hx Hz. unfold trim, trimStart.
  simpl app. rewrite drop_while_mid by assumption.
  replace (drop_while is_space P ++ x :: (mid ++ [z]) ++ Q)
    with ((drop_while is_space P ++ x :: mid) ++ z :: Q)
    by (rewrite <- !app_assoc; reflexivity).
  rewrite trimEnd_mid by assumption.
  rewrite <- !app_assoc. reflexivity.
Qed.

(** The fenced-block pattern needs a fence. *)
Lemma code_block_needs_fence s :
  includes fence s = false -> search re_code_block s = None.
Proof.
  intros H. destruct (search re_code_block s) as [m | ] eqn:E;
    [ exfalso | reflexivity ].
  apply search_from_some in E as (a & b & Es & Hl & _).
  unfold re_code_block in Hl. cbn [lang] in Hl.
  destruct Hl as (s1 & s2 & Em & H1 & _).
  apply lang_word in H1.
  assert (Ht : includes fence s = true).
  { rewrite Es, Em, H1. apply includes_intro.
    rewrite <- !app_assoc. apply startsWith_app. }
  congruence.
Qed.

Lemma search_from_skip r P rest :
  (forall y t, In y P -> match_at r (y :: t) = None) ->
  forall i, search_from r i (P ++ rest) = search_from r (i + length P) rest.
Proof.
  intros Hno. induction P as [ | y P IH]; intros i.
  - simpl. rewrite Nat.add_0_r. reflexivity.
  - cbn [app search_from]. rewrite Hno by (left; reflexivity).
    rewrite IH by (intros; apply Hno; right; assumption).
    cbn [length]. rewrite Nat.add_succ_r. reflexivity.
Qed.

Lemma search_from_here r i s m0 c :
  match_at r s = Some (m0, c) ->
  search_from r i s = Some {| m_index := i; m_0 := m0; m_caps := c |}.
Proof. intros H. destruct s; simpl; rewrite H; reflexivity. Qed.

Lemma object_no_match y t :
  ch_eqb (cu "{") y = false -> match_at re_object (y :: t) = None.
Proof.
  intros H. unfold match_at, re_object, chr. cbn [run]. rewrite H.
  reflexivity.
Qed.

(** The object pattern on a text that starts with a brace: the match
    ends with the last closing brace. *)
Lemma object_match mid Q :
  free_of (ch_eqb (cu "}")) Q ->
  match_at re_object ((cu "{" :: mid ++ [cu "}"]) ++ Q) =
  Some (cu "{" :: mid ++ [cu "}"], []).
Proof.
  intros HQ. unfold match_at, re_object.
  set (S0 := (cu "{" :: mid ++ [cu "}"]) ++ Q).
  cbn [run]. unfold S0 at 1. unfold chr at 1. cbn [app].
  change (ch_eqb (cu "{") (cu "{")) with true.
  rewrite <- app_assoc.
  apply run_greedy_any_last.
  - unfold chr. cbn [run app]. change (ch_eqb (cu "}") (cu "}")) with true.
    unfold accept, S0. rewrite consumed_app. reflexivity.
  - intros B1 B2 E HB1. destruct B1 as [ | b B1]; [ congruence | ].
    cbn [app] in E. injection E as _ E.
    unfold chr. cbn [run]. destruct B2 as [ | y B2]; [ reflexivity | ].
    assert (Hy : ch_eqb (cu "}") y = false).
    { apply (free_of_In _ Q y HQ). rewrite E. apply in_or_app. right.
      left. reflexivity. }
    rewrite Hy. reflexivity.
Qed.

(** The trimmed answer and what the strategies take from it, for an
    object between prose without braces and without a fence. *)
Lemma extract_in_prose pre j post o :
  JSON_parse j = Some (JObj o) ->
  free_of (ch_eqb (cu "{")) pre ->
  free_of (ch_eqb (cu "}")) post ->
  includes fence (pre ++ j ++ post) = false ->
  exists core,
    JSON_parse core = Some (JObj o) /\ cleanup core = core /\
    trim (pre ++ j ++ post) <> [] /\
    ((forallb is_space pre = true /\
      exists jsonText,
        extract (trim (pre ++ j ++ post)) = Ok jsonText /\
        cleanup jsonText = core) \/
     (forallb is_space pre = false /\
      extract (trim (pre ++ j ++ post)) = Ok core)).
Proof.
  intros Hp Hpre Hpost Hfence.
  destruct (object_text_shape j o Hp) as (a & mid & b & Ej & Ha & Hb).
  set (core := cu "{" :: mid ++ [cu "}"]) in *.
  assert (Hcore : JSON_parse core = Some (JObj o)).
  { rewrite Ej in Hp. rewrite parse_core in Hp by assumption. exact Hp. }
  apply all_json_ws_is_space in Ha, Hb.
  set (P := pre ++ a). set (Q := b ++ post).
  assert (Es : pre ++ j ++ post = P ++ core ++ Q).
  { unfold P, Q. rewrite Ej. rewrite <- !app_assoc. reflexivity. }
  assert (HP : free_of (ch_eqb (cu "{")) P).
  { apply free_of_app. split; [ exact Hpre | ].
    apply space_free_of; [ reflexivity | exact Ha ]. }
  assert (HQ : free_of (ch_eqb (cu "}")) Q).
  { apply free_of_app. split; [ | exact Hpost ].
    apply space_free_of; [ reflexivity | exact Hb ]. }
  assert (Et : trim (pre ++ j ++ post) =
               drop_while is_space P ++ core ++ trimEnd Q).
  { rewrite Es. apply trim_around; reflexivity. }
  destruct (trimEnd_decompose Q) as (w2 & EQ & Hw2).
  assert (HQ' : free_of (ch_eqb (cu "}")) (trimEnd Q)).
  { rewrite EQ in HQ. apply free_of_app in HQ. tauto. }
  destruct (drop_while_suffix is_space P) as (w1 & EP).
  assert (HP' : free_of (ch_eqb (cu "{")) (drop_while is_space P)).
  { rewrite EP in HP. apply free_of_app in HP. tauto. }
  exists core. split; [ exact Hcore | ].
  split; [ apply cleanup_braced | ].
  split.
  { rewrite Et. unfold core. destruct (drop_while is_space P); discriminate. }
  destruct (forallb is_space pre) eqn:Hsp.
  - left. split; [ reflexivity | ].
    assert (E0 : drop_while is_space P = []).
    { unfold P. rewrite drop_while_all by assumption.
      rewrite <- (app_nil_r a). rewrite drop_while_all by assumption.
      reflexivity. }
    rewrite E0 in Et.
    change ([] ++ core ++ trimEnd Q) with (core ++ trimEnd Q) in Et.
    assert (Et2 : trim (pre ++ j ++ post) =
                  (cu "{" :: mid) ++ cu "}" :: trimEnd Q).
    { rewrite Et. unfold core. simpl. rewrite <- app_assoc. reflexivity. }
    exists (trim (pre ++ j ++ post)). split.
    + rewrite Et. reflexivity.
    + rewrite Et2.
      change core with ((cu "{" :: mid) ++ [cu "}"]).
      apply cleanup_split; [ | exact HQ' ].
      rewrite <- Et2. apply trim_idem.
  - right. split; [ reflexivity | ].
    assert (Hne : drop_while is_space P <> []).
    { unfold P. intros E0.
      pose proof (drop_while_nil is_space (pre ++ a) E0) as Hall.
      rewrite forallb_app in Hall. apply andb_prop in Hall as [Hall _].
      congruence. }
    rewrite Et.
    destruct (drop_while is_space P) as [ | x P'] eqn:EP';
      [ congruence | ].
    assert (Hx : ch_eqb (cu "{") x = false).
    { apply (free_of_In _ _ x HP'). left. reflexivity. }
    unfold extract.
    assert (Hs1 : startsWith (lit "{") ((x :: P') ++ core ++ trimEnd Q) = false).
    { cbn [app]. change (lit "{") with [cu "{"]. cbn [startsWith].
      rewrite Hx. reflexivity. }
    rewrite Hs1.
    assert (Hs2 : search re_code_block ((x :: P') ++ core ++ trimEnd Q) = None).
    { apply code_block_needs_fence. rewrite <- Et.
      destruct (trim_decompose (pre ++ j ++ post)) as (u1 & u2 & Eu & _).
      rewrite Eu in Hfence. apply includes_part in Hfence. exact Hfence. }
    rewrite Hs2. cbn [match_and_group1]. unfold strategy_3_4, search.
    rewrite search_from_skip.
    2: { intros y t Hy. apply object_no_match.
         apply (free_of_In _ _ y HP'). exact Hy. }
    rewrite (search_from_here re_object _ _ core [] (object_match mid _ HQ')).
    reflexivity.
Qed.

(** X7. The Gemini parser finds a JSON object inside prose. When the
    answer is a text that [JSON.parse] reads as an object, with text
    before it that has no opening brace and text behind it that has no
    closing brace, and there is no code fence, the parser gives
    the object: by strategy 1 and the cut after the last brace when only
    white space precedes it, by strategy 3 otherwise. *)
Theorem gemini_reads_object_in_prose pre j post o :
  JSON_parse j = Some (JObj o) ->
  free_of (ch_eqb (cu "{")) pre ->
  free_of (ch_eqb (cu "}")) post ->
  includes fence (pre ++ j ++ post) = false ->
  gemini_parse (pre ++ j ++ post) = Ok (JObj o).
Proof.
  intros Hp Hpre Hpost Hfence.
  destruct (extract_in_prose pre j post o Hp Hpre Hpost Hfence)
    as (core & Hcore & Hclean & Hne & Hcases).
  unfold gemini_parse. rewrite trim_idem.
  destruct (trim (pre ++ j ++ post)) as [ | x t] eqn:Et; [ congruence | ].
  destruct Hcases as [(_ & jsonText & -> & Hc) | (_ & ->)];
    cbn [Parser.and_then]; unfold parse_json.
  - rewrite Hc, Hcore. reflexivity.
  - rewrite Hclean, Hcore. reflexivity.
Qed.

Lemma gemini_reads_object_in_prose_witness :
  gemini_parse (lit "Sure: " ++ minimal_text ++ lit " Hope it helps.") =
  Ok minimal.
Proof.
  apply (gemini_reads_object_in_prose (lit "Sure: ") minimal_text
           (lit " Hope it helps.") minimal_fields);
    vm_compute; reflexivity.
Defined.

(** X8. The OpenAI parser has no cut after the last brace. It gives the
    object under the same conditions when the text before it has
    something else than white space, so that strategy 3 takes the span
    between the braces. *)
Theorem openai_reads_object_after_prose pre j post o :
  JSON_parse j = Some (JObj o) ->
  free_of (ch_eqb (cu "{")) pre ->
  free_of (ch_eqb (cu "}")) post ->
  includes fence (pre ++ j ++ post) = false ->
  forallb is_space pre = false ->
  openai_parse (pre ++ j ++ post) = Ok (JObj o).
Proof.
  intros Hp Hpre Hpost Hfence Hsp.
  destruct (extract_in_prose pre j post o Hp Hpre Hpost Hfence)
    as (core & Hcore & _ & Hne & Hcases).
  unfold openai_parse.
  destruct (pre ++ j ++ post) as [ | x t] eqn:Es; [ contradiction | ].
  destruct Hcases as [(Hsp' & _) | (_ & ->)]; [ congruence | ].
  cbn [Parser.and_then]. unfold parse_json. rewrite Hcore. reflexivity.
Qed.

Lemma openai_reads_object_after_prose_witness :
  openai_parse (lit "Sure: " ++ minimal_text ++ lit " Hope it helps.") =
  Ok minimal.
Proof.
  apply (openai_reads_object_after_prose (lit "Sure: ") minimal_text
           (lit " Hope it helps.") minimal_fields);
    vm_compute; reflexivity.
Defined.

End ProseMore.

(** ** The removal of noise elements *)

Section PruneMore.

Lemma node_ind_list (P : node -> Prop) :
  (forall t, P (Text t)) ->
  (forall tag attrs children,
     Forall P children -> P (Element tag attrs children)) ->
  forall n, P n.
Proof.
  intros HT HE. fix IH 1. intros [t | tag attrs children].
  - apply HT.
  - apply HE. induction children as [ | c cs IHcs]; constructor.
    + apply IH.
    + exact IHcs.
Qed.

Lemma prune_Element sel tag attrs children :
  prune sel (Element tag attrs children) =
  Element tag attrs
    (map (prune sel) (filter (fun c => negb (sel c)) children)).
Proof.
  cbn [prune]. f_equal.
  induction children as [ | c cs IH]; [ reflexivity | ].
  cbn [filter]. destruct (sel c); cbn [negb map]; rewrite IH; reflexivity.
Qed.

Lemma sel_noise_local tag attrs cs cs' :
  sel_noise (Element tag attrs cs) = sel_noise (Element tag attrs cs').
Proof. reflexivity. Qed.

Lemma sel_noise_prune n : sel_noise (prune sel_noise n) = sel_noise n.
Proof.
  destruct n as [t | tag attrs cs]; [ reflexivity | ].
  rewrite prune_Element. apply sel_noise_local.
Qed.

Lemma subtree_cases m n :
  In m (subtree n) -> m = n \/ In m (descendants n).
Proof.
  destruct n as [t | tag attrs cs]; cbn [subtree descendants];
    [ intros [] | ].
  intros [H | H]; auto.
Qed.

(** Below a pruned element nothing is left that the selector names. *)
Lemma prune_clean n :
  forall m, In m (descendants (prune sel_noise n)) -> sel_noise m = false.
Proof.
  induction n as [t | tag attrs cs IH] using node_ind_list; intros m Hm.
  - destruct Hm.
  - rewrite prune_Element in Hm. cbn [descendants] in Hm.
    apply in_flat_map in Hm as (c' & Hc' & Hm).
    apply in_map_iff in Hc' as (c & <- & Hc).
    apply filter_In in Hc as [Hc Hsel].
    apply negb_true_iff in Hsel.
    rewrite Forall_forall in IH.
    apply subtree_cases in Hm as [-> | Hm].
    + rewrite sel_noise_prune. exact Hsel.
    + apply (IH c Hc). exact Hm.
Qed.

Lemma stripNoise_body d d' :
  stripNoise d = Some d' ->
  sel_noise (doc_body d) = false /\
  doc_body d' = prune sel_noise (doc_body d) /\
  doc_title d' = doc_title d.
Proof.
  unfold stripNoise. destruct (sel_noise (doc_body d)) eqn:E;
    [ discriminate | ].
  unfold doc_body at 1. rewrite prune_Element.
  intros H. injection H as <-. split; [ reflexivity | ].
  split; [ | reflexivity ].
  unfold doc_body at 2. rewrite prune_Element. reflexivity.
Qed.

(** X9. After the removal of [App.tsx:129] the document has no
    [script], [style], [nav], [header], [footer], [aside], [form],
    [noscript] or [svg] element and no element with
    [aria-hidden="true"], at any depth: the selector finds nothing. *)
Theorem stripNoise_leaves_no_noise d d' :
  stripNoise d = Some d' -> doc_querySelectorAll sel_noise d' = [].
Proof.
  intros H. apply stripNoise_body in H as (Hb & Eb & _).
  unfold doc_querySelectorAll.
  assert (Hall : forall m, In m (subtree (doc_body d')) -> sel_noise m = false).
  { intros m Hm. apply subtree_cases in Hm as [-> | Hm].
    - rewrite Eb, sel_noise_prune. exact Hb.
    - rewrite Eb in Hm. apply (prune_clean _ _ Hm). }
  induction (subtree (doc_body d')) as [ | x l IH]; [ reflexivity | ].
  cbn [filter]. rewrite (Hall x) by (left; reflexivity).
  apply IH. intros m Hm. apply Hall. right. exact Hm.
Qed.

Lemma stripNoise_leaves_no_noise_witness :
  doc_querySelectorAll sel_noise gold_page_stripped = [].
Proof.
  apply (stripNoise_leaves_no_noise gold_page gold_page_stripped).
  reflexivity.
Defined.

End PruneMore.

(** ** The selection of the best element *)

Section SelectionMore.

Lemma Qgtb_le a b : Qgtb a b = false <-> (a <= b)%Q.
Proof.
  unfold Qgtb. rewrite negb_false_iff. apply Qle_bool_iff.
Qed.

(** The loop over the candidates.  The score it ends with is the one
    it started with or a greater one; no score it has seen is greater
    than it; and the element it ends with, when it is not the one it
    started with, is the first whose score is the final one: no element
    before it has a score greater than or equal to that. *)
Lemma fold_consider l :
  forall b0 s0,
    (snd (fold_left consider l (b0, s0)) = s0 \/
     num_gt (snd (fold_left consider l (b0, s0))) s0 = true) /\
    (forall c, In c l ->
       num_gt (calculateScore c) (snd (fold_left consider l (b0, s0))) = false) /\
    (fold_left consider l (b0, s0) = (b0, s0) \/
     exists l1 b l2,
       l = l1 ++ b :: l2 /\
       fold_left consider l (b0, s0) = (b, calculateScore b) /\
       num_gt (calculateScore b) s0 = true /\
       forall c, In c l1 ->
         num_ge (calculateScore c) (calculateScore b) = false).
Proof.
  induction l as [ | e l IH]; intros b0 s0.
  - simpl. split; [ left; reflexivity | ]. split; [ intros c [] | auto ].
  - cbn [fold_left].
    destruct (num_gt (calculateScore e) s0) eqn:E.
    + assert (Ec : consider (b0, s0) e = (e, calculateScore e))
        by (unfold consider; cbn [snd]; rewrite E; reflexivity).
      rewrite Ec.
      destruct (IH e (calculateScore e)) as (H1 & H2 & H3).
      split; [ | split ].
      * right. destruct H1 as [H1 | H1]; [ rewrite H1; exact E | ].
        apply (num_gt_trans _ _ _ H1 E).
      * intros c [<- | Hc]; [ | apply H2; exact Hc ].
        destruct H1 as [H1 | H1];
          [ rewrite H1; apply num_gt_irrefl | apply num_gt_asym; exact H1 ].
      * right. destruct H3 as [H3 | (l1 & b & l2 & El & Ef & Hgt & Hl1)].
        -- exists [], e, l. split; [ reflexivity | ].
           split; [ exact H3 | ]. split; [ exact E | intros c [] ].
        -- exists (e :: l1), b, l2. split; [ rewrite El; reflexivity | ].
           split; [ exact Ef | ].
           split; [ apply (num_gt_trans _ _ _ Hgt E) | ].
           intros c [<- | Hc]; [ | apply Hl1; exact Hc ].
           apply num_gt_not_ge. exact Hgt.
    + assert (Ec : consider (b0, s0) e = (b0, s0))
        by (unfold consider; cbn [snd]; rewrite E; reflexivity).
      rewrite Ec.
      destruct (IH b0 s0) as (H1 & H2 & H3).
      split; [ exact H1 | split ].
      * intros c [<- | Hc]; [ | apply H2; exact Hc ].
        destruct H1 as [H1 | H1]; [ rewrite H1; exact E | ].
        destruct (num_gt (calculateScore e)
                    (snd (fold_left consider l (b0, s0)))) eqn:G;
          [ | reflexivity ].
        rewrite (num_gt_trans _ _ _ G H1) in E. discriminate.
      * destruct H3 as [H3 | (l1 & b & l2 & El & Ef & Hgt & Hl1)];
          [ left; exact H3 | right ].
        exists (e :: l1), b, l2. split; [ rewrite El; reflexivity | ].
        split; [ exact Ef | ]. split; [ exact Hgt | ].
        intros c [<- | Hc]; [ | apply Hl1; exact Hc ].
        destruct (num_ge (calculateScore e) (calculateScore b)) eqn:G;
          [ | reflexivity ].
        rewrite (num_ge_gt_trans _ _ _ G Hgt) in E. discriminate.
Qed.

(** X10. The selection of [App.tsx:133-145], with the comparisons the
    program makes on its binary64 scores.  No scored element has a score
    greater than the final [bestScore], which is -1 at least.  Either the
    body is kept with the score -1, or the chosen element is a scored
    one, the final score is its score, above -1, and no element scored
    before it has a score greater than or equal to it: among equal
    scores the first in document order wins. *)
Theorem selectBest_first_maximum d :
  (forall c, In c (elementsToScore d) ->
     num_gt (calculateScore c) (snd (selectBest d)) = false) /\
  num_ge (snd (selectBest d)) (num_of_Z (-1)) = true /\
  (selectBest d = (doc_body d, num_of_Z (-1)) \/
   exists l1 l2,
     elementsToScore d = l1 ++ bestElement d :: l2 /\
     snd (selectBest d) = calculateScore (bestElement d) /\
     num_gt (calculateScore (bestElement d)) (num_of_Z (-1)) = true /\
     forall c, In c l1 ->
       num_ge (calculateScore c) (calculateScore (bestElement d)) = false).
Proof.
  unfold bestElement, selectBest.
  destruct (fold_consider (elementsToScore d) (doc_body d) (num_of_Z (-1)))
    as (H1 & H2 & H3).
  split; [ exact H2 | split ].
  - destruct H1 as [H1 | H1]; [ rewrite H1; vm_compute; reflexivity | ].
    apply num_gt_ge. exact H1.
  - destruct H3 as [H3 | (l1 & b & l2 & El & Ef & Hgt & Hl1)];
      [ left; exact H3 | right ].
    rewrite Ef. cbn [fst snd]. exists l1, l2. auto.
Qed.

End SelectionMore.

(** ** From the fetched text to the manual submission *)

Section SubmitMore.

(** X11. A text that the fetching half stores as the article always
    passes the two checks of [handleSubmit]: it is not blank and its
    trimmed length is 500 at least. *)
Theorem fetched_article_passes_submit d text :
  extractArticle d = inr text -> submit_check text = None.
Proof.
  unfold extractArticle, submit_check.
  destruct (stripNoise d) as [d' | ]; [ | discriminate ].
  destruct (length (trim (fetchedContent d')) <? 500) eqn:E;
    [ discriminate | ].
  intros H. injection H as <-.
  destruct (trim (fetchedContent d')) as [ | x t] eqn:Et.
  - discriminate.
  - rewrite E. reflexivity.
Qed.

Lemma fetched_article_passes_submit_witness :
  submit_check (fetchedContent long_page) = None.
Proof.
  apply (fetched_article_passes_submit long_page (fetchedContent long_page)).
  vm_compute. reflexivity.
Defined.

End SubmitMore.

(** ** The collapsing of line breaks, [App.tsx:154] *)

Section BreakRuns.

Lemma is_break_cases x : is_break x = true <-> x = CR \/ x = NL.
Proof.
  unfold is_break. rewrite orb_true_iff, !ch_eqb_eq. tauto.
Qed.

Lemma is_break_CR x : ch_eqb CR x = true -> is_break x = true.
Proof. intros H. apply ch_eqb_eq in H. subst x. reflexivity. Qed.

Lemma is_break_NL x : ch_eqb NL x = true -> is_break x = true.
Proof. intros H. apply ch_eqb_eq in H. subst x. reflexivity. Qed.

Lemma not_break x :
  ch_eqb CR x = false -> ch_eqb NL x = false -> is_break x = false.
Proof.
  intros H1 H2. destruct (is_break x) eqn:E; [ | reflexivity ].
  apply is_break_cases in E as [-> | ->]; discriminate.
Qed.

(** A successful run of the group read one or two line breaks and went
    on with what follows. *)
Lemma run_break_token_some (k : cont (str * caps)) u c r :
  run break_token u c k = Some r ->
  exists x t, u = x :: t /\ is_break x = true /\
    ((exists c', k t c' = Some r) \/
     (exists y v c', t = y :: v /\ is_break y = true /\ k v c' = Some r)).
Proof.
  unfold break_token, chr. cbn [run].
  destruct u as [ | x t]; [ discriminate | ].
  intros H. exists x, t. split; [ reflexivity | ].
  destruct (ch_eqb CR x) eqn:Ex; destruct (ch_eqb NL x) eqn:En.
  - apply ch_eqb_eq in Ex, En. subst x. discriminate.
  - split; [ apply is_break_CR; exact Ex | ].
    destruct t as [ | y v]; cbn [orelse] in H; [ left; eauto | ].
    destruct (ch_eqb NL y) eqn:Ey; cbn [orelse] in H; [ | left; eauto ].
    destruct (k v ((1, consumed (x :: y :: v) v) :: c)) as [r' | ] eqn:Ek;
      cbn [orelse] in H.
    + injection H as <-. right. exists y, v. eexists.
      split; [ reflexivity | ]. split; [ apply is_break_NL; exact Ey | ].
      exact Ek.
    + left. eauto.
  - split; [ apply is_break_NL; exact En | ].
    cbn [orelse] in H.
    destruct (k t ((1, consumed (x :: t) t) :: c)) as [r' | ] eqn:Ek;
      cbn [orelse] in H; [ | discriminate ].
    injection H as <-. left. eauto.
  - discriminate.
Qed.

(** A run of the group on a line break fails only when what follows
    fails behind the break. *)
Lemma run_break_token_none (k : cont (str * caps)) x t c :
  is_break x = true ->
  run break_token (x :: t) c k = None -> exists c', k t c' = None.
Proof.
  unfold break_token, chr. cbn [run]. intros Hx H.
  destruct (ch_eqb CR x) eqn:Ex; destruct (ch_eqb NL x) eqn:En.
  - apply ch_eqb_eq in Ex, En. subst x. discriminate.
  - destruct (match t with
              | [] => None
              | x0 :: t0 =>
                  if ch_eqb NL x0
                  then k t0 ((1, consumed (x :: t) t0) :: c)
                  else None
              end); cbn [orelse] in H; [ discriminate | eauto ].
  - cbn [orelse] in H.
    destruct (k t ((1, consumed (x :: t) t) :: c)) eqn:Ek;
      cbn [orelse] in H; [ discriminate | eauto ].
  - rewrite (not_break x Ex En) in Hx. discriminate.
Qed.

Lemma star_accept_total (body : str -> caps -> cont (str * caps) -> option (str * caps))
    s0 n u c :
  star_loop true body (accept s0) n u c <> None.
Proof.
  destruct n; cbn [star_loop].
  - cbn [orelse]. unfold accept. discriminate.
  - match goal with
    | |- orelse ?a _ <> None => destruct a as [r | ] eqn:E
    end; cbn [orelse]; unfold accept; discriminate.
Qed.

Lemma leading_breaks_break x t :
  is_break x = true -> leading_breaks (x :: t) = S (leading_breaks t).
Proof.
  intros H. unfold leading_breaks. cbn [take_while]. rewrite H. reflexivity.
Qed.

Lemma leading_breaks_other x t :
  is_break x = false -> leading_breaks (x :: t) = 0.
Proof.
  intros H. unfold leading_breaks. cbn [take_while]. rewrite H. reflexivity.
Qed.

Lemma drop_breaks_cons x t :
  is_break x = true -> drop_while is_break (x :: t) = drop_while is_break t.
Proof. intros H. cbn [drop_while]. rewrite H. reflexivity. Qed.

(** The greedy loop over the group ends where the line breaks end. *)
Lemma star_breaks_end s0 n :
  forall u c r,
    length u <= n ->
    star_loop true (run break_token) (accept s0) n u c = Some r ->
    fst r = consumed s0 (drop_while is_break u).
Proof.
  induction n as [ | n IH]; intros u c r Hn H.
  - destruct u; [ | simpl in Hn; lia ].
    cbn in H. injection H as <-. reflexivity.
  - cbn [star_loop] in H.
    match type of H with
    | orelse ?a _ = _ => destruct a as [r' | ] eqn:Eb
    end; cbn [orelse] in H.
    + injection H as <-.
      apply run_break_token_some in Eb
        as (x & t & -> & Hx & [(c' & Hk) | (y & v & c' & -> & Hy & Hk)]);
        cbv beta in Hk.
      * assert (Hlt : (length t <? length (x :: t)) = true)
          by (apply Nat.ltb_lt; simpl; lia).
        rewrite Hlt in Hk. rewrite drop_breaks_cons by assumption.
        apply (IH t c'); [ simpl in Hn; lia | exact Hk ].
      * assert (Hlt : (length v <? length (x :: y :: v)) = true)
          by (apply Nat.ltb_lt; simpl; lia).
        rewrite Hlt in Hk. rewrite !drop_breaks_cons by assumption.
        apply (IH v c'); [ simpl in Hn; lia | exact Hk ].
    + unfold accept in H. injection H as <-. cbn [fst].
      destruct u as [ | x t]; [ reflexivity | ].
      destruct (is_break x) eqn:Hx.
      * exfalso. apply run_break_token_none in Eb as (c' & Hk);
          [ | exact Hx ].
        cbv beta in Hk.
        assert (Hlt : (length t <? length (x :: t)) = true)
          by (apply Nat.ltb_lt; simpl; lia).
        rewrite Hlt in Hk. exact (star_accept_total _ _ _ _ _ Hk).
      * cbn [drop_while]. rewrite Hx. reflexivity.
Qed.

Lemma break_token_then s0 (k : cont (str * caps)) :
  ends_after_breaks s0 k ->
  ends_after_breaks s0 (fun u c => run break_token u c k).
Proof.
  intros Hk u c r H.
  apply run_break_token_some in H
    as (x & t & -> & Hx & [(c' & H) | (y & v & c' & -> & Hy & H)]).
  - rewrite drop_breaks_cons by assumption. exact (Hk _ _ _ H).
  - rewrite !drop_breaks_cons by assumption. exact (Hk _ _ _ H).
Qed.

Lemma lang_break_token p : lang break_token p -> 1 <= length p.
Proof.
  cbn [lang break_token chr].
  intros [(s1 & s2 & -> & (x & -> & _) & _) | [(x & -> & _) | (x & -> & _)]];
    simpl; lia.
Qed.

Lemma break_token_single x : is_break x = true -> lang break_token [x].
Proof.
  intros H. apply is_break_cases in H as [-> | ->]; cbn [lang break_token chr].
  - right. right. exists CR. auto.
  - right. left. exists NL. auto.
Qed.

(** What the pattern matches: all the line breaks the text starts
    with, and three of them at least. *)
Lemma newlines_match s m0 c :
  match_at re_newlines s = Some (m0, c) ->
  m0 = take_while is_break s /\ 3 <= leading_breaks s.
Proof.
  intros H.
  assert (Hm : m0 = take_while is_break s).
  { assert (K3 : ends_after_breaks s
                   (fun u c => run (star break_token) u c (accept s))).
    { intros u c0 r Hr. unfold star in Hr. cbn [run] in Hr.
      apply (star_breaks_end s (length u) u c0 r (le_n _) Hr). }
    pose proof (break_token_then s _
                 (break_token_then s _ (break_token_then s _ K3))) as K0.
    specialize (K0 s [] (m0, c) H). cbn [fst] in K0. rewrite K0.
    rewrite <- (take_drop_while is_break s) at 1.
    apply consumed_app. }
  split; [ exact Hm | ].
  apply match_at_some_lang in H as (rest & _ & Hl).
  unfold leading_breaks. rewrite <- Hm.
  change re_newlines with (three_or_more break_token) in Hl.
  unfold three_or_more in Hl. cbn [lang] in Hl.
  destruct Hl as (s1 & r1 & -> & H1 & s2 & r2 & -> & H2 & s3 & r3 & -> & H3 & _).
  apply lang_break_token in H1, H2, H3.
  rewrite !length_app. lia.
Qed.

Lemma one_leading_break s :
  1 <= leading_breaks s ->
  exists x t, s = x :: t /\ is_break x = true /\
              leading_breaks s = S (leading_breaks t).
Proof.
  destruct s as [ | x t]; [ unfold leading_breaks; simpl; lia | ].
  destruct (is_break x) eqn:Hx.
  - intros _. exists x, t. auto using leading_breaks_break.
  - rewrite leading_breaks_other by assumption. lia.
Qed.

Lemma newlines_complete s :
  3 <= leading_breaks s -> match_at re_newlines s <> None.
Proof.
  intros H.
  destruct (one_leading_break s) as (x & t1 & -> & Hx & E1); [ lia | ].
  destruct (one_leading_break t1) as (y & t2 & -> & Hy & E2); [ lia | ].
  destruct (one_leading_break t2) as (z & t3 & -> & Hz & E3); [ lia | ].
  apply (match_at_complete re_newlines [x; y; z] t3).
  change re_newlines with (three_or_more break_token).
  unfold three_or_more. cbn [lang].
  exists [x], [y; z]. split; [ reflexivity | ].
  split; [ apply break_token_single; exact Hx | ].
  exists [y], [z]. split; [ reflexivity | ].
  split; [ apply break_token_single; exact Hy | ].
  exists [z], []. split; [ reflexivity | ].
  split; [ apply break_token_single; exact Hz | apply star_nil ].
Qed.

Lemma newlines_unmatched s :
  leading_breaks s < 3 -> match_at re_newlines s = None.
Proof.
  intros H. destruct (match_at re_newlines s) as [[m0 c] | ] eqn:E;
    [ | reflexivity ].
  apply newlines_match in E as [_ E]. lia.
Qed.

(** After a match the scan goes on where the line breaks end. *)
Lemma replace_newlines_matched s :
  3 <= leading_breaks s ->
  replace_all re_newlines two_newlines s =
  two_newlines ++
  replace_all re_newlines two_newlines (drop_while is_break s).
Proof.
  intros H3.
  destruct (match_at re_newlines s) as [[m0 c] | ] eqn:H;
    [ | exfalso; exact (newlines_complete s H3 H) ].
  pose proof (newlines_match s m0 c H) as [Hm _].
  destruct (one_leading_break s) as (x & t & -> & Hx & _); [ lia | ].
  unfold replace_all. cbn [replace_go]. rewrite H.
  assert (E : m0 = x :: take_while is_break t).
  { rewrite Hm. cbn [take_while]. rewrite Hx. reflexivity. }
  rewrite E. f_equal. rewrite drop_breaks_cons by assumption.
  rewrite <- (take_drop_while is_break t) at 1.
  rewrite replace_go_skip. reflexivity.
Qed.

Lemma drop_while_length p (l : str) : length (drop_while p l) <= length l.
Proof.
  induction l as [ | x l IH]; simpl; [ lia | ].
  destruct (p x); simpl; lia.
Qed.

Lemma leading_breaks_dropped s : leading_breaks (drop_while is_break s) = 0.
Proof.
  induction s as [ | x s IH]; [ reflexivity | ].
  cbn [drop_while]. destruct (is_break x) eqn:E; [ exact IH | ].
  apply leading_breaks_other. exact E.
Qed.

Lemma has_three_breaks_cons x t :
  has_three_breaks (x :: t) =
  (3 <=? leading_breaks (x :: t)) || has_three_breaks t.
Proof. reflexivity. Qed.

(** The replacement leaves no three line breaks in a row; after a match
    it starts with exactly two, and where nothing matches it starts with
    the line breaks of the text. *)
Lemma replace_newlines_invariant n :
  forall s, length s <= n ->
    has_three_breaks (replace_all re_newlines two_newlines s) = false /\
    (leading_breaks s < 3 ->
     leading_breaks (replace_all re_newlines two_newlines s) =
     leading_breaks s) /\
    (3 <= leading_breaks s ->
     leading_breaks (replace_all re_newlines two_newlines s) = 2).
Proof.
  induction n as [ | n IH]; intros s Hn.
  - destruct s; [ | simpl in Hn; lia ].
    split; [ reflexivity | ]. split; [ reflexivity | ].
    unfold leading_breaks. simpl. lia.
  - destruct s as [ | x t].
    { split; [ reflexivity | ]. split; [ reflexivity | ].
      unfold leading_breaks. simpl. lia. }
    destruct (Nat.lt_ge_cases (leading_breaks (x :: t)) 3) as [Hlt | Hge].
    + rewrite (replace_unmatched _ _ x t (newlines_unmatched _ Hlt)).
      destruct (IH t) as (I1 & I2 & _); [ simpl in Hn; lia | ].
      destruct (is_break x) eqn:Hx.
      * rewrite leading_breaks_break in Hlt by assumption.
        rewrite has_three_breaks_cons.
        rewrite !leading_breaks_break by assumption.
        rewrite I2 by lia. rewrite I1.
        assert (E : (3 <=? S (leading_breaks t)) = false)
          by (apply Nat.leb_gt; lia).
        rewrite E. split; [ reflexivity | ]. split; [ reflexivity | lia ].
      * rewrite has_three_breaks_cons.
        rewrite !leading_breaks_other by assumption.
        rewrite I1. split; [ reflexivity | ]. split; [ reflexivity | lia ].
    + rewrite (replace_newlines_matched _ Hge).
      destruct (one_leading_break (x :: t)) as (x' & t' & E & Hx & _);
        [ lia | ].
      injection E as <- <-.
      destruct (IH (drop_while is_break (x :: t))) as (I1 & I2 & _).
      { rewrite drop_breaks_cons by assumption.
        pose proof (drop_while_length is_break t). simpl in Hn. lia. }
      rewrite leading_breaks_dropped in I2.
      specialize (I2 ltac:(lia)).
      set (out := replace_all re_newlines two_newlines
                    (drop_while is_break (x :: t))) in *.
      change (two_newlines ++ out) with (NL :: NL :: out).
      rewrite !has_three_breaks_cons.
      rewrite !(leading_breaks_break NL) by reflexivity.
      rewrite I1, I2. split; [ reflexivity | ]. split; [ lia | reflexivity ].
Qed.

Lemma collapse_clean s :
  has_three_breaks s = false -> replace_all re_newlines two_newlines s = s.
Proof.
  induction s as [ | x t IH]; intros H; [ reflexivity | ].
  rewrite has_three_breaks_cons in H. apply orb_false_elim in H as [H1 H2].
  apply Nat.leb_gt in H1.
  rewrite (replace_unmatched _ _ x t (newlines_unmatched _ H1)).
  rewrite IH by assumption. reflexivity.
Qed.

Lemma triple_newline_has_breaks s :
  includes triple_newline s = true -> has_three_breaks s = true.
Proof.
  induction s as [ | x t IH]; [ discriminate | ].
  cbn [includes]. intros H. rewrite has_three_breaks_cons.
  apply orb_true_iff. apply orb_prop in H as [H | H].
  - left. unfold triple_newline in H. cbn [startsWith] in H.
    destruct t as [ | y [ | z r]];
      try (rewrite ?andb_false_r in H; discriminate).
    apply andb_prop in H as [Hx H]. apply andb_prop in H as [Hy H].
    apply andb_prop in H as [Hz _].
    rewrite !leading_breaks_break by (apply is_break_NL; assumption).
    reflexivity.
  - right. auto.
Qed.

(** X12. After the replacement of [App.tsx:154] the text has nowhere
    three line breaks in a row, carriage returns and line feeds taken
    together; in particular it has no three newlines in a row. Doing
    the replacement again changes nothing. *)
Theorem collapse_leaves_no_three_breaks content :
  has_three_breaks (replace_all re_newlines two_newlines content) = false /\
  includes triple_newline
    (replace_all re_newlines two_newlines content) = false /\
  replace_all re_newlines two_newlines
    (replace_all re_newlines two_newlines content) =
  replace_all re_newlines two_newlines content.
Proof.
  destruct (replace_newlines_invariant (length content) content (le_n _))
    as (H & _).
  split; [ exact H | split ].
  - destruct (includes triple_newline
                (replace_all re_newlines two_newlines content)) eqn:E;
      [ | reflexivity ].
    apply triple_newline_has_breaks in E. congruence.
  - apply collapse_clean. exact H.
Qed.

(** X13. A text without three line breaks in a row is left as it
    is by the replacement of [App.tsx:154]. *)
Theorem collapse_keeps_clean_text content :
  has_three_breaks content = false ->
  replace_all re_newlines two_newlines content = content.
Proof. apply collapse_clean. Qed.

Lemma collapse_keeps_clean_text_witness :
  replace_all re_newlines two_newlines [cu "a"; CR; NL; cu "b"] =
  [cu "a"; CR; NL; cu "b"].
Proof.
  apply (collapse_keeps_clean_text [cu "a"; CR; NL; cu "b"]).
  reflexivity.
Defined.

End BreakRuns.

(** ** The text of [extractCleanText] is trimmed *)

Section CleanTextMore.

Lemma blank_unmatched_nonspace x t :
  is_space x = false -> match_at re_blank_lines (x :: t) = None.
Proof.
  intros Hx.
  destruct (match_at re_blank_lines (x :: t)) as [[m0 c] | ] eqn:E;
    [ | reflexivity ].
  apply blank_lines_match in E as [_ (t' & E)].
  injection E as -> _. discriminate.
Qed.

(** What [trim] gives ends with no white space. *)
Lemma trim_last s :
  trim s = [] \/ exists s' z, trim s = s' ++ [z] /\ is_space z = false.
Proof.
  unfold trim, trimEnd.
  pose proof (drop_while_head (rev (trimStart s))) as H.
  destruct (drop_while is_space (rev (trimStart s))) as [ | z D];
    [ left; reflexivity | right ].
  exists (rev D), z. split; [ reflexivity | exact H ].
Qed.

(** The replacement keeps the last character of a text that ends with
    something else than white space. *)
Lemma replace_blank_last n :
  forall s' z,
    length s' <= n -> is_space z = false ->
    exists out,
      replace_all re_blank_lines two_newlines (s' ++ [z]) = out ++ [z].
Proof.
  induction n as [ | n IH]; intros s' z Hn Hz.
  - destruct s'; [ | simpl in Hn; lia ].
    exists []. cbn [app].
    rewrite (replace_unmatched _ _ z [] (blank_unmatched_nonspace z [] Hz)).
    reflexivity.
  - destruct s' as [ | x s''].
    { exists []. cbn [app].
      rewrite (replace_unmatched _ _ z [] (blank_unmatched_nonspace z [] Hz)).
      reflexivity. }
    cbn [app].
    destruct (match_at re_blank_lines (x :: s'' ++ [z])) as [[m0 c] | ] eqn:E.
    + rewrite (replace_matched _ m0 c E).
      apply blank_lines_match in E as [_ (t' & E)].
      injection E as -> _.
      cbn [drop_while]. change (is_space NL) with true. cbv iota.
      rewrite drop_while_snoc by assumption.
      destruct (IH (drop_while is_space s'') z) as (out & Hout).
      { pose proof (drop_while_length is_space s''). simpl in Hn. lia. }
      { exact Hz. }
      rewrite Hout. exists (two_newlines ++ out).
      rewrite <- app_assoc. reflexivity.
    + rewrite (replace_unmatched _ _ x _ E).
      destruct (IH s'' z) as (out & Hout); [ simpl in Hn; lia | exact Hz | ].
      rewrite Hout. exists (x :: out). reflexivity.
Qed.

Lemma trimmed_ends x G out z :
  is_space x = false -> is_space z = false ->
  x :: G = out ++ [z] -> trim (x :: G) = x :: G.
Proof.
  intros Hx Hz E. destruct out as [ | y out].
  - injection E as -> ->. unfold trim, trimStart.
    rewrite drop_while_stop by assumption. apply (trimEnd_snoc [] z Hz).
  - injection E as <- ->. apply trim_fixed; assumption.
Qed.

Lemma clean_text_trimmed element :
  trim (extractCleanText element) = extractCleanText element.
Proof.
  unfold extractCleanText.
  pose proof (trim_idem (block_texts element)) as Hidem.
  destruct (trim_last (block_texts element)) as [E | (s' & z & E & Hz)].
  - rewrite E. reflexivity.
  - destruct (replace_blank_last (length s') s' z (le_n _) Hz) as (out & Hout).
    rewrite E in *.
    destruct (s' ++ [z]) as [ | x G] eqn:Es;
      [ destruct s'; discriminate | ].
    pose proof (trimmed_head x G Hidem) as Hx.
    rewrite (replace_unmatched _ _ x G (blank_unmatched_nonspace x G Hx)) in *.
    apply (trimmed_ends x _ out z Hx Hz Hout).
Qed.

(** X14. The text that [extractCleanText] returns is trimmed: it
    neither starts nor ends with white space, the two newlines after
    the last block included. *)
Theorem extractCleanText_is_trimmed element :
  trim (extractCleanText element) = extractCleanText element.
Proof. apply clean_text_trimmed. Qed.

End CleanTextMore.

(** ** The language of the article *)

Section LanguageMore.

Lemma match_at_Chr p s :
  match_at (Chr p) s =
  match s with
  | x :: t => if p x then Some ([x], []) else None
  | [] => None
  end.
Proof.
  unfold match_at. cbn [run]. destruct s as [ | x t]; [ reflexivity | ].
  destruct (p x); [ | reflexivity ].
  unfold accept. pose proof (consumed_app [x] t) as E. cbn [app] in E.
  rewrite E. reflexivity.
Qed.

(** Testing a character class is looking for one of its characters. *)
Lemma test_Chr p s : test (Chr p) s = existsb p s.
Proof.
  unfold test, search. generalize 0 as i.
  induction s as [ | x t IH]; intros i; cbn [search_from];
    rewrite match_at_Chr; [ reflexivity | ].
  cbn [existsb]. destruct (p x); [ reflexivity | ]. apply IH.
Qed.

(** The global match of a character class has one entry for each of its
    characters. *)
Lemma matches_Chr p s :
  length (matches_go (Chr p) s 0) = length (filter p s).
Proof.
  induction s as [ | x t IH]; cbn [matches_go filter];
    rewrite match_at_Chr; [ reflexivity | ].
  destruct (p x); cbn [length]; rewrite IH; reflexivity.
Qed.

(** Replacing a character class by nothing removes its characters. *)
Lemma replace_Chr_empty p s :
  replace_all (Chr p) [] s = filter (fun c => negb (p c)) s.
Proof.
  unfold replace_all.
  induction s as [ | x t IH]; cbn [replace_go filter];
    rewrite match_at_Chr; [ reflexivity | ].
  destruct (p x); cbn [negb length app]; rewrite IH; reflexivity.
Qed.

Lemma banglaChars_count s : banglaChars s = length (filter is_bangla s).
Proof.
  unfold banglaChars, match_g, banglaPattern.
  rewrite <- matches_Chr.
  destruct (matches_go (Chr is_bangla) s 0); reflexivity.
Qed.

Lemma totalChars_count s : totalChars s = non_space_length s.
Proof.
  unfold totalChars, non_space_length, ws. rewrite replace_Chr_empty.
  reflexivity.
Qed.

Lemma bangla_not_space c : is_bangla c = true -> is_space c = false.
Proof.
  intros H. destruct (is_space c) eqn:E; [ exfalso | reflexivity ].
  unfold is_bangla, is_space, between, ch_eqb in *.
  rewrite ?orb_true_iff, ?andb_true_iff, ?N.eqb_eq, ?N.leb_le in *.
  lia.
Qed.

Lemma latin_not_space c : is_latin_letter c = true -> is_space c = false.
Proof.
  intros H. destruct (is_space c) eqn:E; [ exfalso | reflexivity ].
  unfold is_latin_letter, is_space, between, ch_eqb in *.
  rewrite ?orb_true_iff, ?andb_true_iff, ?N.eqb_eq, ?N.leb_le in *.
  lia.
Qed.

Lemma filter_within (p q : char -> bool) s :
  (forall c, p c = true -> q c = true) ->
  filter p (filter q s) = filter p s.
Proof.
  intros H. induction s as [ | x t IH]; [ reflexivity | ].
  cbn [filter]. destruct (q x) eqn:Eq; cbn [filter].
  - rewrite IH. reflexivity.
  - destruct (p x) eqn:Ep; [ | exact IH ].
    apply H in Ep. congruence.
Qed.

Lemma existsb_within (p q : char -> bool) s :
  (forall c, p c = true -> q c = true) ->
  existsb p (filter q s) = existsb p s.
Proof.
  intros H. induction s as [ | x t IH]; [ reflexivity | ].
  cbn [filter existsb]. destruct (q x) eqn:Eq; cbn [existsb].
  - rewrite IH. reflexivity.
  - destruct (p x) eqn:Ep; [ | exact IH ].
    apply H in Ep. congruence.
Qed.

Lemma filter_length_within (p q : char -> bool) s :
  (forall c, p c = true -> q c = true) ->
  length (filter p s) <= length (filter q s).
Proof.
  intros H. induction s as [ | x t IH]; [ reflexivity | ].
  cbn [filter]. destruct (p x) eqn:Ep.
  - rewrite (H x Ep). simpl. lia.
  - destruct (q x); simpl; lia.
Qed.

Lemma existsb_filter_pos (p : char -> bool) s :
  existsb p s = (0 <? length (filter p s)).
Proof.
  induction s as [ | x t IH]; [ reflexivity | ].
  cbn [existsb filter]. destruct (p x); [ reflexivity | exact IH ].
Qed.

Lemma percentage_above (b t m : nat) :
  0 < t ->
  Qgtb (Qmult (Qmake (Z.of_nat b) (Pos.of_nat t)) (inject_Z 100))
       (inject_Z (Z.of_nat m)) =
  (m * t <? 100 * b).
Proof.
  intros Ht.
  assert (Hd : Zpos (Pos.of_nat t) = Z.of_nat t).
  { rewrite <- positive_nat_Z. rewrite Nat2Pos.id by lia. reflexivity. }
  destruct (Nat.ltb_spec (m * t) (100 * b)) as [H | H].
  - apply Qgtb_lt. unfold Qlt. cbn [Qmult Qnum Qden inject_Z].
    rewrite Pos.mul_1_r, Hd. lia.
  - apply Qgtb_le. unfold Qle. cbn [Qmult Qnum Qden inject_Z].
    rewrite Pos.mul_1_r, Hd. lia.
Qed.

(** The decision of [detectLanguage] in terms of three counts: the
    Bangla characters, the characters that are not white space, and
    whether there is a Latin letter. *)
Lemma detectLanguage_counts s :
  detectLanguage s =
  if 3 * non_space_length s <? 5 * length (filter is_bangla s) then Bangla
  else if existsb is_latin_letter s &&
          (non_space_length s <? 5 * length (filter is_bangla s))
       then Mixed
       else English.
Proof.
  unfold detectLanguage, banglaPercentage, banglaPattern, englishPattern.
  rewrite !test_Chr, banglaChars_count, totalChars_count.
  set (b := length (filter is_bangla s)).
  set (t := non_space_length s).
  assert (Hbt : b <= t).
  { apply filter_length_within. intros c Hc.
    rewrite (bangla_not_space c Hc). reflexivity. }
  assert (Hb : existsb is_bangla s = (0 <? b)) by apply existsb_filter_pos.
  rewrite Hb.
  destruct (Nat.ltb_spec 0 t) as [Ht | Ht].
  - change (inject_Z 60) with (inject_Z (Z.of_nat 60)).
    change (inject_Z 20) with (inject_Z (Z.of_nat 20)).
    rewrite !percentage_above by assumption.
    assert (E60 : (60 * t <? 100 * b) = (3 * t <? 5 * b)).
    { destruct (Nat.ltb_spec (60 * t) (100 * b));
        destruct (Nat.ltb_spec (3 * t) (5 * b)); (reflexivity || lia). }
    assert (E20 : (20 * t <? 100 * b) = (t <? 5 * b)).
    { destruct (Nat.ltb_spec (20 * t) (100 * b));
        destruct (Nat.ltb_spec t (5 * b)); (reflexivity || lia). }
    rewrite E60, E20.
    destruct (3 * t <? 5 * b); [ reflexivity | ].
    destruct (Nat.ltb_spec t (5 * b)) as [H5 | H5].
    + assert (E0 : (0 <? b) = true) by (apply Nat.ltb_lt; lia).
      rewrite E0. reflexivity.
    + rewrite !andb_false_r. reflexivity.
  - assert (E1 : (3 * t <? 5 * b) = false) by (apply Nat.ltb_ge; lia).
    assert (E2 : (t <? 5 * b) = false) by (apply Nat.ltb_ge; lia).
    rewrite E1, E2, !andb_false_r. reflexivity.
Qed.

(** X15. White space plays no part in the detection of the language:
    two texts with the same characters apart from white space are
    classified alike. *)
Theorem detectLanguage_ignores_space a b :
  filter (fun c => negb (is_space c)) a =
  filter (fun c => negb (is_space c)) b ->
  detectLanguage a = detectLanguage b.
Proof.
  intros H.
  assert (Hf : forall s,
             detectLanguage (filter (fun c => negb (is_space c)) s) =
             detectLanguage s).
  { intros s. rewrite !detectLanguage_counts. unfold non_space_length.
    rewrite (filter_within (fun c => negb (is_space c))
                           (fun c => negb (is_space c)) s) by auto.
    rewrite (filter_within is_bangla) by
      (intros c Hc; rewrite (bangla_not_space c Hc); reflexivity).
    rewrite (existsb_within is_latin_letter) by
      (intros c Hc; rewrite (latin_not_space c Hc); reflexivity).
    reflexivity. }
  rewrite <- (Hf a), <- (Hf b), H. reflexivity.
Qed.

Lemma detectLanguage_ignores_space_witness :
  detectLanguage (lit "gold price") = detectLanguage (lit " gold  price  ").
Proof.
  apply (detectLanguage_ignores_space (lit "gold price")
                                      (lit " gold  price  ")).
  reflexivity.
Defined.

(** X16. What [detectLanguage] answers, by counting. With [b] Bangla
    characters among [t] characters that are not white space, the
    answer is [bangla] exactly when [b] is more than three fifths of
    [t]; [mixed] exactly when it is not, [b] is more than a fifth of [t]
    and the text has a Latin letter; and [english] in every other case,
    among them the text without a Latin letter whose Bangla share is
    three fifths or less. The test for a Bangla character and the guard
    against an empty text change nothing. *)
Theorem detectLanguage_by_counts s :
  let b := length (filter is_bangla s) in
  let t := non_space_length s in
  (detectLanguage s = Bangla <-> 3 * t < 5 * b) /\
  (detectLanguage s = Mixed <->
     5 * b <= 3 * t /\ t < 5 * b /\ existsb is_latin_letter s = true) /\
  (detectLanguage s = English <->
     5 * b <= t \/ (5 * b <= 3 * t /\ existsb is_latin_letter s = false)).
Proof.
  intros b t. rewrite detectLanguage_counts. fold b. fold t.
  destruct (Nat.ltb_spec (3 * t) (5 * b)) as [H3 | H3].
  - split; [ tauto | ].
    split; (split; [ discriminate | intros H; exfalso; lia ]).
  - destruct (existsb is_latin_letter s);
      destruct (Nat.ltb_spec t (5 * b)) as [H5 | H5]; cbn [andb];
      (split; [ split; [ discriminate | intros H; exfalso; lia ] | ]);
      split; split; try discriminate; try tauto; try lia;
      try (intros [H | [_ H]]; (lia || discriminate));
      try (intros (_ & H & _); lia);
      try (intros (_ & _ & H); discriminate);
      auto.
Qed.

(** X17. Whatever the classifier answers, and also when the call
    fails, [detectContentType] returns one of the four content types; it
    is [General] unless the trimmed answer is what is returned. *)
Theorem detectContentType_is_valid response :
  In (detectContentType response) validTypes /\
  (detectContentType response = General \/
   exists t, response = Some (Some t) /\ detectContentType response = trim t).
Proof.
  assert (HG : In General validTypes) by (simpl; auto).
  destruct response as [[t | ] | ]; cbn [detectContentType];
    try (split; [ exact HG | left; reflexivity ]).
  destruct (trim t) as [ | x r] eqn:Et;
    [ split; [ exact HG | left; reflexivity ] | ].
  destruct (existsb (str_eqb (x :: r)) validTypes) eqn:E.
  - split; [ | right; exists t; rewrite Et; auto ].
    apply existsb_exists in E as (v & Hv & E).
    apply str_eqb_eq in E. rewrite E. exact Hv.
  - split; [ exact HG | left; reflexivity ].
Qed.

End LanguageMore.

(** ** The keyword pill *)

Section CardMore.

(** X18. What the pill shows has the first 50 characters of the term.
    For a term of 50 characters or fewer it has the length of the
    term, so it is the term; for a longer one it has 53 characters,
    which for a term of 51 or 52 characters is more than the term
    has. *)
Theorem displayText_length displayTerm :
  firstn MAX_LENGTH (displayText displayTerm) = firstn MAX_LENGTH displayTerm /\
  length (displayText displayTerm) =
    (if length displayTerm <=? MAX_LENGTH then length displayTerm else 53).
Proof.
  unfold displayText, isTruncated, substring0.
  destruct (Nat.ltb_spec MAX_LENGTH (length displayTerm)) as [H | H].
  - assert (E : (length displayTerm <=? MAX_LENGTH) = false)
      by (apply Nat.leb_gt; exact H).
    rewrite E. split.
    + rewrite firstn_app, firstn_firstn, Nat.min_id.
      rewrite length_firstn, Nat.min_l by lia.
      rewrite Nat.sub_diag. apply app_nil_r.
    + rewrite length_app, length_firstn, Nat.min_l by lia. reflexivity.
  - assert (E : (length displayTerm <=? MAX_LENGTH) = true)
      by (apply Nat.leb_le; exact H).
    rewrite E. auto.
Qed.

End CardMore.

(** ** The noise vocabulary of [calculateScore] *)

Section ScoreMore.

Lemma lang_word_intro l : lang (word_of false l) (map cu l).
Proof.
  induction l as [ | a l IH]; [ reflexivity | ].
  cbn [word_of lang map]. exists [cu a], (map cu l).
  split; [ reflexivity | ]. split; [ | exact IH ].
  exists (cu a). split; [ reflexivity | ].
  unfold ch_eqb. apply N.eqb_refl.
Qed.

Lemma lang_alts l s : lang (alts l) s <-> exists r, In r l /\ lang r s.
Proof.
  induction l as [ | a l IH].
  - cbn [alts lang]. split.
    + intros (x & _ & H). discriminate.
    + intros (r & [] & _).
  - destruct l as [ | b l].
    + cbn [alts]. split.
      * intros H. exists a. split; [ left; reflexivity | exact H ].
      * intros (r & [<- | []] & H). exact H.
    + change (alts (a :: b :: l)) with (Alt a (alts (b :: l))).
      cbn [lang]. rewrite IH. split.
      * intros [H | (r & Hr & H)].
        -- exists a. split; [ left; reflexivity | exact H ].
        -- exists r. split; [ right; exact Hr | exact H ].
      * intros (r & [<- | Hr] & H); [ left; exact H | right; eauto ].
Qed.

Lemma lang_re_noise b :
  lang re_noise b <-> exists w, In w noise_words /\ b = lit w.
Proof.
  change re_noise with (alts (map (word false) noise_words)).
  rewrite lang_alts. split.
  - intros (r & Hr & H). apply in_map_iff in Hr as (w & <- & Hw).
    exists w. split; [ exact Hw | ]. apply lang_word in H. exact H.
  - intros (w & Hw & ->). exists (word false w).
    split; [ apply in_map; exact Hw | apply lang_word_intro ].
Qed.

Lemma startsWith_elim p t :
  startsWith p t = true -> exists r, t = p ++ r.
Proof.
  revert t. induction p as [ | x p IH]; intros t H; [ exists t; reflexivity | ].
  destruct t as [ | y t]; [ discriminate | ].
  cbn [startsWith] in H. apply andb_prop in H as [Hx H].
  apply ch_eqb_eq in Hx. subst y.
  destruct (IH t H) as (r & ->). exists r. reflexivity.
Qed.

Lemma includes_iff p s :
  includes p s = true <-> exists a c, s = a ++ p ++ c.
Proof.
  split.
  - intros H. apply includes_elim in H as (a & t & -> & H).
    apply startsWith_elim in H as (c & ->). eauto.
  - intros (a & c & ->). apply includes_intro. apply startsWith_app.
Qed.

Lemma test_iff r s :
  test r s = true <-> exists a b c, s = a ++ b ++ c /\ lang r b.
Proof.
  rewrite <- search_some_iff. unfold test.
  destruct (search r s); split; congruence.
Qed.

(** X19. The noise test of [calculateScore] looks for the twelve words
    as parts of the lower-cased class and id, not as whole words: an
    element is noise exactly when one of the words occurs somewhere in
    that text, as [ad] does in [shadow]; it then scores -100. *)
Theorem is_noise_iff_substring element :
  (is_noise element = true <->
   exists w, In w noise_words /\
             includes (lit w) (classAndIdString element) = true) /\
  (is_noise element = true -> calculateScore element = num_of_Z (-100)).
Proof.
  split; [ | apply noise_scores_sentinel ].
  unfold is_noise. rewrite test_iff. split.
  - intros (a & b & c & E & H). apply lang_re_noise in H as (w & Hw & ->).
    exists w. split; [ exact Hw | ]. apply includes_iff. eauto.
  - intros (w & Hw & H). apply includes_iff in H as (a & c & E).
    exists a, (lit w), c. split; [ exact E | ].
    apply lang_re_noise. eauto.
Qed.

Lemma is_noise_iff_substring_witness :
  is_noise shadow_article = true /\
  calculateScore shadow_article = num_of_Z (-100).
Proof.
  assert (H : is_noise shadow_article = true).
  { apply (proj1 (is_noise_iff_substring shadow_article)).
    exists "ad"%string. split; [ simpl; auto | reflexivity ]. }
  split; [ exact H | ].
  exact (proj2 (is_noise_iff_substring shadow_article) H).
Defined.

Lemma fold_consider_unchanged l :
  forall best,
    (forall c, In c l -> num_gt (calculateScore c) (snd best) = false) ->
    fold_left consider l best = best.
Proof.
  induction l as [ | e l IH]; intros best H; [ reflexivity | ].
  cbn [fold_left].
  assert (E : consider best e = best).
  { unfold consider. rewrite (H e) by (left; reflexivity). reflexivity. }
  rewrite E. apply IH. intros c Hc. apply H. right. exact Hc.
Qed.

(** X20. When every scored element is noise, the selection keeps the
    body, with the score -1 it started with: the body is what the text
    is extracted from although all the page is named noise. *)
Theorem all_noise_selects_body d :
  (forall c, In c (elementsToScore d) -> is_noise c = true) ->
  selectBest d = (doc_body d, num_of_Z (-1)).
Proof.
  intros H. unfold selectBest. apply fold_consider_unchanged.
  intros c Hc. rewrite (noise_scores_sentinel c (H c Hc)).
  cbn [snd]. apply num_gt_asym. exact sentinel_below_start.
Qed.

Lemma all_noise_selects_body_witness :
  selectBest shadow_page = (doc_body shadow_page, num_of_Z (-1)).
Proof.
  apply (all_noise_selects_body shadow_page).
  intros c [<- | []]. reflexivity.
Defined.



End ScoreMore.

(** ** Answers without a result *)

Section ErrorsMore.

Lemma trim_all_space s : forallb is_space s = true -> trim s = [].
Proof.
  intros H. unfold trim, trimStart.
  rewrite <- (app_nil_r s). rewrite drop_while_all by assumption.
  reflexivity.
Qed.

(** X22. An answer of white space only. The Gemini service reports an
    empty response. The OpenAI service does so for the empty text only:
    its test comes before the trimming, so that a blank text goes through
    the four strategies and ends as a format error. *)
Theorem blank_answer_errors importedValidator p responseText :
  forallb is_space responseText = true ->
  generateKeywords p responseText = Err EmptyResponse /\
  generateKeywordsWithOpenAI importedValidator p responseText =
    Err match responseText with
        | [] => EmptyResponse
        | _ => NoJsonFound
        end.
Proof.
  intros H. pose proof (trim_all_space _ H) as Ht. split.
  - unfold generateKeywords, generateKeywords_try, gemini_parse.
    rewrite Ht. reflexivity.
  - unfold generateKeywordsWithOpenAI, openai_parse.
    destruct responseText as [ | x t]; [ reflexivity | ].
    rewrite Ht. reflexivity.
Qed.

Lemma blank_answer_errors_witness :
  generateKeywords sample_provenance [cu " "; NL] = Err EmptyResponse /\
  generateKeywordsWithOpenAI accepting_validator sample_provenance
    [cu " "; NL] = Err NoJsonFound.
Proof.
  apply (blank_answer_errors accepting_validator sample_provenance
           [cu " "; NL]).
  reflexivity.
Defined.



End ErrorsMore.

(** ** Line breaks in the fetched text *)

Section FetchedMore.

Lemma break_is_space x : is_break x = true -> is_space x = true.
Proof. intros H. apply is_break_cases in H as [-> | ->]; reflexivity. Qed.

Lemma trimmed_no_leading_break s : trim s = s -> leading_breaks s = 0.
Proof.
  intros H. destruct s as [ | x t]; [ reflexivity | ].
  apply trimmed_head in H. apply leading_breaks_other.
  destruct (is_break x) eqn:E; [ | reflexivity ].
  apply break_is_space in E. congruence.
Qed.

Lemma leading_breaks_app a z b :
  is_break z = false ->
  leading_breaks ((a ++ [z]) ++ b) = leading_breaks (a ++ [z]).
Proof.
  intros Hz. induction a as [ | x a IH]; cbn [app].
  - rewrite !leading_breaks_other by assumption. reflexivity.
  - destruct (is_break x) eqn:Hx.
    + rewrite !leading_breaks_break by assumption. rewrite IH. reflexivity.
    + rewrite !leading_breaks_other by assumption. reflexivity.
Qed.

(** Joining a text that ends with something else than a line break to a
    text without three line breaks in a row. *)
Lemma has_three_breaks_app a z b :
  is_break z = false ->
  has_three_breaks (a ++ [z]) = false -> has_three_breaks b = false ->
  has_three_breaks ((a ++ [z]) ++ b) = false.
Proof.
  intros Hz Ha Hb. induction a as [ | x a IH]; cbn [app] in *.
  - rewrite has_three_breaks_cons.
    rewrite leading_breaks_other by assumption. exact Hb.
  - rewrite has_three_breaks_cons in *.
    apply orb_false_elim in Ha as [H1 H2].
    change (x :: (a ++ [z]) ++ b) with (((x :: a) ++ [z]) ++ b).
    rewrite leading_breaks_app by assumption.
    cbn [app]. rewrite H1. apply IH. exact H2.
Qed.

Lemma fetched_body_trimmed d :
  trim (if length (extractCleanText (bestElement d)) <? 300
        then trim (innerText (bestElement d))
        else extractCleanText (bestElement d)) =
  (if length (extractCleanText (bestElement d)) <? 300
   then trim (innerText (bestElement d))
   else extractCleanText (bestElement d)).
Proof.
  destruct (length (extractCleanText (bestElement d)) <? 300).
  - apply trim_idem.
  - apply clean_text_trimmed.
Qed.

(** X24. The text built by the fetching half has three line breaks in
    a row only where the title has them: when the title has none, the
    title, the two newlines and the body after the replacement have
    none, also where they are joined. *)
Theorem fetchedContent_no_three_breaks d :
  has_three_breaks (extractTitle d) = false ->
  has_three_breaks (fetchedContent d) = false.
Proof.
  intros Ht. unfold fetchedContent.
  set (content := if length (extractCleanText (bestElement d)) <? 300
                  then trim (innerText (bestElement d))
                  else extractCleanText (bestElement d)).
  pose proof (fetched_body_trimmed d) as Hc. fold content in Hc.
  destruct (replace_newlines_invariant (length content) content (le_n _))
    as (I1 & I2 & _).
  rewrite (trimmed_no_leading_break content Hc) in I2.
  specialize (I2 ltac:(lia)).
  set (cleaned := replace_all re_newlines two_newlines content) in *.
  assert (Hb : has_three_breaks (two_newlines ++ cleaned) = false).
  { change (two_newlines ++ cleaned) with (NL :: NL :: cleaned).
    rewrite !has_three_breaks_cons.
    rewrite !(leading_breaks_break NL) by reflexivity.
    rewrite I1, I2. reflexivity. }
  unfold extractTitle in *.
  match goal with
  | |- context [trim ?t] => destruct (trim_last t) as [E | (a & z & E & Hz)]
  end; rewrite E in *.
  - exact Hb.
  - apply has_three_breaks_app; [ | exact Ht | exact Hb ].
    destruct (is_break z) eqn:Ez; [ | reflexivity ].
    apply break_is_space in Ez. congruence.
Qed.

Lemma fetchedContent_no_three_breaks_witness :
  has_three_breaks (fetchedContent long_page) = false.
Proof.
  apply (fetchedContent_no_three_breaks long_page).
  reflexivity.
Defined.

End FetchedMore.
